(** * Availability materialisation: [getAvailability]

    A shallow embedding of [getAvailability] from
    [packages/features/bookings/lib/getBookingFields.ts], together with the
    part of the JavaScript [Date] object and of the dayjs time library
    (UTC and timezone plugins) that the function calls.

    Conventions.
    - A JavaScript [Date] is its time value: milliseconds since the epoch,
      as an integer ([Z]).  Only valid dates are modelled.
    - A dayjs object is the triple of the wall-clock fields it shows, the
      UTC offset it carries and the zone name it was given.  Arithmetic on a
      dayjs object ([add], [hour], [minute]) changes the wall-clock fields
      and keeps the offset, as the library does.  The process itself runs in
      UTC, so the library's use of the process zone adds nothing.
    - The timezone database (Intl) is not part of the program: what dayjs
      reads from it is a pair of parameters.  For a zone identifier and a
      UTC instant, [zoneOffset] is the UTC offset in minutes ([$offset])
      that dayjs gives the object it makes for the zone at that instant, and
      [zoneRemainder] is, in milliseconds, what the local time dayjs reads
      for the zone is ahead of the instant moved by that offset.  For a zone
      whose offset is a whole number of minutes, as all zones in use today,
      the first is the zone's offset and the second is 0; where it is not
      (local mean times before standard time), dayjs rounds the offset to
      the minute and what the rounding leaves is the remainder.
    - [toISOString] yields a four-digit year for the years 0000..9999 and a
      sign with six digits outside; [Date.UTC] reads a year 0..99 as
      1900..1999.  Both are followed where the function parses the text of
      [dateFrom].
    - The function is given twice: as a function on values
      ([getAvailability]), and as a computation over a store of objects
      ([getAvailabilityM]) that makes reads, writes and allocations
      explicit; the second is shown to compute the first.
    - [ensureBookingInputsHaveSystemFields], the other function of the
      file, is embedded up to the array it hands to its final schema parse;
      the zod schemas, [slugify] and [BookingFieldType] are parameters. *)

From Stdlib Require Import ZArith List String Ascii Bool Lia Permutation.
From Stdlib Require Import DecimalString.
Import ListNotations.
Local Open Scope Z_scope.

(** ** Time units *)

Definition MS_MINUTE : Z := 60000.
Definition MS_HOUR : Z := 3600000.
Definition MS_DAY : Z := 86400000.

(** ** JavaScript [Date] *)

Definition Date : Type := Z.

(** [Date.prototype.getUTCHours]: HourFromTime of the time value. *)
Definition getUTCHours (t : Date) : Z := (t mod MS_DAY) / MS_HOUR.

(** [Date.prototype.getUTCMinutes]: MinFromTime of the time value. *)
Definition getUTCMinutes (t : Date) : Z := (t mod MS_HOUR) / MS_MINUTE.

(** [Date.prototype.getUTCSeconds] and [getUTCMilliseconds]. *)
Definition getUTCSeconds (t : Date) : Z := (t mod MS_MINUTE) / 1000.
Definition getUTCMilliseconds (t : Date) : Z := t mod 1000.

(** ** The proleptic Gregorian calendar used by [Date] and dayjs

    [civil n] is the (year, month, day) of day number [n], day 0 being
    1970-01-01. *)

Definition civil (n : Z) : Z * Z * Z :=
  let z := n + 719468 in
  let era := z / 146097 in
  let doe := z - era * 146097 in
  let yoe := (doe - doe / 1460 + doe / 36524 - doe / 146096) / 365 in
  let doy := doe - (365 * yoe + yoe / 4 - yoe / 100) in
  let mp := (5 * doy + 2) / 153 in
  let d := doy - (153 * mp + 2) / 5 + 1 in
  let m := if mp <? 10 then mp + 3 else mp - 9 in
  let y := yoe + era * 400 + (if m <=? 2 then 1 else 0) in
  (y, m, d).

Definition digit (n : Z) : ascii := ascii_of_N (Z.to_N (48 + n mod 10)).

Definition pad2 (n : Z) : string :=
  String (digit (n / 10)) (String (digit n) EmptyString).

(** [String(n)] for an integer [n]. *)
Definition numberText (n : Z) : string := NilZero.string_of_int (Z.to_int n).

(** dayjs's [padStart(text, length, "0")]: zeros in front up to [length]
    characters, nothing cut. *)
Fixpoint zeros (n : nat) : string :=
  match n with
  | O => EmptyString
  | S n' => String "0" (zeros n')
  end.
Definition padStart (len : nat) (s : string) : string :=
  (zeros (len - String.length s) ++ s)%string.

(** The [YYYY] of dayjs: the year padded to four characters. *)
Definition pad4 (n : Z) : string := padStart 4 (numberText n).

(** The text ["YYYY-MM-DD"] of a day number. *)
Definition ymd (n : Z) : string :=
  let '(y, m, d) := civil n in
  (pad4 y ++ "-" ++ pad2 m ++ "-" ++ pad2 d)%string.

(** The year of a day number. *)
Definition yearOf (n : Z) : Z := fst (fst (civil n)).

(** The day number of the [d]-th day counted from the first of month [m]
    (1..12) of year [y]: MakeDay, as [Date.UTC] and the parsing of a date
    text use it.  A day past the end of the month runs into the next. *)
Definition daysFromCivil (y m d : Z) : Z :=
  let y' := if m <=? 2 then y - 1 else y in
  let era := y' / 400 in
  let yoe := y' - era * 400 in
  let mp := if m <=? 2 then m + 9 else m - 3 in
  let doy := (153 * mp + 2) / 5 + d - 1 in
  let doe := yoe * 365 + yoe / 4 - yoe / 100 + doy in
  era * 146097 + doe - 719468.

(** ** dayjs objects *)

(** [wall]: the wall-clock fields (year .. millisecond) the object shows,
    counted as milliseconds as if they were UTC; [offset]: its UTC offset in
    minutes ([$offset]); [zone]: the zone name it was given
    ([$x.$timezone]). *)
Record Dayjs : Type := mkDayjs {
  wall : Z;
  offset : Z;
  zone : option string
}.

(** [dayjs.utc(s)] for a string [s] that denotes the instant [t]. *)
Definition utc (t : Z) : Dayjs := mkDayjs t 0 None.

(** [valueOf]: the instant the object denotes. *)
Definition valueOf (d : Dayjs) : Z := wall d - offset d * MS_MINUTE.

(** [a.isBefore(b)] *)
Definition isBefore (a b : Dayjs) : bool := valueOf a <? valueOf b.

(** [d.add(n, "minutes")]: the time moves, the offset is kept. *)
Definition add_minutes (n : Z) (d : Dayjs) : Dayjs :=
  mkDayjs (wall d + n * MS_MINUTE) (offset d) (zone d).

(** [d.add(1, "day")]: the day-of-month field is incremented. *)
Definition add_day (d : Dayjs) : Dayjs :=
  mkDayjs (wall d + MS_DAY) (offset d) (zone d).

(** [d.hour(h)]: the hour field is replaced, all others are kept. *)
Definition set_hour (h : Z) (d : Dayjs) : Dayjs :=
  mkDayjs (wall d / MS_DAY * MS_DAY + h * MS_HOUR + wall d mod MS_HOUR)
          (offset d) (zone d).

(** [d.minute(m)]: the minute field is replaced, all others are kept. *)
Definition set_minute (m : Z) (d : Dayjs) : Dayjs :=
  mkDayjs (wall d / MS_HOUR * MS_HOUR + m * MS_MINUTE + wall d mod MS_MINUTE)
          (offset d) (zone d).

(** [d.hour()], [d.minute()], [d.second()], [d.millisecond()] *)
Definition hour (d : Dayjs) : Z := (wall d mod MS_DAY) / MS_HOUR.
Definition minute (d : Dayjs) : Z := (wall d mod MS_HOUR) / MS_MINUTE.
Definition second (d : Dayjs) : Z := (wall d mod MS_MINUTE) / 1000.
Definition millisecond (d : Dayjs) : Z := wall d mod 1000.

(** [d.day()]: the weekday of the wall-clock date, 0 = Sunday;
    1970-01-01 was a Thursday. *)
Definition day (d : Dayjs) : Z := (wall d / MS_DAY + 4) mod 7.

(** [d.format("YYYY-MM-DD")] *)
Definition format_ymd (d : Dayjs) : string := ymd (wall d / MS_DAY).

Arguments civil : simpl never.
Arguments ymd : simpl never.
Arguments format_ymd : simpl never.
Arguments daysFromCivil : simpl never.

(** ** Rules, intervals and the day-keyed object *)

(** An element of [availability]:
    [{ startTime: Date; endTime: Date; date: Date | null; days: number[] }].
    [days] is tested against [undefined] by the function, so it is optional
    here; [None] for [date] is [null]. *)
Record Rule : Type := mkRule {
  startTime : Date;
  endTime : Date;
  date : option Date;
  days : option (list Z)
}.

(** [{ start: Dayjs; end: Dayjs }] *)
Record Interval : Type := mkInterval {
  start : Dayjs;
  end_ : Dayjs
}.

(** [Record<string, { start: Dayjs; end: Dayjs }[]>]: an object whose own
    string keys are kept in insertion order, which [Object.values] follows. *)
Definition DayMap : Type := list (string * list Interval).

(** [obj[k]], for an object with values of any kind. *)
Fixpoint get {V : Type} (k : string) (obj : list (string * V)) : option V :=
  match obj with
  | [] => None
  | (k', v) :: rest => if String.eqb k k' then Some v else get k rest
  end.

(** [obj[k] = v]: an existing key keeps its place, a new key goes last. *)
Fixpoint set {V : Type} (k : string) (v : V) (obj : list (string * V))
  : list (string * V) :=
  match obj with
  | [] => [(k, v)]
  | (k', v') :: rest =>
      if String.eqb k k' then (k', v) :: rest else (k', v') :: set k v rest
  end.

(** [obj[k] = obj[k] ?? []] *)
Definition ensure (k : string) (obj : DayMap) : DayMap :=
  set k (match get k obj with Some v => v | None => [] end) obj.

(** [obj[k].push(x)]; the key is present wherever the function pushes. *)
Definition push (k : string) (x : Interval) (obj : DayMap) : DayMap :=
  match get k obj with
  | Some v => set k (v ++ [x]) obj
  | None => obj
  end.

(** The two statements [obj[k] = obj[k] ?? []; obj[k].push(x)] together. *)
Definition append (k : string) (x : Interval) (obj : DayMap) : DayMap :=
  push k x (ensure k obj).

(** [{ ...a, ...b }] *)
Definition spread {V : Type} (a b : list (string * V)) : list (string * V) :=
  fold_left (fun obj kv => set (fst kv) (snd kv) obj) (a ++ b) [].

(** [Object.keys(obj)] and [Object.values(obj).flat()] *)
Definition keys {V : Type} (obj : list (string * V)) : list string :=
  map fst obj.
Definition values_flat (obj : DayMap) : list Interval :=
  List.concat (map snd obj).

(** [typeof value.days !== "undefined"] *)
Definition hasDays (value : Rule) : bool :=
  match days value with Some _ => true | None => false end.

(** [!!availability.date] *)
Definition hasDate (availability : Rule) : bool :=
  match date availability with Some _ => true | None => false end.

(** [block.days?.includes(n)] *)
Definition includes (ds : option (list Z)) (n : Z) : bool :=
  match ds with
  | Some l => existsb (Z.eqb n) l
  | None => false
  end.

(** [startTime.getUTCHours() * 60 + startTime.getUTCMinutes()] *)
Definition minutesOfDay (t : Date) : Z := getUTCHours t * 60 + getUTCMinutes t.

(** [dayjs.utc(dateFrom.toISOString().substring(0, 10))], as an instant.
    With (y, m, d) the UTC calendar date of [dateFrom]:
    - for a year 0000..9999 the ten characters are ["YYYY-MM-DD"], which
      dayjs hands to [Date.UTC(YYYY, MM - 1, DD)]; [Date.UTC] reads a year
      0..99 as 1900..1999;
    - outside, [toISOString] writes the year with a sign and six digits, the
      ten characters are ["+YYYYYY-MM"] (or ["-YYYYYY-MM"]), which is not a
      text dayjs parses itself and goes to [new Date], giving the first of
      the month.
    For the years 0100..9999 this is the midnight that starts [dateFrom]'s
    UTC day ([utcStartOfDay_truncates]). *)
Definition utcStartOfDay (dateFrom : Date) : Z :=
  let '(y, m, d) := civil (dateFrom / MS_DAY) in
  if (0 <=? y) && (y <=? 9999) then
    daysFromCivil (if y <=? 99 then 1900 + y else y) m d * MS_DAY
  else
    daysFromCivil y m 1 * MS_DAY.

(** The days the [for] loop visits: the loop with its body left out. *)
Fixpoint loopDays (fuel : nat) (dateTo : Dayjs) (date : Dayjs) : list Dayjs :=
  match fuel with
  | O => []
  | S fuel' =>
      if isBefore date dateTo then date :: loopDays fuel' dateTo (add_day date)
      else []
  end.

(** Iterations the loop makes: the midnights from the instant the walk
    starts at that lie before [dateTo] ([loopDays_enough] shows that more
    fuel changes nothing). *)
Definition walkFuel (dateFrom dateTo : Date) : nat :=
  Z.to_nat ((dateTo - utcStartOfDay dateFrom + (MS_DAY - 1)) / MS_DAY).

Definition walkedDays (dateFrom dateTo : Date) : list Dayjs :=
  loopDays (walkFuel dateFrom dateTo) (utc dateTo) (utc (utcStartOfDay dateFrom)).

(** ** The function *)

Section Engine.

(** The timezone database, as dayjs reads it at a UTC instant.
    [zoneOffset]: the UTC offset in minutes that dayjs gives the object it
    makes for the zone at the instant; it is computed from the difference
    between the instant and the zone's local time, rounded to the minute.
    [zoneRemainder]: the local time dayjs reads for the zone (the text of
    [toLocaleString], with the milliseconds of the instant), less the
    instant moved by [zoneOffset] minutes, in milliseconds: 0 for a zone
    whose offset is a whole number of minutes. *)
Variable zoneOffset : string -> Z -> Z.
Variable zoneRemainder : string -> Z -> Z.

(** [d.tz(timeZone, true)].  The library reads the zone's local time at the
    instant [d] denotes, gives it the rounded offset and then moves it by
    the difference between the offset [d] carried and the new one: the
    wall-clock fields of [d] come back moved by the remainder, with the
    offset the zone has at the instant [d] denoted before. *)
Definition tz_keepLocalTime (timeZone : string) (d : Dayjs) : Dayjs :=
  mkDayjs (wall d + zoneRemainder timeZone (valueOf d))
          (zoneOffset timeZone (valueOf d)) (Some timeZone).

(** [dayjs.tz(t, timeZone)] for a [Date] [t] (not a string), which is
    [dayjs(t).tz(timeZone)]: the object shows the zone's local time at the
    instant [t] and carries the rounded offset. *)
Definition dayjs_tz (t : Date) (timeZone : string) : Dayjs :=
  mkDayjs (t + zoneOffset timeZone t * MS_MINUTE + zoneRemainder timeZone t)
          (zoneOffset timeZone t) (Some timeZone).

(** The interval a recurring rule gives on the walked day [date]. *)
Definition blockInterval (timeZone : string) (block : Rule) (date : Dayjs)
  : Interval :=
  mkInterval
    (add_minutes (minutesOfDay (startTime block))
                 (tz_keepLocalTime timeZone date))
    (add_minutes (minutesOfDay (endTime block))
                 (tz_keepLocalTime timeZone date)).

(** Body of the [for] loop. *)
Definition walkStep (timeZone : string) (block : Rule) (date : Dayjs)
           (dates : DayMap) : DayMap :=
  let startDate := start (blockInterval timeZone block date) in
  if includes (days block) (day startDate) then
    push (format_ymd startDate) (blockInterval timeZone block date)
         (ensure (format_ymd startDate) dates)
  else dates.

(** The [for] loop: [fuel] bounds the number of iterations. *)
Fixpoint dayLoop (fuel : nat) (timeZone : string) (block : Rule)
         (dateTo : Dayjs) (date : Dayjs) (dates : DayMap) : DayMap :=
  match fuel with
  | O => dates
  | S fuel' =>
      if isBefore date dateTo then
        dayLoop fuel' timeZone block dateTo (add_day date)
                (walkStep timeZone block date dates)
      else dates
  end.

(** The recurring expansion of one rule over the walked days: what the loop
    computes ([dayLoop_fold]). *)
Definition walkBlock (timeZone : string) (dateFrom dateTo : Date)
           (dates : DayMap) (block : Rule) : DayMap :=
  fold_left (fun acc d => walkStep timeZone block d acc)
            (walkedDays dateFrom dateTo) dates.

Definition workingDates (timeZone : string) (availability : list Rule)
           (dateFrom dateTo : Date) : DayMap :=
  fold_left
    (fun dates block =>
       dayLoop (walkFuel dateFrom dateTo) timeZone block (utc dateTo)
               (utc (utcStartOfDay dateFrom)) dates)
    (filter hasDays availability) [].

(** The interval of an override rule whose [date] is [d]. *)
Definition overrideInterval (timeZone : string) (override : Rule) (d : Date)
  : Interval :=
  mkInterval
    (set_minute (getUTCMinutes (startTime override))
       (set_hour (getUTCHours (startTime override)) (dayjs_tz d timeZone)))
    (set_minute (getUTCMinutes (endTime override))
       (set_hour (getUTCHours (endTime override)) (dayjs_tz d timeZone))).

(** Body of the second [reduce]; the filter leaves only rules with a
    [date]. *)
Definition overrideStep (timeZone : string) (dates : DayMap)
           (override : Rule) : DayMap :=
  match date override with
  | Some d =>
      let iv := overrideInterval timeZone override d in
      push (format_ymd (start iv)) iv (ensure (format_ymd (start iv)) dates)
  | None => dates
  end.

Definition dateOverrides (timeZone : string) (availability : list Rule)
  : DayMap :=
  fold_left (overrideStep timeZone) (filter hasDate availability) [].

Definition mergeAvailability (timeZone : string) (availability : list Rule)
           (dateFrom dateTo : Date) : DayMap :=
  spread (workingDates timeZone availability dateFrom dateTo)
         (dateOverrides timeZone availability).

Definition getAvailability (timeZone : string) (availability : list Rule)
           (dateFrom dateTo : Date) : list Interval :=
  values_flat (mergeAvailability timeZone availability dateFrom dateTo).

End Engine.

(** ** The function over a store

    The same function with the objects it is given and the objects it
    creates kept in a store, to follow what it reads and writes.  Dayjs
    objects and the [{ start, end }] records are never written after they are
    made and stay values.  A computation that ends in [None] is one that
    throws a TypeError. *)

Definition loc : Type := nat.

(** A rule object: its properties hold references. *)
Record RuleObj : Type := mkRuleObj {
  o_startTime : loc;
  o_endTime : loc;
  o_date : option loc;
  o_days : option loc
}.

Inductive Obj : Type :=
| ODate (t : Z)
| ONumbers (l : list Z)
| ORule (r : RuleObj)
| ORules (l : list loc)
| OIntervals (l : list Interval)
| ODays (entries : list (string * loc))
| OArrays (l : list loc).

(** Location [l] is the [l]-th object; new objects go last. *)
Definition Heap : Type := list Obj.

Fixpoint upd (l : loc) (o : Obj) (h : Heap) : Heap :=
  match h, l with
  | [], _ => []
  | _ :: rest, O => o :: rest
  | x :: rest, S l' => x :: upd l' o rest
  end.

Definition M (A : Type) : Type := Heap -> option (A * Heap).

Definition ret {A : Type} (a : A) : M A := fun h => Some (a, h).

Definition bind {A B : Type} (c : M A) (k : A -> M B) : M B :=
  fun h => match c h with
           | Some (a, h') => k a h'
           | None => None
           end.

Definition throw {A : Type} : M A := fun _ => None.

Notation "x <- c ;; k" := (bind c (fun x => k))
  (at level 61, c at next level, right associativity).
Notation "c ;; k" := (bind c (fun _ => k))
  (at level 61, right associativity).

Definition load (l : loc) : M Obj :=
  fun h => match nth_error h l with
           | Some o => Some (o, h)
           | None => None
           end.

Definition alloc (o : Obj) : M loc :=
  fun h => Some (List.length h, h ++ [o]).

Definition store (l : loc) (o : Obj) : M unit :=
  fun h => if (l <? List.length h)%nat then Some (tt, upd l o h) else None.

Definition readDate (l : loc) : M Date :=
  o <- load l ;; match o with ODate t => ret t | _ => throw end.

Definition readNumbers (l : loc) : M (list Z) :=
  o <- load l ;; match o with ONumbers ns => ret ns | _ => throw end.

Definition readRule (l : loc) : M RuleObj :=
  o <- load l ;; match o with ORule r => ret r | _ => throw end.

Definition readRules (l : loc) : M (list loc) :=
  o <- load l ;; match o with ORules ls => ret ls | _ => throw end.

Definition readIntervals (l : loc) : M (list Interval) :=
  o <- load l ;; match o with OIntervals ivs => ret ivs | _ => throw end.

Definition readDays (l : loc) : M (list (string * loc)) :=
  o <- load l ;; match o with ODays es => ret es | _ => throw end.

Definition readArrays (l : loc) : M (list loc) :=
  o <- load l ;; match o with OArrays ls => ret ls | _ => throw end.

(** [arr.filter(p)]: a new array. *)
Fixpoint filterM (p : loc -> M bool) (ls : list loc) : M (list loc) :=
  match ls with
  | [] => ret []
  | l :: rest =>
      b <- p l ;;
      kept <- filterM p rest ;;
      ret (if b then l :: kept else kept)
  end.

Definition array_filter (p : loc -> M bool) (arr : loc) : M loc :=
  ls <- readRules arr ;;
  kept <- filterM p ls ;;
  alloc (ORules kept).

(** [arr.reduce(f, init)] *)
Fixpoint reduceM (f : loc -> loc -> M loc) (ls : list loc) (acc : loc)
  : M loc :=
  match ls with
  | [] => ret acc
  | l :: rest => acc' <- f acc l ;; reduceM f rest acc'
  end.

Definition array_reduce (f : loc -> loc -> M loc) (arr : loc) (init : loc)
  : M loc :=
  ls <- readRules arr ;; reduceM f ls init.

(** [typeof value.days !== "undefined"] and [!!availability.date] *)
Definition hasDaysM (value : loc) : M bool :=
  r <- readRule value ;;
  ret (match o_days r with Some _ => true | None => false end).

Definition hasDateM (availability : loc) : M bool :=
  r <- readRule availability ;;
  ret (match o_date r with Some _ => true | None => false end).

(** [block.startTime], [block.endTime] read down to the time value, and
    [block.days?.includes(n)]. *)
Definition startTimeOf (block : loc) : M Date :=
  r <- readRule block ;; readDate (o_startTime r).

Definition endTimeOf (block : loc) : M Date :=
  r <- readRule block ;; readDate (o_endTime r).

Definition daysIncludes (block : loc) (n : Z) : M bool :=
  r <- readRule block ;;
  match o_days r with
  | Some a => ns <- readNumbers a ;; ret (existsb (Z.eqb n) ns)
  | None => ret false
  end.

(** [dates[k] = dates[k] ?? []] *)
Definition ensureM (dates : loc) (k : string) : M unit :=
  es <- readDays dates ;;
  match get k es with
  | Some a => store dates (ODays (set k a es))
  | None => a <- alloc (OIntervals []) ;; store dates (ODays (set k a es))
  end.

(** [dates[k]] where an array is expected. *)
Definition getKeyM (dates : loc) (k : string) : M loc :=
  es <- readDays dates ;;
  match get k es with
  | Some a => ret a
  | None => throw
  end.

(** [arr.push(x)] *)
Definition pushM (arr : loc) (x : Interval) : M unit :=
  ivs <- readIntervals arr ;; store arr (OIntervals (ivs ++ [x])).

(** [Object.values(obj).flat()]'s second half: the arrays joined. *)
Fixpoint flatM (arrs : list loc) : M (list Interval) :=
  match arrs with
  | [] => ret []
  | a :: rest => ivs <- readIntervals a ;; more <- flatM rest ;; ret (ivs ++ more)
  end.

Section StoreEngine.

Variable zoneOffset : string -> Z -> Z.
Variable zoneRemainder : string -> Z -> Z.

(** Body of the [for] loop. *)
Definition walkStepM (timeZone : string) (block : loc) (date : Dayjs)
           (dates : loc) : M unit :=
  st <- startTimeOf block ;;
  let startDate :=
    add_minutes (minutesOfDay st) (tz_keepLocalTime zoneOffset zoneRemainder timeZone date) in
  inc <- daysIncludes block (day startDate) ;;
  if inc then
    ensureM dates (format_ymd startDate) ;;
    arr <- getKeyM dates (format_ymd startDate) ;;
    et <- endTimeOf block ;;
    pushM arr (mkInterval startDate
                 (add_minutes (minutesOfDay et)
                              (tz_keepLocalTime zoneOffset zoneRemainder timeZone date)))
  else ret tt.

(** The [for] loop; [dateTo] is read at every test. *)
Fixpoint dayLoopM (fuel : nat) (timeZone : string) (block : loc)
         (dateTo : loc) (date : Dayjs) (dates : loc) : M unit :=
  match fuel with
  | O => ret tt
  | S fuel' =>
      t <- readDate dateTo ;;
      if isBefore date (utc t) then
        walkStepM timeZone block date dates ;;
        dayLoopM fuel' timeZone block dateTo (add_day date) dates
      else ret tt
  end.

(** The first [reduce] callback. *)
Definition walkCallback (timeZone : string) (dateFrom dateTo : loc)
           (dates block : loc) : M loc :=
  f <- readDate dateFrom ;;
  t <- readDate dateTo ;;
  dayLoopM (walkFuel f t) timeZone block dateTo (utc (utcStartOfDay f)) dates ;;
  ret dates.

(** The second [reduce] callback. *)
Definition overrideCallback (timeZone : string) (dates override : loc)
  : M loc :=
  r <- readRule override ;;
  match o_date r with
  | Some dl =>
      d <- readDate dl ;;
      st <- readDate (o_startTime r) ;;
      let start :=
        set_minute (getUTCMinutes st)
          (set_hour (getUTCHours st) (dayjs_tz zoneOffset zoneRemainder d timeZone)) in
      ensureM dates (format_ymd start) ;;
      arr <- getKeyM dates (format_ymd start) ;;
      d' <- readDate dl ;;
      et <- readDate (o_endTime r) ;;
      pushM arr (mkInterval start
                   (set_minute (getUTCMinutes et)
                      (set_hour (getUTCHours et)
                                (dayjs_tz zoneOffset zoneRemainder d' timeZone)))) ;;
      ret dates
  | None => ret dates
  end.

Definition getAvailabilityM (timeZone : string) (availability : loc)
           (dateFrom dateTo : loc) : M loc :=
  recurring <- array_filter hasDaysM availability ;;
  acc1 <- alloc (ODays []) ;;
  workingDates <-
    array_reduce (walkCallback timeZone dateFrom dateTo) recurring acc1 ;;
  overrides <- array_filter hasDateM availability ;;
  acc2 <- alloc (ODays []) ;;
  dateOverrides <- array_reduce (overrideCallback timeZone) overrides acc2 ;;
  wd <- readDays workingDates ;;
  od <- readDays dateOverrides ;;
  mergeAvailability <- alloc (ODays (spread wd od)) ;;
  es <- readDays mergeAvailability ;;
  vals <- alloc (OArrays (map snd es)) ;;
  arrs <- readArrays vals ;;
  flat <- flatM arrs ;;
  alloc (OIntervals flat).

End StoreEngine.

(** ** Booking fields: [ensureBookingInputsHaveSystemFields]

    The function that completes a list of booking fields with the system
    fields.  The zod schemas, [slugify] and [BookingFieldType] are imported
    from other packages and are parameters here.

    A JavaScript value is modelled as far as the function looks into it. *)

#[local] Unset Elimination Schemes.

Inductive JsValue : Type :=
| VUndefined
| VNull
| VBool (b : bool)
| VStr (s : string)
| VArr (l : list JsValue)
| VObj (o : list (string * JsValue))
| VBuiltin (key : string).

#[local] Set Elimination Schemes.

(** A plain object: own properties in insertion order. *)
Definition JsObject : Type := list (string * JsValue).

(** The own properties of [Object.prototype], which every plain object
    inherits; [VBuiltin k] is the built-in found under [k]. *)
Definition objectPrototypeKeys : list string :=
  [ "constructor"; "__defineGetter__"; "__defineSetter__"; "hasOwnProperty";
    "__lookupGetter__"; "__lookupSetter__"; "isPrototypeOf";
    "propertyIsEnumerable"; "toString"; "valueOf"; "__proto__";
    "toLocaleString" ]%string.

(** [o[k]] on a plain object: own property, else inherited, else
    [undefined]. *)
Definition member (o : JsObject) (k : string) : JsValue :=
  match get k o with
  | Some v => v
  | None => if existsb (String.eqb k) objectPrototypeKeys then VBuiltin k
            else VUndefined
  end.

(** The truth value a condition gives to a value. *)
Definition truthy (v : JsValue) : bool :=
  match v with
  | VUndefined | VNull => false
  | VBool b => b
  | VStr s => negb (String.eqb s "")
  | VArr _ | VObj _ | VBuiltin _ => true
  end.

(** An element of [Fields]: its [name], a string by the schema, and its
    other own properties in order. *)
Record Field : Type := mkField {
  name : string;
  props : JsObject
}.

(** An element of [customInputs], with the properties the function reads. *)
Record CustomInput : Type := mkCustomInput {
  label : string;
  placeholder : JsValue;
  type : string;
  required : JsValue;
  options : option (list JsObject)
}.

Definition SystemFieldsEditability : JsObject :=
  [ ("name", VStr "system"); ("email", VStr "system");
    ("location", VStr "system"); ("notes", VStr "system-but-optional");
    ("guests", VStr "system-but-optional");
    ("rescheduleReason", VStr "system") ]%string.

(** [sources: [{ label: "Default", id: "default", type: "default" }]] *)
Definition defaultSources : JsValue :=
  VArr [VObj [("label", VStr "Default"); ("id", VStr "default");
              ("type", VStr "default")]%string].

Definition systemBeforeFields : list Field :=
  [ mkField "name"
      [ ("defaultLabel", VStr "your_name");
        ("defaultPlaceholder", VStr "example_name");
        ("type", VStr "name"); ("required", VBool true);
        ("sources", defaultSources) ]%string;
    mkField "email"
      [ ("defaultLabel", VStr "email_address");
        ("defaultPlaceholder", VStr "you@example.com");
        ("type", VStr "email"); ("required", VBool true);
        ("sources", defaultSources) ]%string;
    mkField "location"
      [ ("defaultLabel", VStr "location");
        ("type", VStr "radioInput"); ("required", VBool false);
        ("optionsInputs",
         VObj [ ("attendeeInPerson",
                 VObj [("type", VStr "address"); ("required", VBool true);
                       ("placeholder", VStr "")]);
                ("phone",
                 VObj [("type", VStr "phone"); ("required", VBool true);
                       ("placeholder", VStr "")]) ]);
        ("sources", defaultSources) ]%string ].

Definition systemAfterFields (additionalNotesRequired disableGuests : bool)
  : list Field :=
  [ mkField "notes"
      [ ("defaultLabel", VStr "additional_notes");
        ("type", VStr "textarea");
        ("required", VBool additionalNotesRequired);
        ("defaultPlaceholder", VStr "share_additional_notes");
        ("sources", defaultSources) ]%string;
    mkField "guests"
      [ ("defaultLabel", VStr "additional_guests");
        ("type", VStr "multiemail"); ("required", VBool false);
        ("hidden", VBool disableGuests);
        ("sources", defaultSources) ]%string;
    mkField "rescheduleReason"
      [ ("defaultLabel", VStr "reschedule_reason");
        ("type", VStr "textarea");
        ("defaultPlaceholder", VStr "reschedule_placeholder");
        ("required", VBool false);
        ("sources", defaultSources) ]%string ].

(** [bookingFields.find((f) => f.name === field.name)], as a test. *)
Definition hasField (bookingFields : list Field) (field : Field) : bool :=
  existsb (fun f => String.eqb (name f) (name field)) bookingFields.

(** The loop that collects the system fields not found in [bookingFields]. *)
Definition missingFields (system bookingFields : list Field) : list Field :=
  filter (fun field => negb (hasField bookingFields field)) system.

(** The [map] callback: a field whose name finds something in
    [SystemFieldsEditability] gets that as [editable]. *)
Definition resetEditable (field : Field) : Field :=
  let foundEditableMap := member SystemFieldsEditability (name field) in
  if negb (truthy foundEditableMap) then field
  else mkField (name field) (set "editable" foundEditableMap (props field)).

Section BookingFields.

(** [slugify] of [@calcom/lib/slugify]. *)
Variable slugify : string -> string.

(** [BookingFieldType.text] and so on, by member name. *)
Variable BookingFieldType : string -> JsValue.

(** [eventTypeBookingFields.brand<"HAS_SYSTEM_FIELDS">().parse]; [None] when
    it throws. *)
Variable parseBookingFields : list Field -> option (list Field).

Definition CustomInputTypeToFieldType : JsObject :=
  [ ("TEXT", BookingFieldType "text");
    ("TEXTLONG", BookingFieldType "textarea");
    ("NUMBER", BookingFieldType "number");
    ("BOOL", BookingFieldType "boolean");
    ("RADIO", BookingFieldType "radio");
    ("PHONE", BookingFieldType "phone") ]%string.

(** The field pushed for a custom input. *)
Definition migrated (input : CustomInput) : Field :=
  mkField (slugify (label input))
    [ ("label", VStr (label input));
      ("editable", VStr "user");
      ("placeholder", placeholder input);
      ("type", member CustomInputTypeToFieldType (type input));
      ("required", required input);
      ("options",
       match options input with
       | Some os =>
           VArr (map (fun o => VObj (set "value" (member o "label") o)) os)
       | None => VArr []
       end) ]%string.

(** The array handed to the final [parse]: the value of [bookingFields]
    after the last assignment. *)
Definition bookingFieldsToParse (bookingFields : list Field)
           (disableGuests additionalNotesRequired : bool)
           (customInputs : list CustomInput) : list Field :=
  let handleMigration :=
    match bookingFields with [] => true | _ :: _ => false end in
  let withBefore :=
    missingFields systemBeforeFields bookingFields ++ bookingFields in
  let withCustom :=
    if handleMigration then withBefore ++ map migrated customInputs
    else withBefore in
  let withAfter :=
    withCustom ++
    missingFields (systemAfterFields additionalNotesRequired disableGuests)
                  withCustom in
  map resetEditable withAfter.

Definition ensureBookingInputsHaveSystemFields (bookingFields : list Field)
           (disableGuests additionalNotesRequired : bool)
           (customInputs : list CustomInput) : option (list Field) :=
  parseBookingFields
    (bookingFieldsToParse bookingFields disableGuests
                                   additionalNotesRequired customInputs).

End BookingFields.

(** The names in [SystemFieldsEditability]. *)
Definition systemNames : list string :=
  ["name"; "email"; "location"; "notes"; "guests"; "rescheduleReason"]%string.

(** ** A small timezone database for examples

    Fixed-offset zones, and New York with its 2024 daylight-saving period
    (2024-03-10T07:00Z to 2024-11-03T06:00Z). *)
Definition sampleZones (timeZone : string) (t : Z) : Z :=
  if String.eqb timeZone "America/New_York" then
    if (1710054000000 <=? t) && (t <? 1730613600000) then -240 else -300
  else if String.eqb timeZone "Etc/GMT+5" then -300
  else if String.eqb timeZone "Asia/Kolkata" then 330
  else if String.eqb timeZone "Europe/Berlin" then 60
  else 0.

(** All of these offsets are whole minutes: nothing remains. *)
Definition noRemainder (timeZone : string) (t : Z) : Z := 0.

(** Two zones as they were while their offset was not a whole number of
    minutes: New York on local mean time (-4:56:02, until 1883) and Monrovia
    (-0:44:30, until 1972).  Rounded to the minute these are -296 and -45
    minutes, which leaves -2 and +30 seconds. *)
Definition oldZones (timeZone : string) (t : Z) : Z :=
  if String.eqb timeZone "America/New_York" then -296
  else if String.eqb timeZone "Africa/Monrovia" then -45
  else 0.
Definition oldRemainder (timeZone : string) (t : Z) : Z :=
  if String.eqb timeZone "America/New_York" then -2000
  else if String.eqb timeZone "Africa/Monrovia" then 30000
  else 0.

(** 2024-01-01T00:00:00.000Z and whole hours. *)
Definition jan1_2024 : Date := 1704067200000.

(** 2024-03-10, 1971-01-01, 1850-01-01 and 0050-01-01, at 00:00 UTC. *)
Definition mar10_2024 : Date := 1710028800000.
Definition jan1_1971 : Date := 31536000000.
Definition jan1_1850 : Date := -3786825600000.
Definition hours (h : Z) : Z := h * MS_HOUR.
Definition everyDay : list Z := [0; 1; 2; 3; 4; 5; 6].

(** 09:00-17:00 on every weekday index, and an override 10:00-12:00 stored for
    2024-01-02 (UTC midnight, as a date column holds it). *)
Definition nineToFive : Rule := mkRule (hours 9) (hours 17) None (Some everyDay).
Definition jan2Override : Rule :=
  mkRule (hours 10) (hours 12) (Some (jan1_2024 + MS_DAY)) (Some []).

(** A store holding [nineToFive], [jan2Override], the array of the two, and
    the dates 2024-01-01 and 2024-01-04. *)
Definition sampleStore : Heap :=
  [ ODate (hours 9); ODate (hours 17); ONumbers everyDay;
    ORule (mkRuleObj 0%nat 1%nat None (Some 2%nat));
    ODate (hours 10); ODate (hours 12); ODate (jan1_2024 + MS_DAY);
    ONumbers [];
    ORule (mkRuleObj 4%nat 5%nat (Some 6%nat) (Some 7%nat));
    ORules [3%nat; 8%nat];
    ODate jan1_2024; ODate (jan1_2024 + 3 * MS_DAY) ].

(** Stand-ins for the two imported members in examples: labels that are
    already slugs, and field types named by their member. *)
Definition plainSlug (s : string) : string := s.
Definition typeByName (member_name : string) : JsValue := VStr member_name.

(** A text question and a custom input labelled [notes]. *)
Definition companyField : Field :=
  mkField "company"
    [("type", VStr "text"); ("label", VStr "Company");
     ("editable", VStr "user")]%string.
Definition notesInput : CustomInput :=
  mkCustomInput "notes" (VStr "") "TEXTLONG" (VBool false) None.
Definition emailInput : CustomInput :=
  mkCustomInput "email" (VStr "") "TEXT" (VBool true) None.

(** ** Predicates used in the statements *)

(** A property of every interval stored in the object, given its key. *)
Definition allEntries (P : string -> Interval -> Prop) (obj : DayMap) : Prop :=
  Forall (fun kv => Forall (P (fst kv)) (snd kv)) obj.

(** Every stored interval sits under the date of its own start. *)
Definition keyed : DayMap -> Prop :=
  allEntries (fun k iv => format_ymd (start iv) = k).

(** The intervals of the flattened object that fall on date [k]. *)
Definition onDate (k : string) (l : list Interval) : list Interval :=
  filter (fun iv => String.eqb (format_ymd (start iv)) k) l.

(** *** The two expansions written as comprehensions *)

(** The intervals of the recurring rules, rule by rule and walked day by
    walked day. *)
Definition recurringIntervals (zoneOffset zoneRemainder : string -> Z -> Z)
           (timeZone : string) (availability : list Rule)
           (dateFrom dateTo : Date) : list Interval :=
  flat_map
    (fun block =>
       flat_map
         (fun d =>
            if includes (days block)
                        (day (start (blockInterval zoneOffset zoneRemainder timeZone block d)))
            then [blockInterval zoneOffset zoneRemainder timeZone block d] else [])
         (walkedDays dateFrom dateTo))
    (filter hasDays availability).

(** The intervals of the rules with a [date], rule by rule. *)
Definition overrideIntervals (zoneOffset zoneRemainder : string -> Z -> Z)
           (timeZone : string) (availability : list Rule) : list Interval :=
  flat_map
    (fun override =>
       match date override with
       | Some d => [overrideInterval zoneOffset zoneRemainder timeZone override d]
       | None => []
       end)
    availability.

(** The date an interval is stored under. *)
Definition dateOf (iv : Interval) : string := format_ymd (start iv).

(** The different texts of [l] that are not in [seen], each once, at the
    place it comes first. *)
Fixpoint firstSeen (seen : list string) (l : list string) : list string :=
  match l with
  | [] => []
  | k :: rest =>
      if existsb (String.eqb k) seen then firstSeen seen rest
      else k :: firstSeen (seen ++ [k]) rest
  end.

Definition firstOccurrences (l : list string) : list string := firstSeen [] l.

(** A list of intervals put under their dates, one after the other. *)
Definition groupByDate (l : list Interval) (acc : DayMap) : DayMap :=
  fold_left (fun acc iv => append (dateOf iv) iv acc) l acc.


(** [k] is not among [ks]. *)
Definition absent (ks : list string) (k : string) : bool :=
  negb (existsb (String.eqb k) ks).

(** Every key of an expansion has an interval. *)
Definition inhabited (obj : DayMap) : Prop :=
  Forall (fun kv => snd kv <> []) obj.

(** [dateTo] moved up to the next UTC midnight, if it is not one. *)
Definition utcEndOfDay (dateTo : Date) : Z :=
  (dateTo + (MS_DAY - 1)) / MS_DAY * MS_DAY.

(** *** Predicates on stores *)

(** Every object below [n] is as it was, and no object was taken away. *)
Definition stable (n : nat) (h h' : Heap) : Prop :=
  (List.length h <= List.length h')%nat /\
  forall l, (l < n)%nat -> nth_error h' l = nth_error h l.

(** The rule object at [l], with the objects its properties refer to, holds
    the rule [r]. *)
Definition ruleAt (h : Heap) (l : loc) (r : Rule) : Prop :=
  exists ro,
    nth_error h l = Some (ORule ro) /\
    nth_error h (o_startTime ro) = Some (ODate (startTime r)) /\
    nth_error h (o_endTime ro) = Some (ODate (endTime r)) /\
    match o_date ro, date r with
    | Some dl, Some d => nth_error h dl = Some (ODate d)
    | None, None => True
    | _, _ => False
    end /\
    match o_days ro, days r with
    | Some a, Some ns => nth_error h a = Some (ONumbers ns)
    | None, None => True
    | _, _ => False
    end.

(** The array at [availability] holds rule objects for the list [rules]. *)
Definition inputAt (h : Heap) (availability : loc) (rules : list Rule) : Prop :=
  exists ls, nth_error h availability = Some (ORules ls) /\
             Forall2 (ruleAt h) ls rules.

(** Entries and a day-keyed object that agree key by key, the values being
    related by [Q]. *)
Definition entriesRel {V W : Type} (Q : V -> W -> Prop)
           (es : list (string * V)) (m : list (string * W)) : Prop :=
  Forall2 (fun e kv => fst e = fst kv /\ Q (snd e) (snd kv)) es m.

(** Location [a], not below [lo], holds the interval array [v]. *)
Definition arrayAt (lo : nat) (h : Heap) (a : loc) (v : list Interval) : Prop :=
  (lo <= a)%nat /\ nth_error h a = Some (OIntervals v).

(** The object at [d], not below [lo], with the arrays it refers to, each
    referred to once and none below [lo], holds the day-keyed object [m]. *)
Definition repDays (lo : nat) (h : Heap) (d : loc) (m : DayMap) : Prop :=
  (lo <= d)%nat /\
  exists es, nth_error h d = Some (ODays es) /\
             entriesRel (arrayAt lo h) es m /\
             NoDup (map snd es).

(** Two rules that agree on everything but the calendar date carried by
    [startTime] and [endTime]. *)
Definition sameClock (r1 r2 : Rule) : Prop :=
  getUTCHours (startTime r1) = getUTCHours (startTime r2) /\
  getUTCMinutes (startTime r1) = getUTCMinutes (startTime r2) /\
  getUTCHours (endTime r1) = getUTCHours (endTime r2) /\
  getUTCMinutes (endTime r1) = getUTCMinutes (endTime r2) /\
  date r1 = date r2 /\ days r1 = days r2.

(** * Properties *)

Example ymd_2024_01_01 : ymd 19723 = "2024-01-01"%string.
Proof. reflexivity. Qed.

Example ymd_leap_day : ymd 19782 = "2024-02-29"%string.
Proof. reflexivity. Qed.

Example ymd_epoch : ymd 0 = "1970-01-01"%string.
Proof. reflexivity. Qed.


(** ** The calendar *)

(** [civil] over the era, the year of the era and the day of that year,
    counted from the first of March. *)
Lemma civil_spec (n : Z) :
  exists era yoe doy mp : Z,
    n + 719468 = era * 146097 + (yoe * 365 + yoe / 4 - yoe / 100 + doy) /\
    0 <= yoe <= 399 /\ 0 <= doy <= 365 /\
    mp = (5 * doy + 2) / 153 /\ 0 <= mp <= 11 /\
    1 <= doy - (153 * mp + 2) / 5 + 1 <= 31 /\
    civil n = (yoe + era * 400 + (if mp <? 10 then 0 else 1),
               (if mp <? 10 then mp + 3 else mp - 9),
               doy - (153 * mp + 2) / 5 + 1).
Proof.
  unfold civil.
  set (z := n + 719468). set (era := z / 146097).
  set (doe := z - era * 146097).
  assert (Hdoe : 0 <= doe < 146097)
    by (subst doe era; Z.div_mod_to_equations; lia).
  set (yoe := (doe - doe / 1460 + doe / 36524 - doe / 146096) / 365).
  assert (Hyoe : 0 <= yoe <= 399)
    by (subst yoe; Z.div_mod_to_equations; lia).
  set (doy := doe - (365 * yoe + yoe / 4 - yoe / 100)).
  assert (Hdoy : 0 <= doy <= 365).
  { subst doy yoe. revert Hdoe. generalize doe. clear. intros doe Hdoe.
    Z.div_mod_to_equations. lia. }
  set (mp := (5 * doy + 2) / 153).
  assert (Hmp : 0 <= mp <= 11) by (subst mp; Z.div_mod_to_equations; lia).
  exists era, yoe, doy, mp.
  split; [unfold doy, doe, z; ring|].
  split; [exact Hyoe|]. split; [exact Hdoy|]. split; [reflexivity|].
  split; [exact Hmp|].
  split; [subst mp; Z.div_mod_to_equations; lia|].
  destruct (mp <? 10) eqn:E.
  - apply Z.ltb_lt in E.
    replace (mp + 3 <=? 2) with false by (symmetry; apply Z.leb_gt; lia).
    reflexivity.
  - apply Z.ltb_ge in E.
    replace (mp - 9 <=? 2) with true by (symmetry; apply Z.leb_le; lia).
    reflexivity.
Qed.

Lemma civil_month_day (n y m d : Z) :
  civil n = (y, m, d) -> 1 <= m <= 12 /\ 1 <= d <= 31.
Proof.
  intros H.
  destruct (civil_spec n) as (era & yoe & doy & mp & _ & _ & _ & _ & Hmp & Hd & Hc).
  rewrite Hc in H. apply pair_equal_spec in H. destruct H as [H <-].
  apply pair_equal_spec in H. destruct H as [<- <-]. split; [|exact Hd].
  destruct (mp <? 10) eqn:E;
    [apply Z.ltb_lt in E | apply Z.ltb_ge in E]; lia.
Qed.

(** [daysFromCivil] over the year counted from March and the month counted
    from March. *)
Lemma daysFromCivil_spec (era yoe mp d : Z) :
  0 <= yoe <= 399 -> 0 <= mp <= 11 ->
  daysFromCivil (yoe + era * 400 + (if mp <? 10 then 0 else 1))
                (if mp <? 10 then mp + 3 else mp - 9) d
  = era * 146097 + (yoe * 365 + yoe / 4 - yoe / 100 + ((153 * mp + 2) / 5 + d - 1))
    - 719468.
Proof.
  intros Hy Hmp. unfold daysFromCivil.
  destruct (mp <? 10) eqn:E;
    [apply Z.ltb_lt in E | apply Z.ltb_ge in E].
  - replace (mp + 3 <=? 2) with false by (symmetry; apply Z.leb_gt; lia).
    replace (yoe + era * 400 + 0) with (yoe + era * 400) by lia.
    assert (He : (yoe + era * 400) / 400 = era)
      by (Z.div_mod_to_equations; lia).
    rewrite He.
    replace (yoe + era * 400 - era * 400) with yoe by lia.
    replace (mp + 3 - 3) with mp by lia. reflexivity.
  - replace (mp - 9 <=? 2) with true by (symmetry; apply Z.leb_le; lia).
    replace (yoe + era * 400 + 1 - 1) with (yoe + era * 400) by lia.
    assert (He : (yoe + era * 400) / 400 = era)
      by (Z.div_mod_to_equations; lia).
    rewrite He.
    replace (yoe + era * 400 - era * 400) with yoe by lia.
    replace (mp - 9 + 9) with mp by lia. reflexivity.
Qed.

(** The day number of a calendar date is the day it was read from. *)
Lemma daysFromCivil_civil (n y m d : Z) :
  civil n = (y, m, d) -> daysFromCivil y m d = n.
Proof.
  intros H.
  destruct (civil_spec n) as (era & yoe & doy & mp & Hn & Hy & _ & _ & Hmp & _ & Hc).
  rewrite Hc in H. apply pair_equal_spec in H. destruct H as [H <-].
  apply pair_equal_spec in H. destruct H as [<- <-].
  rewrite daysFromCivil_spec by assumption. lia.
Qed.

(** [civil] on a day given by era, year of the era and day of the year,
    when the day lies within the year. *)
Lemma civil_of_parts (era yoe doy : Z) :
  0 <= yoe <= 399 -> 0 <= doy <= 364 ->
  civil (era * 146097 + (yoe * 365 + yoe / 4 - yoe / 100 + doy) - 719468)
  = (let mp := (5 * doy + 2) / 153 in
     (yoe + era * 400 + (if mp <? 10 then 0 else 1),
      (if mp <? 10 then mp + 3 else mp - 9),
      doy - (153 * mp + 2) / 5 + 1)).
Proof.
  intros Hy Hd.
  set (doe := yoe * 365 + yoe / 4 - yoe / 100 + doy).
  assert (Hdoe : 0 <= doe < 146097)
    by (subst doe; Z.div_mod_to_equations; lia).
  assert (Hyoe : (doe - doe / 1460 + doe / 36524 - doe / 146096) / 365 = yoe)
    by (subst doe; Z.div_mod_to_equations; lia).
  unfold civil.
  replace (era * 146097 + doe - 719468 + 719468) with (doe + era * 146097) by lia.
  rewrite Z.div_add by discriminate.
  rewrite (Z.div_small doe) by lia.
  replace (doe + era * 146097 - (0 + era) * 146097) with doe by lia.
  rewrite Hyoe.
  replace (doe - (365 * yoe + yoe / 4 - yoe / 100)) with doy by (subst doe; lia).
  cbv zeta.
  assert (Hmp : 0 <= (5 * doy + 2) / 153 <= 11) by (Z.div_mod_to_equations; lia).
  destruct ((5 * doy + 2) / 153 <? 10) eqn:E;
    [apply Z.ltb_lt in E | apply Z.ltb_ge in E].
  - replace ((5 * doy + 2) / 153 + 3 <=? 2) with false
      by (symmetry; apply Z.leb_gt; lia).
    now rewrite Z.add_0_l.
  - replace ((5 * doy + 2) / 153 - 9 <=? 2) with true
      by (symmetry; apply Z.leb_le; lia).
    now rewrite Z.add_0_l.
Qed.

(** The first of a month, read back. *)
Lemma civil_first_of_month (n y m d : Z) :
  civil n = (y, m, d) -> civil (daysFromCivil y m 1) = (y, m, 1).
Proof.
  intros H.
  destruct (civil_spec n) as (era & yoe & doy & mp & _ & Hy & _ & _ & Hmp & _ & Hc).
  rewrite Hc in H. apply pair_equal_spec in H. destruct H as [H _].
  apply pair_equal_spec in H. destruct H as [<- <-].
  rewrite daysFromCivil_spec by assumption.
  replace ((153 * mp + 2) / 5 + 1 - 1) with ((153 * mp + 2) / 5) by lia.
  rewrite civil_of_parts by (try assumption; Z.div_mod_to_equations; lia).
  cbv zeta.
  assert (E : (5 * ((153 * mp + 2) / 5) + 2) / 153 = mp)
    by (Z.div_mod_to_equations; lia).
  rewrite E. f_equal. lia.
Qed.

(** A date of the years 0..99 read as the same day of 1900..1999 lies in
    the years 1600..2000. *)
Lemma year_of_two_digit_year (n y m d : Z) :
  civil n = (y, m, d) -> 0 <= y <= 99 ->
  100 <= yearOf (daysFromCivil (1900 + y) m d) <= 9999.
Proof.
  intros H Hy.
  destruct (civil_month_day _ _ _ _ H) as [Hm Hd].
  assert (Hr : exists doe, 0 <= doe < 146097 /\
                daysFromCivil (1900 + y) m d + 719468 = 4 * 146097 + doe).
  { unfold daysFromCivil.
    destruct (m <=? 2) eqn:E; [apply Z.leb_le in E | apply Z.leb_gt in E].
    - assert (He : (1900 + y - 1) / 400 = 4) by (Z.div_mod_to_equations; lia).
      rewrite He.
      exists ((1900 + y - 1 - 4 * 400) * 365 + (1900 + y - 1 - 4 * 400) / 4
              - (1900 + y - 1 - 4 * 400) / 100
              + ((153 * (m + 9) + 2) / 5 + d - 1)).
      split; [Z.div_mod_to_equations; lia | ring].
    - assert (He : (1900 + y) / 400 = 4) by (Z.div_mod_to_equations; lia).
      rewrite He.
      exists ((1900 + y - 4 * 400) * 365 + (1900 + y - 4 * 400) / 4
              - (1900 + y - 4 * 400) / 100
              + ((153 * (m - 3) + 2) / 5 + d - 1)).
      split; [Z.div_mod_to_equations; lia | ring]. }
  destruct Hr as (doe & Hdoe & Hr).
  destruct (civil_spec (daysFromCivil (1900 + y) m d))
    as (era & yoe & doy & mp & Hn & Hyoe & Hdoy & _ & Hmp & _ & Hc).
  unfold yearOf. rewrite Hc. simpl fst.
  assert (era = 4).
  { rewrite Hr in Hn. revert Hn Hdoe Hyoe Hdoy. clear.
    intros. Z.div_mod_to_equations. lia. }
  subst era. destruct (mp <? 10); lia.
Qed.

Lemma utcStartOfDay_truncates (t : Date) :
  100 <= yearOf (t / MS_DAY) <= 9999 -> utcStartOfDay t = t / MS_DAY * MS_DAY.
Proof.
  unfold utcStartOfDay, yearOf.
  destruct (civil (t / MS_DAY)) as [[y m] d] eqn:E. simpl fst. intros Hy.
  replace (0 <=? y) with true by (symmetry; apply Z.leb_le; lia).
  replace (y <=? 9999) with true by (symmetry; apply Z.leb_le; lia).
  replace (y <=? 99) with false by (symmetry; apply Z.leb_gt; lia).
  simpl. now rewrite (daysFromCivil_civil _ _ _ _ E).
Qed.

Lemma utcStartOfDay_truncates_day (n : Z) :
  100 <= yearOf n <= 9999 -> utcStartOfDay (n * MS_DAY) = n * MS_DAY.
Proof.
  intros H. rewrite utcStartOfDay_truncates; rewrite Z.div_mul by discriminate;
    [reflexivity | exact H].
Qed.

Lemma utcStartOfDay_whole_day (t : Date) :
  exists n, utcStartOfDay t = n * MS_DAY /\ utcStartOfDay (n * MS_DAY) = n * MS_DAY.
Proof.
  unfold utcStartOfDay at 1.
  destruct (civil (t / MS_DAY)) as [[y m] d] eqn:E.
  destruct ((0 <=? y) && (y <=? 9999)) eqn:Hr.
  - apply andb_prop in Hr. destruct Hr as [H0 H1].
    apply Z.leb_le in H0. apply Z.leb_le in H1.
    eexists. split; [reflexivity|].
    destruct (y <=? 99) eqn:H2; [apply Z.leb_le in H2 | apply Z.leb_gt in H2].
    + apply utcStartOfDay_truncates_day.
      now apply (year_of_two_digit_year (t / MS_DAY)).
    + apply utcStartOfDay_truncates_day.
      rewrite (daysFromCivil_civil _ _ _ _ E). unfold yearOf. rewrite E. simpl. lia.
  - eexists. split; [reflexivity|].
    unfold utcStartOfDay. rewrite Z.div_mul by discriminate.
    rewrite (civil_first_of_month _ _ _ _ E). now rewrite Hr.
Qed.

Lemma utcStartOfDay_aligned (t : Date) : utcStartOfDay t mod MS_DAY = 0.
Proof.
  destruct (utcStartOfDay_whole_day t) as (n & -> & _).
  apply Z.mod_mul. discriminate.
Qed.

Lemma utcStartOfDay_idem (t : Date) :
  utcStartOfDay (utcStartOfDay t) = utcStartOfDay t.
Proof. destruct (utcStartOfDay_whole_day t) as (n & -> & H). exact H. Qed.

Arguments utcStartOfDay : simpl never.

(** ** Clock arithmetic *)

Ltac clock_arith :=
  unfold MS_DAY, MS_HOUR, MS_MINUTE in *; Z.div_mod_to_equations; lia.

Lemma getUTCHours_range (t : Date) : 0 <= getUTCHours t < 24.
Proof. unfold getUTCHours. clock_arith. Qed.

Lemma getUTCMinutes_range (t : Date) : 0 <= getUTCMinutes t < 60.
Proof. unfold getUTCMinutes. clock_arith. Qed.

Lemma minutesOfDay_range (t : Date) : 0 <= minutesOfDay t < 1440.
Proof.
  unfold minutesOfDay.
  pose proof (getUTCHours_range t). pose proof (getUTCMinutes_range t). lia.
Qed.


(** Adding a time of day to a midnight stays on the same calendar day and
    shows as that time of day. *)
Lemma midnight_plus_minutes (w n : Z) :
  w mod MS_DAY = 0 -> 0 <= n < 1440 ->
  (w + n * MS_MINUTE) / MS_DAY = w / MS_DAY /\
  ((w + n * MS_MINUTE) mod MS_DAY) / MS_HOUR = n / 60 /\
  ((w + n * MS_MINUTE) mod MS_HOUR) / MS_MINUTE = n mod 60.
Proof. intros Hw Hn. repeat split; clock_arith. Qed.

Lemma minutesOfDay_split (t : Date) :
  minutesOfDay t / 60 = getUTCHours t /\ minutesOfDay t mod 60 = getUTCMinutes t.
Proof.
  unfold minutesOfDay.
  pose proof (getUTCHours_range t). pose proof (getUTCMinutes_range t).
  split; Z.div_mod_to_equations; lia.
Qed.

(** The wall clock after [.hour(h).minute(m)]. *)
Lemma wall_set_hour_minute (h m : Z) (d : Dayjs) :
  0 <= h < 24 -> 0 <= m < 60 ->
  wall (set_minute m (set_hour h d)) =
  wall d / MS_DAY * MS_DAY + h * MS_HOUR + m * MS_MINUTE + wall d mod MS_MINUTE.
Proof. intros Hh Hm. unfold set_minute, set_hour; simpl. clock_arith. Qed.

(** ** The day-keyed object *)

Lemma get_set_same (k : string) (v : list Interval) (obj : DayMap) :
  get k (set k v obj) = Some v.
Proof.
  induction obj as [|[k' v'] rest IH]; simpl.
  - now rewrite String.eqb_refl.
  - destruct (String.eqb k k') eqn:E; simpl; rewrite E; auto.
Qed.

Lemma get_set_other (k k' : string) (v : list Interval) (obj : DayMap) :
  k <> k' -> get k' (set k v obj) = get k' obj.
Proof.
  intros Hne. induction obj as [|[k0 v0] rest IH]; simpl.
  - destruct (String.eqb k' k) eqn:E; auto.
    apply String.eqb_eq in E. congruence.
  - destruct (String.eqb k k0) eqn:E; simpl.
    + apply String.eqb_eq in E. subst k0.
      destruct (String.eqb k' k) eqn:E'; auto.
      apply String.eqb_eq in E'. congruence.
    + now rewrite IH.
Qed.

Lemma get_None_keys (k : string) (obj : DayMap) :
  get k obj = None <-> ~ In k (keys obj).
Proof.
  induction obj as [|[k' v'] rest IH]; simpl.
  - tauto.
  - destruct (String.eqb k k') eqn:E.
    + apply String.eqb_eq in E. subst. split; [discriminate | tauto].
    + apply String.eqb_neq in E. rewrite IH. split; intros H.
      * intros [H1 | H1]; [congruence | tauto].
      * tauto.
Qed.

Lemma get_Some_In (k : string) (v : list Interval) (obj : DayMap) :
  get k obj = Some v -> In (k, v) obj.
Proof.
  induction obj as [|[k' v'] rest IH]; simpl; [discriminate|].
  destruct (String.eqb k k') eqn:E.
  - apply String.eqb_eq in E. intros [= ->]. subst. now left.
  - auto.
Qed.

Lemma keys_set (k : string) (v : list Interval) (obj : DayMap) :
  keys (set k v obj) =
  match get k obj with Some _ => keys obj | None => keys obj ++ [k] end.
Proof.
  induction obj as [|[k' v'] rest IH]; simpl; auto.
  destruct (String.eqb k k') eqn:E; simpl; auto.
  rewrite IH. now destruct (get k rest).
Qed.

(** Keys stay distinct. *)
Lemma NoDup_keys_set (k : string) (v : list Interval) (obj : DayMap) :
  NoDup (keys obj) -> NoDup (keys (set k v obj)).
Proof.
  intros H. rewrite keys_set. destruct (get k obj) eqn:E; auto.
  apply get_None_keys in E.
  apply NoDup_rev in H. rewrite <- (rev_involutive (keys obj ++ [k])).
  apply NoDup_rev. rewrite rev_app_distr. simpl. constructor; auto.
  now rewrite <- in_rev.
Qed.

Lemma get_ensure (k k' : string) (obj : DayMap) :
  get k' (ensure k obj) =
  if String.eqb k k' then Some (match get k obj with Some v => v | None => [] end)
  else get k' obj.
Proof.
  unfold ensure. destruct (String.eqb k k') eqn:E.
  - apply String.eqb_eq in E. subst. apply get_set_same.
  - apply String.eqb_neq in E. now apply get_set_other.
Qed.

Lemma get_append (k k' : string) (x : Interval) (obj : DayMap) :
  get k' (append k x obj) =
  if String.eqb k k'
  then Some (match get k obj with Some v => v | None => [] end ++ [x])
  else get k' obj.
Proof.
  unfold append, push. rewrite (get_ensure k k), String.eqb_refl.
  destruct (String.eqb k k') eqn:E.
  - apply String.eqb_eq in E. subst. apply get_set_same.
  - apply String.eqb_neq in E.
    rewrite get_set_other by auto. rewrite get_ensure.
    apply String.eqb_neq in E. now rewrite E.
Qed.

Lemma NoDup_keys_append (k : string) (x : Interval) (obj : DayMap) :
  NoDup (keys obj) -> NoDup (keys (append k x obj)).
Proof.
  intros H. unfold append, push. rewrite (get_ensure k k), String.eqb_refl.
  apply NoDup_keys_set. unfold ensure. now apply NoDup_keys_set.
Qed.

Lemma allEntries_set P (k : string) (v : list Interval) (obj : DayMap) :
  allEntries P obj -> Forall (P k) v -> allEntries P (set k v obj).
Proof.
  unfold allEntries. intros H Hv.
  induction obj as [|[k' v'] rest IH]; simpl.
  - constructor; auto.
  - inversion H; subst. destruct (String.eqb k k') eqn:E.
    + apply String.eqb_eq in E. subst. constructor; auto.
    + constructor; auto.
Qed.

Lemma allEntries_get P (k : string) (v : list Interval) (obj : DayMap) :
  allEntries P obj -> get k obj = Some v -> Forall (P k) v.
Proof.
  intros H Hg. apply get_Some_In in Hg.
  unfold allEntries in H. rewrite Forall_forall in H. apply (H _ Hg).
Qed.

Lemma allEntries_append P (k : string) (x : Interval) (obj : DayMap) :
  allEntries P obj -> P k x -> allEntries P (append k x obj).
Proof.
  intros H Hx. unfold append, push.
  assert (He : allEntries P (ensure k obj)).
  { unfold ensure. apply allEntries_set; auto.
    destruct (get k obj) eqn:E; auto. eapply allEntries_get; eauto. }
  destruct (get k (ensure k obj)) eqn:E; auto.
  apply allEntries_set; auto.
  apply Forall_app. split; [eapply allEntries_get; eauto | auto].
Qed.

Lemma allEntries_values P (obj : DayMap) (x : Interval) :
  allEntries P obj -> In x (values_flat obj) -> exists k, P k x.
Proof.
  unfold allEntries, values_flat. intros H Hin.
  apply in_concat in Hin. destruct Hin as [v [Hv Hx]].
  apply in_map_iff in Hv. destruct Hv as [[k v'] [Heq Hkv]]. simpl in Heq. subst.
  rewrite Forall_forall in H. specialize (H _ Hkv). simpl in H.
  rewrite Forall_forall in H. eauto.
Qed.

Lemma onDate_all (k : string) (v : list Interval) :
  Forall (fun iv => format_ymd (start iv) = k) v -> onDate k v = v.
Proof.
  unfold onDate. induction 1 as [|x l Hx Hl IH]; cbn [filter]; auto.
  rewrite Hx, String.eqb_refl. now f_equal.
Qed.

Lemma onDate_none (k k' : string) (v : list Interval) :
  k' <> k -> Forall (fun iv => format_ymd (start iv) = k') v -> onDate k v = [].
Proof.
  intros Hne. unfold onDate. induction 1 as [|x l Hx Hl IH]; cbn [filter]; auto.
  rewrite Hx. apply String.eqb_neq in Hne. now rewrite Hne.
Qed.

Lemma values_flat_cons (k : string) (v : list Interval) (obj : DayMap) :
  values_flat ((k, v) :: obj) = v ++ values_flat obj.
Proof. reflexivity. Qed.

Lemma onDate_app (k : string) (a b : list Interval) :
  onDate k (a ++ b) = onDate k a ++ onDate k b.
Proof. apply filter_app. Qed.

Lemma onDate_values_absent (k : string) (obj : DayMap) :
  keyed obj -> ~ In k (keys obj) -> onDate k (values_flat obj) = [].
Proof.
  unfold keyed, allEntries.
  induction 1 as [|[k' v'] rest Hx Hl IH]; intros Hnin; auto.
  cbn [keys map fst In] in Hnin. cbn [fst snd] in Hx.
  rewrite values_flat_cons, onDate_app.
  rewrite (onDate_none k k' v') by (auto; intros ->; tauto).
  apply IH. unfold keys. tauto.
Qed.

(** With distinct keys, the flattened object restricted to a date is that
    date's list. *)
Lemma onDate_values (k : string) (obj : DayMap) :
  keyed obj -> NoDup (keys obj) ->
  onDate k (values_flat obj) =
  match get k obj with Some v => v | None => [] end.
Proof.
  intros Hk. unfold keyed, allEntries in Hk.
  induction Hk as [|[k' v'] rest Hx Hl IH]; intros Hnd; auto.
  cbn [keys map fst] in Hnd. cbn [fst snd] in Hx.
  inversion Hnd as [|? ? Hnin Hnd']; subst.
  rewrite values_flat_cons, onDate_app. cbn [get].
  destruct (String.eqb k k') eqn:E.
  - apply String.eqb_eq in E. subst k'.
    rewrite (onDate_all k v') by exact Hx.
    rewrite onDate_values_absent; auto using app_nil_r.
  - apply String.eqb_neq in E.
    rewrite (onDate_none k k' v') by auto.
    apply IH; auto.
Qed.

(** *** Spread *)

Lemma fold_set_get (l : DayMap) (acc : DayMap) (k : string) :
  NoDup (keys l) ->
  get k (fold_left (fun obj kv => set (fst kv) (snd kv) obj) l acc) =
  match get k l with Some v => Some v | None => get k acc end.
Proof.
  revert acc. induction l as [|[k' v'] rest IH]; simpl; intros acc Hnd; auto.
  inversion Hnd as [|? ? Hnin Hnd']; subst.
  rewrite IH by auto.
  destruct (String.eqb k k') eqn:E.
  - apply String.eqb_eq in E. subst k'.
    apply get_None_keys in Hnin. rewrite Hnin. apply get_set_same.
  - apply String.eqb_neq in E.
    destruct (get k rest); auto. apply get_set_other. congruence.
Qed.

Lemma fold_set_NoDup (l acc : DayMap) :
  NoDup (keys acc) ->
  NoDup (keys (fold_left (fun obj kv => set (fst kv) (snd kv) obj) l acc)).
Proof.
  revert acc. induction l as [|[k' v'] rest IH]; simpl; intros acc H; auto.
  apply IH. now apply NoDup_keys_set.
Qed.

Lemma fold_set_allEntries P (l acc : DayMap) :
  allEntries P l -> allEntries P acc ->
  allEntries P (fold_left (fun obj kv => set (fst kv) (snd kv) obj) l acc).
Proof.
  revert acc. induction l as [|[k' v'] rest IH]; simpl; intros acc Hl Ha; auto.
  inversion Hl; subst. apply IH; auto. apply allEntries_set; auto.
Qed.

(** A key of the right operand wins; other keys keep the left value. *)
Lemma get_spread (a b : DayMap) (k : string) :
  NoDup (keys a) -> NoDup (keys b) ->
  get k (spread a b) =
  match get k b with Some v => Some v | None => get k a end.
Proof.
  intros Ha Hb. unfold spread. rewrite fold_left_app.
  rewrite fold_set_get by auto. destruct (get k b); auto.
  rewrite fold_set_get by auto. now destruct (get k a).
Qed.

Lemma NoDup_keys_spread (a b : DayMap) : NoDup (keys (spread a b)).
Proof. unfold spread. apply fold_set_NoDup. constructor. Qed.

Lemma allEntries_spread P (a b : DayMap) :
  allEntries P a -> allEntries P b -> allEntries P (spread a b).
Proof.
  intros Ha Hb. unfold spread. apply fold_set_allEntries.
  - unfold allEntries in *. apply Forall_app. auto.
  - constructor.
Qed.

(** Spreading onto an empty object copies the operand. *)
Lemma fold_set_fresh (l acc : DayMap) :
  NoDup (keys (acc ++ l)) ->
  fold_left (fun obj kv => set (fst kv) (snd kv) obj) l acc = acc ++ l.
Proof.
  revert acc. induction l as [|[k' v'] rest IH]; simpl; intros acc H.
  - now rewrite app_nil_r.
  - assert (Hs : set k' v' acc = acc ++ [(k', v')]).
    { assert (Hk : ~ In k' (keys acc)).
      { unfold keys in H. rewrite map_app in H. simpl in H.
        apply NoDup_remove_2 in H. rewrite in_app_iff in H. tauto. }
      clear -Hk. induction acc as [|[k0 v0] acc IHa]; simpl; auto.
      simpl in Hk. destruct (String.eqb k' k0) eqn:E.
      - apply String.eqb_eq in E. subst. tauto.
      - f_equal. apply IHa. tauto. }
    rewrite Hs. rewrite IH; rewrite <- app_assoc; simpl; auto.
Qed.

Lemma spread_empty_l (b : DayMap) : NoDup (keys b) -> spread [] b = b.
Proof. intros H. unfold spread. simpl. now apply (fold_set_fresh b []). Qed.

(** ** The day walk *)

Lemma add_day_utc (w : Z) : add_day (utc w) = utc (w + MS_DAY).
Proof. reflexivity. Qed.

Lemma isBefore_utc (w t : Z) : isBefore (utc w) (utc t) = (w <? t).
Proof. unfold isBefore, valueOf, utc; simpl. f_equal; lia. Qed.

Lemma valueOf_utc (t : Z) : valueOf (utc t) = t.
Proof. unfold valueOf, utc; simpl. lia. Qed.

(** The loop stops by its condition: once the fuel covers the range, more
    fuel visits no further day. *)
Lemma loopDays_enough (fuel : nat) : forall (w t : Z) (n : nat),
  (t - w + (MS_DAY - 1)) / MS_DAY <= Z.of_nat fuel -> (fuel <= n)%nat ->
  loopDays n (utc t) (utc w) = loopDays fuel (utc t) (utc w).
Proof.
  induction fuel as [|fuel IH]; intros w t n Hf Hn.
  - assert (Hle : t <= w) by (revert Hf; clock_arith).
    destruct n; simpl; auto.
    rewrite isBefore_utc. destruct (w <? t) eqn:E; auto.
    apply Z.ltb_lt in E. lia.
  - destruct n as [|n]; [lia|]. simpl.
    rewrite isBefore_utc. destruct (w <? t) eqn:E; auto.
    rewrite !add_day_utc. f_equal. apply IH; [|lia].
    revert Hf. rewrite Nat2Z.inj_succ. clock_arith.
Qed.

Lemma walkFuel_covers (dateFrom dateTo : Date) :
  (dateTo - utcStartOfDay dateFrom + (MS_DAY - 1)) / MS_DAY
  <= Z.of_nat (walkFuel dateFrom dateTo).
Proof. unfold walkFuel. lia. Qed.

Lemma walkedDays_enough (dateFrom dateTo : Date) (n : nat) :
  (walkFuel dateFrom dateTo <= n)%nat ->
  loopDays n (utc dateTo) (utc (utcStartOfDay dateFrom)) =
  walkedDays dateFrom dateTo.
Proof. intros H. apply loopDays_enough; auto using walkFuel_covers. Qed.

(** The visited days are the successive midnights before [dateTo]. *)
Lemma loopDays_In (fuel : nat) : forall (w t : Z) (d : Dayjs),
  In d (loopDays fuel (utc t) (utc w)) <->
  exists i : Z, 0 <= i < Z.of_nat fuel /\ d = utc (w + i * MS_DAY) /\
                w + i * MS_DAY < t.
Proof.
  induction fuel as [|fuel IH]; intros w t d; simpl.
  - split; [intros [] | intros [i [Hi _]]; lia].
  - rewrite isBefore_utc. destruct (w <? t) eqn:E.
    + apply Z.ltb_lt in E. simpl. rewrite add_day_utc, IH. split.
      * intros [<- | [i [Hi [-> Hlt]]]].
        -- exists 0. repeat split; try lia. f_equal; lia.
        -- exists (i + 1). repeat split; try lia. f_equal; lia.
      * intros [i [Hi [-> Hlt]]].
        destruct (Z.eq_dec i 0) as [-> | Hne].
        -- left. f_equal; lia.
        -- right. exists (i - 1). repeat split; try lia. f_equal; lia.
    + apply Z.ltb_ge in E. split; [intros []|].
      intros [i [Hi [-> Hlt]]]. unfold MS_DAY in *. lia.
Qed.

Lemma walkedDays_In (dateFrom dateTo : Date) (d : Dayjs) :
  In d (walkedDays dateFrom dateTo) <->
  exists i : Z, 0 <= i /\ d = utc (utcStartOfDay dateFrom + i * MS_DAY) /\
                utcStartOfDay dateFrom + i * MS_DAY < dateTo.
Proof.
  unfold walkedDays. rewrite loopDays_In. split.
  - intros [i [Hi H]]. exists i. split; [lia | exact H].
  - intros [i [Hi [Hd Hlt]]]. exists i. split; [|auto].
    split; [lia|]. unfold walkFuel.
    rewrite Z2Nat.id by (revert Hlt Hi; clock_arith).
    revert Hlt Hi. clock_arith.
Qed.

Lemma walkedDays_midnight (dateFrom dateTo : Date) (d : Dayjs) :
  In d (walkedDays dateFrom dateTo) ->
  wall d mod MS_DAY = 0 /\ offset d = 0.
Proof.
  intros H. apply walkedDays_In in H. destruct H as [i [Hi [-> Hlt]]].
  simpl. split; auto. rewrite Z.mod_add by discriminate.
  apply utcStartOfDay_aligned.
Qed.

Lemma walkedDays_empty (dateFrom dateTo : Date) :
  dateTo <= utcStartOfDay dateFrom -> walkedDays dateFrom dateTo = [].
Proof.
  intros H. unfold walkedDays.
  destruct (walkFuel dateFrom dateTo); simpl; auto.
  rewrite isBefore_utc. destruct (_ <? _) eqn:E; auto.
  apply Z.ltb_lt in E. lia.
Qed.

(** ** Invariants of the two expansions *)

Section Expansion.

Variable zoneOffset : string -> Z -> Z.
Variable zoneRemainder : string -> Z -> Z.
Variable timeZone : string.

(** The loop is its body folded over the visited days. *)
Lemma dayLoop_fold (fuel : nat) (block : Rule) : forall dateTo date dates,
  dayLoop zoneOffset zoneRemainder fuel timeZone block dateTo date dates =
  fold_left (fun acc d => walkStep zoneOffset zoneRemainder timeZone block d acc)
            (loopDays fuel dateTo date) dates.
Proof.
  induction fuel as [|fuel IH]; intros dateTo date dates; simpl; auto.
  destruct (isBefore date dateTo); simpl; auto.
Qed.

(** More fuel than [walkFuel] gives the same object: the loop has ended. *)
Lemma dayLoop_enough (n : nat) (block : Rule) (dateFrom dateTo : Date) dates :
  (walkFuel dateFrom dateTo <= n)%nat ->
  dayLoop zoneOffset zoneRemainder n timeZone block (utc dateTo)
          (utc (utcStartOfDay dateFrom)) dates =
  dayLoop zoneOffset zoneRemainder (walkFuel dateFrom dateTo) timeZone block (utc dateTo)
          (utc (utcStartOfDay dateFrom)) dates.
Proof.
  intros H. rewrite !dayLoop_fold. rewrite walkedDays_enough by auto.
  reflexivity.
Qed.

Lemma workingDates_fold (availability : list Rule) (dateFrom dateTo : Date) :
  workingDates zoneOffset zoneRemainder timeZone availability dateFrom dateTo =
  fold_left (walkBlock zoneOffset zoneRemainder timeZone dateFrom dateTo) (filter hasDays availability) [].
Proof.
  unfold workingDates. generalize (@nil (string * list Interval)).
  induction (filter hasDays availability) as [|b l IH]; intros acc; simpl; auto.
  rewrite dayLoop_fold. apply IH.
Qed.

Lemma walkStep_append (block : Rule) (d : Dayjs) (dates : DayMap) :
  walkStep zoneOffset zoneRemainder timeZone block d dates =
  if includes (days block)
              (day (start (blockInterval zoneOffset zoneRemainder timeZone block d)))
  then append (format_ymd (start (blockInterval zoneOffset zoneRemainder timeZone block d)))
              (blockInterval zoneOffset zoneRemainder timeZone block d) dates
  else dates.
Proof. reflexivity. Qed.

Lemma overrideStep_append (dates : DayMap) (override : Rule) :
  overrideStep zoneOffset zoneRemainder timeZone dates override =
  match date override with
  | Some d =>
      append (format_ymd (start (overrideInterval zoneOffset zoneRemainder timeZone override d)))
             (overrideInterval zoneOffset zoneRemainder timeZone override d) dates
  | None => dates
  end.
Proof. reflexivity. Qed.

(** *** Invariants carried through both folds *)

Lemma walkStep_inv (I : DayMap -> Prop) (block : Rule) (d : Dayjs) dates :
  (forall k x obj, I obj -> I (append k x obj)) ->
  I dates -> I (walkStep zoneOffset zoneRemainder timeZone block d dates).
Proof.
  intros Happ H. rewrite walkStep_append. destruct (includes _ _); auto.
Qed.

Lemma walkBlock_inv (I : DayMap -> Prop) dateFrom dateTo dates block :
  (forall k x obj, I obj -> I (append k x obj)) ->
  I dates -> I (walkBlock zoneOffset zoneRemainder timeZone dateFrom dateTo dates block).
Proof.
  intros Happ. unfold walkBlock. revert dates.
  induction (walkedDays dateFrom dateTo) as [|d l IH]; simpl; auto.
  intros dates H. apply IH. now apply walkStep_inv.
Qed.

Lemma workingDates_inv (I : DayMap -> Prop) availability dateFrom dateTo :
  (forall k x obj, I obj -> I (append k x obj)) -> I [] ->
  I (workingDates zoneOffset zoneRemainder timeZone availability dateFrom dateTo).
Proof.
  intros Happ. rewrite workingDates_fold.
  generalize (@nil (string * list Interval)).
  induction (filter hasDays availability) as [|b l IH]; simpl; auto.
  intros acc H. apply IH. now apply walkBlock_inv.
Qed.

Lemma dateOverrides_inv (I : DayMap -> Prop) availability :
  (forall k x obj, I obj -> I (append k x obj)) -> I [] ->
  I (dateOverrides zoneOffset zoneRemainder timeZone availability).
Proof.
  intros Happ. unfold dateOverrides.
  generalize (@nil (string * list Interval)).
  induction (filter hasDate availability) as [|b l IH]; simpl; auto.
  intros acc H. apply IH. rewrite overrideStep_append.
  destruct (date b); auto.
Qed.

Lemma workingDates_NoDup availability dateFrom dateTo :
  NoDup (keys (workingDates zoneOffset zoneRemainder timeZone availability dateFrom dateTo)).
Proof.
  apply (workingDates_inv (fun obj => NoDup (keys obj))).
  - intros. now apply NoDup_keys_append.
  - constructor.
Qed.

Lemma dateOverrides_NoDup availability :
  NoDup (keys (dateOverrides zoneOffset zoneRemainder timeZone availability)).
Proof.
  apply (dateOverrides_inv (fun obj => NoDup (keys obj))).
  - intros. now apply NoDup_keys_append.
  - constructor.
Qed.

(** Every interval of the recurring expansion comes from a rule with
    [days], a walked day and a passed weekday test. *)
Lemma workingDates_allEntries (P : string -> Interval -> Prop)
      availability dateFrom dateTo :
  (forall block d,
      In block availability -> hasDays block = true ->
      In d (walkedDays dateFrom dateTo) ->
      includes (days block)
               (day (start (blockInterval zoneOffset zoneRemainder timeZone block d))) = true ->
      P (format_ymd (start (blockInterval zoneOffset zoneRemainder timeZone block d)))
        (blockInterval zoneOffset zoneRemainder timeZone block d)) ->
  allEntries P (workingDates zoneOffset zoneRemainder timeZone availability dateFrom dateTo).
Proof.
  intros HP. rewrite workingDates_fold.
  assert (Hin : forall b, In b (filter hasDays availability) ->
                          In b availability /\ hasDays b = true)
    by (intros b Hb; now apply filter_In in Hb).
  assert (Hacc : allEntries P []) by constructor.
  revert Hin Hacc. generalize (@nil (string * list Interval)).
  induction (filter hasDays availability) as [|b l IH]; simpl; auto.
  intros acc Hin Hacc. apply IH; auto.
  destruct (Hin b (or_introl eq_refl)) as [Hb Hd].
  unfold walkBlock.
  assert (Hday : forall d, In d (walkedDays dateFrom dateTo) ->
                           In d (walkedDays dateFrom dateTo)) by auto.
  revert Hacc Hday. generalize acc.
  generalize (walkedDays dateFrom dateTo) at 1 3.
  induction l0 as [|d ds IHd]; simpl; auto.
  intros acc' Hacc Hday. apply IHd; auto.
  rewrite walkStep_append. destruct (includes _ _) eqn:E; auto.
  apply allEntries_append; auto.
Qed.

(** Every interval of the override expansion comes from a rule with a
    [date]. *)
Lemma dateOverrides_allEntries (P : string -> Interval -> Prop) availability :
  (forall override d,
      In override availability -> date override = Some d ->
      P (format_ymd (start (overrideInterval zoneOffset zoneRemainder timeZone override d)))
        (overrideInterval zoneOffset zoneRemainder timeZone override d)) ->
  allEntries P (dateOverrides zoneOffset zoneRemainder timeZone availability).
Proof.
  intros HP. unfold dateOverrides.
  assert (Hin : forall b, In b (filter hasDate availability) ->
                          In b availability)
    by (intros b Hb; now apply filter_In in Hb).
  assert (Hacc : allEntries P []) by constructor.
  revert Hin Hacc. generalize (@nil (string * list Interval)).
  induction (filter hasDate availability) as [|b l IH]; simpl; auto.
  intros acc Hin Hacc. apply IH; auto.
  rewrite overrideStep_append. destruct (date b) eqn:E; auto.
  apply allEntries_append; auto.
Qed.

Lemma workingDates_keyed availability dateFrom dateTo :
  keyed (workingDates zoneOffset zoneRemainder timeZone availability dateFrom dateTo).
Proof. apply workingDates_allEntries. auto. Qed.

Lemma dateOverrides_keyed availability :
  keyed (dateOverrides zoneOffset zoneRemainder timeZone availability).
Proof. apply dateOverrides_allEntries. auto. Qed.

Lemma mergeAvailability_keyed availability dateFrom dateTo :
  keyed (mergeAvailability zoneOffset zoneRemainder timeZone availability dateFrom dateTo).
Proof.
  apply allEntries_spread; [apply workingDates_keyed | apply dateOverrides_keyed].
Qed.

End Expansion.

(** ** Membership in the flattened object *)

Lemma In_values_set_keep (k : string) (v : list Interval) (obj : DayMap) y :
  (forall old, get k obj = Some old -> incl old v) ->
  In y (values_flat obj) -> In y (values_flat (set k v obj)).
Proof.
  induction obj as [|[k' v'] rest IH]; intros Hold Hin.
  - destruct Hin.
  - cbn [set get] in *. destruct (String.eqb k k') eqn:E.
    + rewrite values_flat_cons in *. apply in_app_iff in Hin.
      apply in_app_iff. destruct Hin as [Hin | Hin]; auto.
      left. now apply (Hold v').
    + rewrite values_flat_cons in *. apply in_app_iff in Hin.
      apply in_app_iff. destruct Hin as [Hin | Hin]; auto.
Qed.

Lemma In_values_set_new (k : string) (v : list Interval) (obj : DayMap) y :
  In y v -> In y (values_flat (set k v obj)).
Proof.
  intros Hy. induction obj as [|[k' v'] rest IH]; cbn [set].
  - rewrite values_flat_cons. apply in_app_iff. now left.
  - destruct (String.eqb k k'); rewrite values_flat_cons; apply in_app_iff; auto.
Qed.

Lemma In_values_append_keep (k : string) (x : Interval) (obj : DayMap) y :
  In y (values_flat obj) -> In y (values_flat (append k x obj)).
Proof.
  intros Hy. unfold append, push.
  rewrite (get_ensure k k), String.eqb_refl.
  apply In_values_set_keep.
  - intros old Hold. rewrite (get_ensure k k), String.eqb_refl in Hold.
    injection Hold as <-. apply incl_appl, incl_refl.
  - unfold ensure. apply In_values_set_keep; auto.
    intros old ->. apply incl_refl.
Qed.

Lemma In_values_append_new (k : string) (x : Interval) (obj : DayMap) :
  In x (values_flat (append k x obj)).
Proof.
  unfold append, push. rewrite (get_ensure k k), String.eqb_refl.
  apply In_values_set_new. apply in_app_iff. right. now left.
Qed.

(** A fold whose steps never lose a property, and one of whose steps
    establishes it. *)
Lemma fold_left_establish {A B : Type} (f : A -> B -> A) (G : A -> Prop)
      (l : list B) (b : B) (acc : A) :
  In b l ->
  (forall a, G (f a b)) ->
  (forall a c, G a -> G (f a c)) ->
  G (fold_left f l acc).
Proof.
  intros Hin Hb Hkeep. apply in_split in Hin. destruct Hin as [l1 [l2 ->]].
  rewrite fold_left_app. simpl.
  generalize (Hb (fold_left f l1 acc)). generalize (f (fold_left f l1 acc) b).
  induction l2 as [|c l2 IH]; simpl; auto.
Qed.

Lemma fold_left_keep {A B : Type} (f : A -> B -> A) (G : A -> Prop)
      (l : list B) (acc : A) :
  (forall a c, G a -> G (f a c)) -> G acc -> G (fold_left f l acc).
Proof. intros Hkeep. revert acc. induction l; simpl; auto. Qed.

Lemma fold_left_Forall2 {A B C : Type} (R : B -> C -> Prop)
      (f : A -> B -> A) (g : A -> C -> A) (l1 : list B) (l2 : list C) :
  (forall a b c, R b c -> f a b = g a c) ->
  Forall2 R l1 l2 -> forall acc, fold_left f l1 acc = fold_left g l2 acc.
Proof.
  intros Hfg. induction 1 as [|b c l1 l2 Hbc Hl IH]; intros acc; simpl; auto.
  rewrite (Hfg acc b c Hbc). apply IH.
Qed.

Lemma filter_Forall2 {B : Type} (R : B -> B -> Prop) (p : B -> bool)
      (l1 l2 : list B) :
  (forall b c, R b c -> p b = p c) ->
  Forall2 R l1 l2 -> Forall2 R (filter p l1) (filter p l2).
Proof.
  intros Hp. induction 1 as [|b c l1 l2 Hbc Hl IH]; simpl; auto.
  rewrite (Hp b c Hbc). destruct (p c); auto.
Qed.

Section Membership.

Variable zoneOffset : string -> Z -> Z.
Variable zoneRemainder : string -> Z -> Z.
Variable timeZone : string.

Lemma walkStep_keeps block d dates y :
  In y (values_flat dates) ->
  In y (values_flat (walkStep zoneOffset zoneRemainder timeZone block d dates)).
Proof.
  intros H. rewrite walkStep_append. destruct (includes _ _); auto.
  now apply In_values_append_keep.
Qed.

Lemma walkBlock_keeps dateFrom dateTo dates block y :
  In y (values_flat dates) ->
  In y (values_flat (walkBlock zoneOffset zoneRemainder timeZone dateFrom dateTo dates block)).
Proof.
  intros H. unfold walkBlock.
  apply (fold_left_keep _ (fun a => In y (values_flat a))); auto.
  intros a c. apply walkStep_keeps.
Qed.

(** A rule with [days], a walked day and a passed weekday test put their
    interval into the recurring expansion. *)
Lemma workingDates_contains availability dateFrom dateTo block d :
  In block availability -> hasDays block = true ->
  In d (walkedDays dateFrom dateTo) ->
  includes (days block)
           (day (start (blockInterval zoneOffset zoneRemainder timeZone block d))) = true ->
  In (blockInterval zoneOffset zoneRemainder timeZone block d)
     (values_flat (workingDates zoneOffset zoneRemainder timeZone availability dateFrom dateTo)).
Proof.
  intros Hb Hd Hday Hinc. rewrite workingDates_fold.
  apply (fold_left_establish _ (fun a => In _ (values_flat a)) _ block).
  - apply filter_In. auto.
  - intros a. unfold walkBlock.
    apply (fold_left_establish _ (fun a => In _ (values_flat a)) _ d); auto.
    + intros a'. rewrite walkStep_append, Hinc. apply In_values_append_new.
    + intros a' c. apply walkStep_keeps.
  - intros a c. apply walkBlock_keeps.
Qed.

(** A rule with a [date] puts its interval into the override expansion. *)
Lemma dateOverrides_contains availability override d :
  In override availability -> date override = Some d ->
  In (overrideInterval zoneOffset zoneRemainder timeZone override d)
     (values_flat (dateOverrides zoneOffset zoneRemainder timeZone availability)).
Proof.
  intros Hin Hd. unfold dateOverrides.
  apply (fold_left_establish _ (fun a => In _ (values_flat a)) _ override).
  - apply filter_In. split; auto. unfold hasDate. now rewrite Hd.
  - intros a. rewrite overrideStep_append, Hd. apply In_values_append_new.
  - intros a c. rewrite overrideStep_append. destruct (date c); auto.
    apply In_values_append_keep.
Qed.

(** A rule without [days], or with an empty [days], leaves the walk's
    object as it was. *)
Lemma walkBlock_no_days dateFrom dateTo dates block :
  days block = Some [] ->
  walkBlock zoneOffset zoneRemainder timeZone dateFrom dateTo dates block = dates.
Proof.
  intros H. unfold walkBlock.
  apply (fold_left_keep _ (fun a => a = dates)); auto.
  intros a c ->. rewrite walkStep_append, H. reflexivity.
Qed.

End Membership.

(** ** The store *)

Lemma length_upd (l : loc) (o : Obj) (h : Heap) :
  List.length (upd l o h) = List.length h.
Proof.
  revert l. induction h as [|x h IH]; intros [|l]; simpl; auto.
Qed.

Lemma nth_error_upd_same (l : loc) (o : Obj) (h : Heap) :
  (l < List.length h)%nat -> nth_error (upd l o h) l = Some o.
Proof.
  revert l. induction h as [|x h IH]; intros [|l]; simpl; try lia; auto.
  intros H. apply IH. lia.
Qed.

Lemma nth_error_upd_other (l l' : loc) (o : Obj) (h : Heap) :
  l <> l' -> nth_error (upd l o h) l' = nth_error h l'.
Proof.
  revert l l'. induction h as [|x h IH]; intros [|l] [|l']; simpl; auto;
    congruence.
Qed.

Lemma upd_same_value (l : loc) (o : Obj) (h : Heap) :
  nth_error h l = Some o -> upd l o h = h.
Proof.
  revert l. induction h as [|x h IH]; intros [|l]; simpl; auto.
  - now intros [= ->].
  - intros H. f_equal. auto.
Qed.

Lemma nth_error_lt (h : Heap) (l : loc) (o : Obj) :
  nth_error h l = Some o -> (l < List.length h)%nat.
Proof. intros H. apply nth_error_Some. congruence. Qed.

Lemma nth_error_alloc_old (h : Heap) (o : Obj) (l : loc) :
  (l < List.length h)%nat -> nth_error (h ++ [o]) l = nth_error h l.
Proof. intros H. now apply nth_error_app1. Qed.

Lemma nth_error_alloc_new (h : Heap) (o : Obj) :
  nth_error (h ++ [o]) (List.length h) = Some o.
Proof. rewrite nth_error_app2 by lia. now rewrite Nat.sub_diag. Qed.

Lemma stable_refl (n : nat) (h : Heap) : stable n h h.
Proof. split; auto. Qed.

Lemma stable_trans (n : nat) (h1 h2 h3 : Heap) :
  stable n h1 h2 -> stable n h2 h3 -> stable n h1 h3.
Proof.
  intros [L1 H1] [L2 H2]. split; [lia|].
  intros l Hl. rewrite H2, H1; auto.
Qed.

Lemma stable_weaken (n n' : nat) (h h' : Heap) :
  (n' <= n)%nat -> stable n h h' -> stable n' h h'.
Proof. intros Hn [L H]. split; auto. intros l Hl. apply H. lia. Qed.

Lemma stable_alloc (n : nat) (h : Heap) (o : Obj) :
  (n <= List.length h)%nat -> stable n h (h ++ [o]).
Proof.
  intros Hn. split.
  - rewrite length_app. simpl. lia.
  - intros l Hl. apply nth_error_alloc_old. lia.
Qed.

Lemma stable_upd (n : nat) (h : Heap) (l : loc) (o : Obj) :
  (n <= l)%nat -> stable n h (upd l o h).
Proof.
  intros Hn. split.
  - rewrite length_upd. lia.
  - intros l' Hl'. apply nth_error_upd_other. lia.
Qed.

Lemma stable_nth (n : nat) (h h' : Heap) (l : loc) (o : Obj) :
  stable n h h' -> (l < n)%nat -> nth_error h l = Some o ->
  nth_error h' l = Some o.
Proof. intros [_ H] Hl Ho. now rewrite H. Qed.

(** An object that was there at the start is read as it was. *)
Lemma frame_nth (h0 h : Heap) (l : loc) (o : Obj) :
  stable (List.length h0) h0 h -> nth_error h0 l = Some o ->
  nth_error h l = Some o.
Proof.
  intros Hs Ho. eapply stable_nth; eauto. eapply nth_error_lt; eauto.
Qed.

Lemma ruleAt_frame (h0 h : Heap) (l : loc) (r : Rule) :
  stable (List.length h0) h0 h -> ruleAt h0 l r -> ruleAt h l r.
Proof.
  intros Hs (ro & Hl & Hst & Het & Hd & Hds). exists ro.
  repeat split; try (eapply frame_nth; eauto).
  - destruct (o_date ro), (date r); auto. eapply frame_nth; eauto.
  - destruct (o_days ro), (days r); auto. eapply frame_nth; eauto.
Qed.

(** *** Running the primitives *)

Lemma bind_run {A B : Type} (c : M A) (k : A -> M B) (h h' : Heap) (a : A) :
  c h = Some (a, h') -> bind c k h = k a h'.
Proof. intros H. unfold bind. now rewrite H. Qed.

Lemma readDate_run (h : Heap) (l : loc) (t : Z) :
  nth_error h l = Some (ODate t) -> readDate l h = Some (t, h).
Proof. intros H. unfold readDate, bind, load. now rewrite H. Qed.

Lemma readNumbers_run (h : Heap) (l : loc) (ns : list Z) :
  nth_error h l = Some (ONumbers ns) -> readNumbers l h = Some (ns, h).
Proof. intros H. unfold readNumbers, bind, load. now rewrite H. Qed.

Lemma readRule_run (h : Heap) (l : loc) (ro : RuleObj) :
  nth_error h l = Some (ORule ro) -> readRule l h = Some (ro, h).
Proof. intros H. unfold readRule, bind, load. now rewrite H. Qed.

Lemma readRules_run (h : Heap) (l : loc) (ls : list loc) :
  nth_error h l = Some (ORules ls) -> readRules l h = Some (ls, h).
Proof. intros H. unfold readRules, bind, load. now rewrite H. Qed.

Lemma readIntervals_run (h : Heap) (l : loc) (ivs : list Interval) :
  nth_error h l = Some (OIntervals ivs) -> readIntervals l h = Some (ivs, h).
Proof. intros H. unfold readIntervals, bind, load. now rewrite H. Qed.

Lemma readDays_run (h : Heap) (l : loc) (es : list (string * loc)) :
  nth_error h l = Some (ODays es) -> readDays l h = Some (es, h).
Proof. intros H. unfold readDays, bind, load. now rewrite H. Qed.

Lemma readArrays_run (h : Heap) (l : loc) (ls : list loc) :
  nth_error h l = Some (OArrays ls) -> readArrays l h = Some (ls, h).
Proof. intros H. unfold readArrays, bind, load. now rewrite H. Qed.

Lemma store_run (h : Heap) (l : loc) (o o' : Obj) :
  nth_error h l = Some o' -> store l o h = Some (tt, upd l o h).
Proof.
  intros H. unfold store. apply nth_error_lt in H.
  apply Nat.ltb_lt in H. now rewrite H.
Qed.

(** Reading a rule's properties gives the rule's values. *)
Lemma startTimeOf_run (h : Heap) (l : loc) (r : Rule) :
  ruleAt h l r -> startTimeOf l h = Some (startTime r, h).
Proof.
  intros (ro & Hl & Hst & _). unfold startTimeOf.
  rewrite (bind_run _ _ _ _ _ (readRule_run _ _ _ Hl)).
  now apply readDate_run.
Qed.

Lemma endTimeOf_run (h : Heap) (l : loc) (r : Rule) :
  ruleAt h l r -> endTimeOf l h = Some (endTime r, h).
Proof.
  intros (ro & Hl & _ & Het & _). unfold endTimeOf.
  rewrite (bind_run _ _ _ _ _ (readRule_run _ _ _ Hl)).
  now apply readDate_run.
Qed.

Lemma daysIncludes_run (h : Heap) (l : loc) (r : Rule) (n : Z) :
  ruleAt h l r -> daysIncludes l n h = Some (includes (days r) n, h).
Proof.
  intros (ro & Hl & _ & _ & _ & Hds). unfold daysIncludes.
  rewrite (bind_run _ _ _ _ _ (readRule_run _ _ _ Hl)).
  destruct (o_days ro), (days r); try contradiction; auto.
  rewrite (bind_run _ _ _ _ _ (readNumbers_run _ _ _ Hds)). reflexivity.
Qed.

Lemma hasDaysM_run (h : Heap) (l : loc) (r : Rule) :
  ruleAt h l r -> hasDaysM l h = Some (hasDays r, h).
Proof.
  intros (ro & Hl & _ & _ & _ & Hds). unfold hasDaysM, hasDays.
  rewrite (bind_run _ _ _ _ _ (readRule_run _ _ _ Hl)).
  destruct (o_days ro), (days r); try contradiction; auto.
Qed.

Lemma hasDateM_run (h : Heap) (l : loc) (r : Rule) :
  ruleAt h l r -> hasDateM l h = Some (hasDate r, h).
Proof.
  intros (ro & Hl & _ & _ & Hd & _). unfold hasDateM, hasDate.
  rewrite (bind_run _ _ _ _ _ (readRule_run _ _ _ Hl)).
  destruct (o_date ro), (date r); try contradiction; auto.
Qed.

(** [filter] reads and makes no change. *)
Lemma filterM_run (R : loc -> Rule -> Prop) (h : Heap) (p : loc -> M bool)
      (pp : Rule -> bool) (ls : list loc) (rules : list Rule) :
  (forall l r, R l r -> p l h = Some (pp r, h)) ->
  Forall2 R ls rules ->
  exists kept, filterM p ls h = Some (kept, h) /\
               Forall2 R kept (filter pp rules).
Proof.
  intros Hp. induction 1 as [|l r ls rules Hlr Hrest IH]; simpl.
  - exists []. split; auto.
  - destruct IH as (kept & Hrun & Hkept).
    rewrite (bind_run _ _ _ _ _ (Hp l r Hlr)).
    rewrite (bind_run _ _ _ _ _ Hrun).
    destruct (pp r); eexists; split; try reflexivity; auto.
Qed.

Lemma array_filter_run (h : Heap) (p : loc -> M bool) (arr : loc)
      (ls kept : list loc) :
  nth_error h arr = Some (ORules ls) -> filterM p ls h = Some (kept, h) ->
  array_filter p arr h = Some (List.length h, h ++ [ORules kept]).
Proof.
  intros Ha Hk. unfold array_filter.
  rewrite (bind_run _ _ _ _ _ (readRules_run _ _ _ Ha)).
  rewrite (bind_run _ _ _ _ _ Hk). reflexivity.
Qed.

Lemma array_reduce_run (h : Heap) (f : loc -> loc -> M loc) (arr init : loc)
      (ls : list loc) :
  nth_error h arr = Some (ORules ls) ->
  array_reduce f arr init h = reduceM f ls init h.
Proof.
  intros Ha. unfold array_reduce.
  now rewrite (bind_run _ _ _ _ _ (readRules_run _ _ _ Ha)).
Qed.

(** *** Entries against day-keyed objects *)

Lemma NoDup_snoc {A : Type} (l : list A) (x : A) :
  NoDup l -> ~ In x l -> NoDup (l ++ [x]).
Proof.
  induction 1 as [|y l Hy Hl IH]; simpl; intros Hx.
  - constructor; auto. constructor.
  - constructor.
    + rewrite in_app_iff. simpl. intros [H | [H | []]]; [tauto | subst; tauto].
    + apply IH. tauto.
Qed.

Lemma set_get_id {V : Type} (k : string) (v : V) (obj : list (string * V)) :
  get k obj = Some v -> set k v obj = obj.
Proof.
  induction obj as [|[k' v'] rest IH]; simpl; [discriminate|].
  destruct (String.eqb k k').
  - now intros [= ->].
  - intros H. f_equal. auto.
Qed.

Lemma set_get_none {V : Type} (k : string) (v : V) (obj : list (string * V)) :
  get k obj = None -> set k v obj = obj ++ [(k, v)].
Proof.
  induction obj as [|[k' v'] rest IH]; simpl; auto.
  destruct (String.eqb k k'); [discriminate|].
  intros H. f_equal. auto.
Qed.

Lemma get_In_snd {V : Type} (k : string) (v : V) (obj : list (string * V)) :
  get k obj = Some v -> In v (map snd obj).
Proof.
  induction obj as [|[k' v'] rest IH]; simpl; [discriminate|].
  destruct (String.eqb k k'); auto. intros [= ->]. now left.
Qed.

Lemma entriesRel_get {V W : Type} (Q : V -> W -> Prop) es m (k : string) :
  entriesRel Q es m ->
  match get k es, get k m with
  | Some a, Some v => Q a v
  | None, None => True
  | _, _ => False
  end.
Proof.
  induction 1 as [|[k1 a] [k2 v] es m [Hk Hq] Hrest IH]; simpl; auto.
  simpl in Hk, Hq. subst k2. destruct (String.eqb k k1); auto.
Qed.

Lemma entriesRel_set {V W : Type} (Q : V -> W -> Prop) es m (k : string) a v :
  entriesRel Q es m -> Q a v -> entriesRel Q (set k a es) (set k v m).
Proof.
  intros H Hq. induction H as [|[k1 a1] [k2 v1] es m [Hk Hq1] Hrest IH]; simpl.
  - repeat constructor; auto.
  - simpl in Hk, Hq1. subst k2. destruct (String.eqb k k1).
    + constructor; auto.
    + constructor; auto.
Qed.

Lemma entriesRel_impl {V W : Type} (Q Q' : V -> W -> Prop) es m :
  entriesRel Q es m ->
  (forall a v, In a (map snd es) -> Q a v -> Q' a v) ->
  entriesRel Q' es m.
Proof.
  induction 1 as [|[k1 a1] [k2 v1] es m [Hk Hq1] Hrest IH]; intros Himp.
  - constructor.
  - constructor.
    + split; auto. apply Himp; simpl; auto.
    + apply IH. intros a v Hin. apply Himp. simpl; auto.
Qed.

Lemma entriesRel_In {V W : Type} (Q : V -> W -> Prop) es m a :
  entriesRel Q es m -> In a (map snd es) -> exists v, Q a v.
Proof.
  induction 1 as [|[k1 a1] [k2 v1] es m [Hk Hq1] Hrest IH]; simpl.
  - intros [].
  - intros [<- | Hin]; eauto.
Qed.

Lemma entriesRel_keys {V W : Type} (Q : V -> W -> Prop) es m :
  entriesRel Q es m -> keys es = keys m.
Proof.
  induction 1 as [|[k1 a1] [k2 v1] es m [Hk Hq1] Hrest IH]; auto.
  unfold keys in *. simpl in *. congruence.
Qed.

(** The arrays an object refers to are as they were when only other
    objects were written. *)
Lemma arrayAt_other (lo : nat) (h h' : Heap) (a : loc) (v : list Interval) :
  nth_error h' a = nth_error h a -> arrayAt lo h a v -> arrayAt lo h' a v.
Proof. intros Heq [Hlo Ha]. split; auto. congruence. Qed.

(** Pushing onto the array of key [k] changes the list of [k] only. *)
Lemma entriesRel_push (lo : nat) (h : Heap) es (m : DayMap) (k : string)
      (a : loc) (v : list Interval) (x : Interval) :
  entriesRel (arrayAt lo h) es m -> NoDup (map snd es) ->
  get k es = Some a -> get k m = Some v ->
  entriesRel (arrayAt lo (upd a (OIntervals (v ++ [x])) h)) es
             (set k (v ++ [x]) m).
Proof.
  induction 1 as [|[k1 a1] [k2 v1] es m [Hk Hq1] Hrest IH];
    simpl; intros Hnd Ha Hv; [discriminate|].
  simpl in Hk, Hq1. subst k2. inversion Hnd as [|? ? Hnin Hnd']; subst.
  destruct (String.eqb k k1).
  - injection Ha as ->. injection Hv as ->. constructor.
    + split; auto. destruct Hq1 as [Hlo Hn]. split; auto.
      apply nth_error_upd_same. eapply nth_error_lt; eauto.
    + apply (entriesRel_impl (arrayAt lo h)); auto.
      intros a' v' Hin. apply arrayAt_other.
      apply nth_error_upd_other. intros ->. contradiction.
  - constructor.
    + split; auto. simpl. apply (arrayAt_other lo h); auto.
      apply nth_error_upd_other. intros ->.
      apply get_In_snd in Ha. contradiction.
    + apply IH; auto.
Qed.

(** *** The two statements on the accumulator *)

Lemma ensureM_spec (lo : nat) (h : Heap) (d : loc) (m : DayMap) (k : string) :
  repDays lo h d m ->
  exists h', ensureM d k h = Some (tt, h') /\
             repDays lo h' d (ensure k m) /\ stable lo h h'.
Proof.
  intros (Hlo & es & Hd & Hrel & Hnd). unfold ensureM, ensure.
  rewrite (bind_run _ _ _ _ _ (readDays_run _ _ _ Hd)).
  pose proof (entriesRel_get _ _ _ k Hrel) as Hget.
  destruct (get k es) as [a|] eqn:Ees, (get k m) as [v|] eqn:Em;
    try contradiction.
  - exists h. rewrite (store_run _ _ _ _ Hd).
    rewrite (set_get_id _ _ _ Ees), (set_get_id _ _ _ Em).
    rewrite (upd_same_value _ _ _ Hd).
    repeat split; auto using stable_refl. exists es. auto.
  - assert (Hdlt : (d < List.length h)%nat) by (eapply nth_error_lt; eauto).
    rewrite (bind_run _ _ h (h ++ [OIntervals []]) (List.length h))
      by reflexivity.
    assert (Hd' : nth_error (h ++ [OIntervals []]) d = Some (ODays es))
      by (rewrite nth_error_alloc_old; auto).
    rewrite (store_run _ _ _ _ Hd').
    eexists. split; [reflexivity|]. split.
    + split; auto. exists (set k (List.length h) es). split.
      * apply nth_error_upd_same. rewrite length_app. simpl. lia.
      * split.
        -- apply entriesRel_set.
           ++ apply (entriesRel_impl (arrayAt lo h)); auto.
              intros a v _ Ha. apply (arrayAt_other lo h); auto.
              destruct Ha as [_ Ha].
              rewrite nth_error_upd_other by (intros ->; congruence).
              apply nth_error_alloc_old. eapply nth_error_lt; eauto.
           ++ split; [lia|].
              rewrite nth_error_upd_other by lia.
              apply nth_error_alloc_new.
        -- rewrite (set_get_none _ _ _ Ees), map_app. simpl.
           apply NoDup_snoc; auto. intros Hin.
           destruct (entriesRel_In _ _ _ _ Hrel Hin) as [v [_ Hv]].
           apply nth_error_lt in Hv. lia.
    + eapply stable_trans.
      * apply stable_alloc. lia.
      * apply stable_upd. lia.
Qed.

Lemma getKey_push_spec (lo : nat) (h : Heap) (d : loc) (m : DayMap)
      (k : string) (v : list Interval) :
  repDays lo h d m -> get k m = Some v ->
  exists a, getKeyM d k h = Some (a, h) /\
    forall x, exists h', pushM a x h = Some (tt, h') /\
                         repDays lo h' d (set k (v ++ [x]) m) /\
                         stable lo h h'.
Proof.
  intros (Hlo & es & Hd & Hrel & Hnd) Hm. unfold getKeyM.
  rewrite (bind_run _ _ _ _ _ (readDays_run _ _ _ Hd)).
  pose proof (entriesRel_get _ _ _ k Hrel) as Hget. rewrite Hm in Hget.
  destruct (get k es) as [a|] eqn:Ees; [|contradiction].
  exists a. split; auto. intros x. destruct Hget as [Hloa Ha].
  unfold pushM.
  rewrite (bind_run _ _ _ _ _ (readIntervals_run _ _ _ Ha)).
  rewrite (store_run _ _ _ _ Ha).
  eexists. split; [reflexivity|]. split.
  - split; auto. exists es. split.
    + rewrite nth_error_upd_other by (intros ->; congruence). exact Hd.
    + split; auto. now apply entriesRel_push.
  - now apply stable_upd.
Qed.

(** *** The loops and callbacks *)

Lemma repDays_stable (lo : nat) (h h' : Heap) (d : loc) (m : DayMap) :
  repDays lo h d m -> stable (List.length h) h h' -> repDays lo h' d m.
Proof.
  intros (Hlo & es & Hd & Hrel & Hnd) Hs. split; auto. exists es.
  split; [|split; auto].
  - eapply stable_nth; eauto. eapply nth_error_lt; eauto.
  - apply (entriesRel_impl (arrayAt lo h)); auto.
    intros a v _ [Hloa Ha]. split; auto.
    eapply stable_nth; eauto. eapply nth_error_lt; eauto.
Qed.

Lemma repDays_weaken (lo lo' : nat) (h : Heap) (d : loc) (m : DayMap) :
  (lo' <= lo)%nat -> repDays lo h d m -> repDays lo' h d m.
Proof.
  intros Hle (Hlo & es & Hd & Hrel & Hnd). split; [lia|]. exists es.
  split; [|split]; auto.
  apply (entriesRel_impl (arrayAt lo h)); auto.
  intros a v _ [Hloa Ha]. split; auto. lia.
Qed.

Lemma repDays_new (h : Heap) :
  repDays (List.length h) (h ++ [ODays []]) (List.length h) [].
Proof.
  split; auto. exists []. split; [apply nth_error_alloc_new|].
  split; constructor.
Qed.

Section StoreSteps.

Variable zoneOffset : string -> Z -> Z.
Variable zoneRemainder : string -> Z -> Z.
Variable timeZone : string.
Variable h0 : Heap.
Variable lo : nat.
Hypothesis lo_fresh : (List.length h0 <= lo)%nat.

Lemma frame_step (h h' : Heap) :
  stable (List.length h0) h0 h -> stable lo h h' ->
  stable (List.length h0) h0 h'.
Proof.
  intros H1 H2. eapply stable_trans; eauto. eapply stable_weaken; eauto.
Qed.

Lemma walkStepM_spec (h : Heap) (d : loc) (m : DayMap) (block : loc)
      (r : Rule) (date : Dayjs) :
  ruleAt h0 block r -> stable (List.length h0) h0 h -> repDays lo h d m ->
  exists h', walkStepM zoneOffset zoneRemainder timeZone block date d h = Some (tt, h') /\
             repDays lo h' d (walkStep zoneOffset zoneRemainder timeZone r date m) /\
             stable lo h h'.
Proof.
  intros Hr Hs Hrep.
  pose proof (ruleAt_frame _ _ _ _ Hs Hr) as Hrh.
  unfold walkStepM, walkStep, blockInterval. cbn [start].
  rewrite (bind_run _ _ _ _ _ (startTimeOf_run _ _ _ Hrh)). cbv zeta.
  rewrite (bind_run _ _ _ _ _ (daysIncludes_run _ _ _ _ Hrh)).
  set (sd := add_minutes (minutesOfDay (startTime r))
                         (tz_keepLocalTime zoneOffset zoneRemainder timeZone date)).
  destruct (includes (days r) (day sd)).
  - destruct (ensureM_spec lo h d m (format_ymd sd) Hrep)
      as (h1 & He & Hrep1 & Hs1).
    rewrite (bind_run _ _ _ _ _ He).
    assert (Hget : get (format_ymd sd) (ensure (format_ymd sd) m)
                   = Some (match get (format_ymd sd) m with
                           | Some v => v | None => [] end))
      by (rewrite get_ensure; now rewrite String.eqb_refl).
    destruct (getKey_push_spec lo h1 d _ _ _ Hrep1 Hget) as (a & Hk & Hpush).
    rewrite (bind_run _ _ _ _ _ Hk).
    pose proof (ruleAt_frame _ _ _ _ (frame_step _ _ Hs Hs1) Hr) as Hrh1.
    rewrite (bind_run _ _ _ _ _ (endTimeOf_run _ _ _ Hrh1)).
    match goal with
    | |- context [pushM a ?x] => destruct (Hpush x) as (h2 & Hp & Hrep2 & Hs2)
    end.
    exists h2. split; [exact Hp|]. split.
    + unfold push. rewrite Hget. exact Hrep2.
    + eapply stable_trans; eauto.
  - exists h. split; [reflexivity|]. split; [exact Hrep | apply stable_refl].
Qed.

Lemma dayLoopM_spec (d : loc) (block : loc) (r : Rule) (dateTo : loc)
      (t : Date) (fuel : nat) :
  ruleAt h0 block r -> nth_error h0 dateTo = Some (ODate t) ->
  forall (date : Dayjs) (h : Heap) (m : DayMap),
    stable (List.length h0) h0 h -> repDays lo h d m ->
    exists h',
      dayLoopM zoneOffset zoneRemainder fuel timeZone block dateTo date d h = Some (tt, h') /\
      repDays lo h' d (dayLoop zoneOffset zoneRemainder fuel timeZone r (utc t) date m) /\
      stable lo h h'.
Proof.
  intros Hr Ht. induction fuel as [|fuel IH]; intros date h m Hs Hrep.
  - exists h. split; [reflexivity|]. split; [exact Hrep | apply stable_refl].
  - cbn [dayLoopM dayLoop].
    rewrite (bind_run _ _ _ _ _ (readDate_run _ _ _ (frame_nth _ _ _ _ Hs Ht))).
    destruct (isBefore date (utc t)).
    + destruct (walkStepM_spec h d m block r date Hr Hs Hrep)
        as (h1 & Hw & Hrep1 & Hs1).
      rewrite (bind_run _ _ _ _ _ Hw).
      destruct (IH (add_day date) h1 _ (frame_step _ _ Hs Hs1) Hrep1)
        as (h2 & Hl & Hrep2 & Hs2).
      exists h2. split; [assumption|]. split; [assumption|]. eapply stable_trans; eauto.
    + exists h. split; [reflexivity|]. split; [exact Hrep | apply stable_refl].
Qed.

Lemma walkCallback_spec (d : loc) (dateFrom dateTo : loc) (f t : Date)
      (h : Heap) (m : DayMap) (block : loc) (r : Rule) :
  nth_error h0 dateFrom = Some (ODate f) ->
  nth_error h0 dateTo = Some (ODate t) ->
  ruleAt h0 block r -> stable (List.length h0) h0 h -> repDays lo h d m ->
  exists h',
    walkCallback zoneOffset zoneRemainder timeZone dateFrom dateTo d block h = Some (d, h') /\
    repDays lo h' d
            (dayLoop zoneOffset zoneRemainder (walkFuel f t) timeZone r (utc t)
                     (utc (utcStartOfDay f)) m) /\
    stable lo h h'.
Proof.
  intros Hf Ht Hr Hs Hrep. unfold walkCallback.
  rewrite (bind_run _ _ _ _ _ (readDate_run _ _ _ (frame_nth _ _ _ _ Hs Hf))).
  rewrite (bind_run _ _ _ _ _ (readDate_run _ _ _ (frame_nth _ _ _ _ Hs Ht))).
  destruct (dayLoopM_spec d block r dateTo t (walkFuel f t) Hr Ht
                          (utc (utcStartOfDay f)) h m Hs Hrep)
    as (h1 & Hl & Hrep1 & Hs1).
  rewrite (bind_run _ _ _ _ _ Hl). exists h1. auto.
Qed.

Lemma overrideCallback_spec (d : loc) (h : Heap) (m : DayMap) (override : loc)
      (r : Rule) :
  ruleAt h0 override r -> stable (List.length h0) h0 h -> repDays lo h d m ->
  exists h',
    overrideCallback zoneOffset zoneRemainder timeZone d override h = Some (d, h') /\
    repDays lo h' d (overrideStep zoneOffset zoneRemainder timeZone m r) /\
    stable lo h h'.
Proof.
  intros Hr Hs Hrep.
  destruct Hr as (ro & Hl & Hst & Het & Hd & Hds).
  unfold overrideCallback, overrideStep, overrideInterval.
  rewrite (bind_run _ _ _ _ _ (readRule_run _ _ _ (frame_nth _ _ _ _ Hs Hl))).
  destruct (o_date ro) as [dl|], (date r) as [dv|]; try contradiction.
  - rewrite (bind_run _ _ _ _ _ (readDate_run _ _ _ (frame_nth _ _ _ _ Hs Hd))).
    rewrite (bind_run _ _ _ _ _ (readDate_run _ _ _ (frame_nth _ _ _ _ Hs Hst))).
    cbv zeta. cbn [start].
    set (sd := set_minute (getUTCMinutes (startTime r))
                 (set_hour (getUTCHours (startTime r))
                           (dayjs_tz zoneOffset zoneRemainder dv timeZone))).
    destruct (ensureM_spec lo h d m (format_ymd sd) Hrep)
      as (h1 & He & Hrep1 & Hs1).
    rewrite (bind_run _ _ _ _ _ He).
    assert (Hget : get (format_ymd sd) (ensure (format_ymd sd) m)
                   = Some (match get (format_ymd sd) m with
                           | Some v => v | None => [] end))
      by (rewrite get_ensure; now rewrite String.eqb_refl).
    destruct (getKey_push_spec lo h1 d _ _ _ Hrep1 Hget) as (a & Hk & Hpush).
    rewrite (bind_run _ _ _ _ _ Hk).
    pose proof (frame_step _ _ Hs Hs1) as Hs01.
    rewrite (bind_run _ _ _ _ _
               (readDate_run _ _ _ (frame_nth _ _ _ _ Hs01 Hd))).
    rewrite (bind_run _ _ _ _ _
               (readDate_run _ _ _ (frame_nth _ _ _ _ Hs01 Het))).
    match goal with
    | |- context [pushM a ?x] => destruct (Hpush x) as (h2 & Hp & Hrep2 & Hs2)
    end.
    rewrite (bind_run _ _ _ _ _ Hp).
    exists h2. split; [reflexivity|]. split.
    + unfold push. rewrite Hget. exact Hrep2.
    + eapply stable_trans; eauto.
  - exists h. split; [reflexivity|]. split; [exact Hrep | apply stable_refl].
Qed.

(** [reduce] with a callback that works on the accumulator [d] in place. *)
Lemma reduceM_spec (f : loc -> loc -> M loc) (g : DayMap -> Rule -> DayMap)
      (d : loc) :
  (forall h m block r,
      ruleAt h0 block r -> stable (List.length h0) h0 h -> repDays lo h d m ->
      exists h', f d block h = Some (d, h') /\
                 repDays lo h' d (g m r) /\ stable lo h h') ->
  forall ls rules, Forall2 (ruleAt h0) ls rules ->
  forall h m, stable (List.length h0) h0 h -> repDays lo h d m ->
  exists h', reduceM f ls d h = Some (d, h') /\
             repDays lo h' d (fold_left g rules m) /\ stable lo h h'.
Proof.
  intros Hf ls rules. induction 1 as [|l r ls rules Hlr Hrest IH];
    intros h m Hs Hrep; simpl.
  - exists h. split; [reflexivity|]. split; [exact Hrep | apply stable_refl].
  - destruct (Hf h m l r Hlr Hs Hrep) as (h1 & Hrun & Hrep1 & Hs1).
    rewrite (bind_run _ _ _ _ _ Hrun).
    destruct (IH h1 _ (frame_step _ _ Hs Hs1) Hrep1) as (h2 & Hrun2 & Hrep2 & Hs2).
    exists h2. split; [assumption|]. split; [assumption|]. eapply stable_trans; eauto.
Qed.

End StoreSteps.

(** *** Merge and flatten *)

Lemma entriesRel_fold_set {V W : Type} (Q : V -> W -> Prop) l l' :
  entriesRel Q l l' -> forall acc acc', entriesRel Q acc acc' ->
  entriesRel Q (fold_left (fun obj kv => set (fst kv) (snd kv) obj) l acc)
               (fold_left (fun obj kv => set (fst kv) (snd kv) obj) l' acc').
Proof.
  induction 1 as [|[k1 a1] [k2 v1] l l' [Hk Hq] Hrest IH];
    intros acc acc' Hacc; simpl; auto.
  simpl in Hk, Hq. subst k2. apply IH. now apply entriesRel_set.
Qed.

Lemma entriesRel_spread {V W : Type} (Q : V -> W -> Prop) es1 m1 es2 m2 :
  entriesRel Q es1 m1 -> entriesRel Q es2 m2 ->
  entriesRel Q (spread es1 es2) (spread m1 m2).
Proof.
  intros H1 H2. unfold spread. apply entriesRel_fold_set.
  - unfold entriesRel. now apply Forall2_app.
  - constructor.
Qed.

Lemma flatM_run (h : Heap) es (m : DayMap) :
  entriesRel (fun a v => nth_error h a = Some (OIntervals v)) es m ->
  flatM (map snd es) h = Some (values_flat m, h).
Proof.
  induction 1 as [|[k1 a1] [k2 v1] es m [Hk Hq] Hrest IH]; auto.
  cbn [map snd flatM]. simpl in Hq.
  rewrite (bind_run _ _ _ _ _ (readIntervals_run _ _ _ Hq)).
  rewrite (bind_run _ _ _ _ _ IH). reflexivity.
Qed.

Lemma repDays_entries (lo : nat) (h h' : Heap) (d : loc) (m : DayMap) :
  repDays lo h d m -> stable (List.length h) h h' ->
  exists es, nth_error h' d = Some (ODays es) /\
             entriesRel (fun a v => nth_error h' a = Some (OIntervals v)) es m.
Proof.
  intros Hrep Hs. apply (repDays_stable _ _ h') in Hrep; auto.
  destruct Hrep as (_ & es & Hd & Hrel & _). exists es. split; auto.
  apply (entriesRel_impl (arrayAt lo h')); auto. now intros a v _ [_ Ha].
Qed.

Lemma inputAt_frame (h0 h : Heap) (availability : loc) (rules : list Rule) :
  stable (List.length h0) h0 h -> inputAt h0 availability rules ->
  inputAt h availability rules.
Proof.
  intros Hs (ls & Ha & Hrules). exists ls. split.
  - eapply frame_nth; eauto.
  - clear Ha. induction Hrules; constructor; auto.
    eapply ruleAt_frame; eauto.
Qed.

(** ** Where an override lands

    For an override [date] at a UTC midnight, conversion into a zone west of
    Greenwich shows the evening before, and setting hour and minute stays on
    that earlier day; the recurring walk keeps the day when the zone's offset
    is a whole number of minutes. *)

Section OverrideKey.

Variable zoneOffset : string -> Z -> Z.
Variable zoneRemainder : string -> Z -> Z.
Variable timeZone : string.

(** An override lands on the date the zone's clock shows at the instant
    [date]. *)
Lemma override_key (override : Rule) (d : Date) :
  format_ymd (start (overrideInterval zoneOffset zoneRemainder timeZone override d))
  = format_ymd (dayjs_tz zoneOffset zoneRemainder d timeZone).
Proof.
  unfold format_ymd, overrideInterval. cbn [start]. f_equal.
  pose proof (getUTCHours_range (startTime override)) as Hh.
  pose proof (getUTCMinutes_range (startTime override)) as Hm.
  rewrite wall_set_hour_minute by auto.
  revert Hh Hm. generalize (wall (dayjs_tz zoneOffset zoneRemainder d timeZone))
    (getUTCHours (startTime override)) (getUTCMinutes (startTime override)).
  intros w hh mm Hh Hm. clock_arith.
Qed.

Lemma override_key_west (override : Rule) (d : Date) :
  d mod MS_DAY = 0 ->
  - MS_DAY <= zoneOffset timeZone d * MS_MINUTE + zoneRemainder timeZone d < 0 ->
  format_ymd (start (overrideInterval zoneOffset zoneRemainder timeZone override d))
  = ymd (d / MS_DAY - 1).
Proof.
  intros Hd Ho. rewrite override_key. unfold format_ymd. cbn [dayjs_tz wall].
  f_equal. revert Ho.
  generalize (zoneOffset timeZone d) (zoneRemainder timeZone d).
  intros o r Ho. clock_arith.
Qed.

Lemma override_key_east (override : Rule) (d : Date) :
  d mod MS_DAY = 0 ->
  0 <= zoneOffset timeZone d * MS_MINUTE + zoneRemainder timeZone d < MS_DAY ->
  format_ymd (start (overrideInterval zoneOffset zoneRemainder timeZone override d))
  = ymd (d / MS_DAY).
Proof.
  intros Hd Ho. rewrite override_key. unfold format_ymd. cbn [dayjs_tz wall].
  f_equal. revert Ho.
  generalize (zoneOffset timeZone d) (zoneRemainder timeZone d).
  intros o r Ho. clock_arith.
Qed.

(** What [blockInterval] holds, field by field. *)
Lemma blockInterval_start (block : Rule) (d : Dayjs) :
  start (blockInterval zoneOffset zoneRemainder timeZone block d)
  = mkDayjs (wall d + minutesOfDay (startTime block) * MS_MINUTE
             + zoneRemainder timeZone (valueOf d))
            (zoneOffset timeZone (valueOf d)) (Some timeZone).
Proof.
  unfold blockInterval, add_minutes, tz_keepLocalTime. cbn [start wall offset zone].
  f_equal. lia.
Qed.

Lemma blockInterval_end (block : Rule) (d : Dayjs) :
  end_ (blockInterval zoneOffset zoneRemainder timeZone block d)
  = mkDayjs (wall d + minutesOfDay (endTime block) * MS_MINUTE
             + zoneRemainder timeZone (valueOf d))
            (zoneOffset timeZone (valueOf d)) (Some timeZone).
Proof.
  unfold blockInterval, add_minutes, tz_keepLocalTime. cbn [end_ wall offset zone].
  f_equal. lia.
Qed.

(** A time of day added to a midnight, with a remainder that does not cross
    a midnight, stays on the day. *)
Lemma midnight_plus_minutes_remainder (w n r : Z) :
  w mod MS_DAY = 0 -> 0 <= n * MS_MINUTE + r < MS_DAY ->
  (w + n * MS_MINUTE + r) / MS_DAY = w / MS_DAY.
Proof. intros Hw Hn. clock_arith. Qed.

Lemma recurring_key (block : Rule) (d : Date) :
  d mod MS_DAY = 0 -> zoneRemainder timeZone d = 0 ->
  format_ymd (start (blockInterval zoneOffset zoneRemainder timeZone block (utc d)))
  = ymd (d / MS_DAY).
Proof.
  intros Hd Hr. rewrite blockInterval_start. unfold format_ymd. cbn [wall].
  rewrite valueOf_utc, Hr. cbn [utc wall]. f_equal.
  pose proof (minutesOfDay_range (startTime block)) as Hs.
  apply midnight_plus_minutes_remainder; auto. clock_arith.
Qed.

End OverrideKey.

(** * The claims *)

Section Claims.

Variable zoneOffset : string -> Z -> Z.
Variable zoneRemainder : string -> Z -> Z.

(** C1. Override precedence: when a date key [k] is produced by the recurring
    expansion and by the override expansion, the merged object holds the
    override list under [k], and the intervals of the returned array that
    fall on [k] are exactly that list: the recurring intervals of the date
    are replaced as a whole, nothing is concatenated. *)
Theorem override_precedence (timeZone : string) (availability : list Rule)
        (dateFrom dateTo : Date) (k : string) (recurring overrides : list Interval) :
  get k (workingDates zoneOffset zoneRemainder timeZone availability dateFrom dateTo)
    = Some recurring ->
  get k (dateOverrides zoneOffset zoneRemainder timeZone availability) = Some overrides ->
  get k (mergeAvailability zoneOffset zoneRemainder timeZone availability dateFrom dateTo)
    = Some overrides /\
  onDate k (getAvailability zoneOffset zoneRemainder timeZone availability dateFrom dateTo)
    = overrides.
Proof.
  intros Hrec Hov.
  assert (Hget : get k (mergeAvailability zoneOffset zoneRemainder timeZone availability
                                          dateFrom dateTo) = Some overrides).
  { unfold mergeAvailability.
    rewrite get_spread
      by (apply workingDates_NoDup || apply dateOverrides_NoDup).
    now rewrite Hov. }
  split; auto.
  unfold getAvailability. rewrite onDate_values.
  - now rewrite Hget.
  - apply mergeAvailability_keyed.
  - apply NoDup_keys_spread.
Qed.

(** C3, amended. When [dateTo] is not after the instant the walk starts at
    ([utcStartOfDay]: the start of [dateFrom]'s UTC calendar day, for a
    [dateFrom] in the years 0100..9999), no day is walked and the result is
    the flattened override expansion. *)
Theorem no_walk_override_only (timeZone : string) (availability : list Rule)
        (dateFrom dateTo : Date) :
  dateTo <= utcStartOfDay dateFrom ->
  walkedDays dateFrom dateTo = [] /\
  workingDates zoneOffset zoneRemainder timeZone availability dateFrom dateTo = [] /\
  getAvailability zoneOffset zoneRemainder timeZone availability dateFrom dateTo
  = values_flat (dateOverrides zoneOffset zoneRemainder timeZone availability).
Proof.
  intros H.
  assert (Hw : walkedDays dateFrom dateTo = []) by now apply walkedDays_empty.
  assert (Hrec : workingDates zoneOffset zoneRemainder timeZone availability dateFrom dateTo
                 = []).
  { rewrite workingDates_fold. unfold walkBlock. rewrite Hw. simpl.
    induction (filter hasDays availability); simpl; auto. }
  repeat split; auto.
  unfold getAvailability, mergeAvailability. rewrite Hrec.
  rewrite spread_empty_l; auto. apply dateOverrides_NoDup.
Qed.

(** C5, amended. When every rule's start time of day is before its end time
    of day, every returned interval has [start] before [end]. *)
Theorem intervals_ordered (timeZone : string) (availability : list Rule)
        (dateFrom dateTo : Date) :
  (forall r, In r availability ->
             minutesOfDay (startTime r) < minutesOfDay (endTime r)) ->
  forall iv,
    In iv (getAvailability zoneOffset zoneRemainder timeZone availability dateFrom dateTo) ->
    valueOf (start iv) < valueOf (end_ iv).
Proof.
  intros Hrules iv Hin.
  set (P := fun (_ : string) (x : Interval) => valueOf (start x) < valueOf (end_ x)).
  assert (Hall : allEntries P (mergeAvailability zoneOffset zoneRemainder timeZone availability
                                                 dateFrom dateTo)).
  { apply allEntries_spread.
    - apply workingDates_allEntries. intros block d Hb _ _ _.
      specialize (Hrules block Hb). unfold P, valueOf. simpl.
      unfold MS_MINUTE. lia.
    - apply dateOverrides_allEntries. intros r d Hr _.
      specialize (Hrules r Hr). unfold P, valueOf, overrideInterval.
      cbn [start end_].
      pose proof (getUTCHours_range (startTime r)).
      pose proof (getUTCHours_range (endTime r)).
      pose proof (getUTCMinutes_range (startTime r)).
      pose proof (getUTCMinutes_range (endTime r)).
      rewrite !wall_set_hour_minute by auto. simpl.
      unfold minutesOfDay in Hrules. unfold MS_HOUR, MS_MINUTE. lia. }
  destruct (allEntries_values P _ iv Hall Hin) as [k Hk]. exact Hk.
Qed.

(** C4, amended. Wall-clock anchoring of recurring rules: for a rule with
    [days], a walked day and a passed weekday test, the interval is in the
    recurring expansion.  Its start and end are the walked day's midnight
    moved by the rule's start and end time of day and by the remainder of
    the zone's offset, and they carry the offset the zone has at 00:00 UTC
    of the walked day, not the one it has at the start or the end.  Where
    that offset is a whole number of minutes, start and end show the walked
    day's date and the hour and minute of [startTime] and [endTime]; and
    where the zone has the same whole-minute offset at the start instant,
    the start is what the zone's clock shows at that instant. *)
Theorem recurring_wall_clock (timeZone : string) (availability : list Rule)
        (dateFrom dateTo : Date) (block : Rule) (d : Dayjs) :
  In block availability -> hasDays block = true ->
  In d (walkedDays dateFrom dateTo) ->
  includes (days block)
           (day (start (blockInterval zoneOffset zoneRemainder timeZone block d))) = true ->
  let iv := blockInterval zoneOffset zoneRemainder timeZone block d in
  In iv (values_flat (workingDates zoneOffset zoneRemainder timeZone availability
                                   dateFrom dateTo)) /\
  wall (start iv) = wall d + minutesOfDay (startTime block) * MS_MINUTE
                    + zoneRemainder timeZone (valueOf d) /\
  wall (end_ iv) = wall d + minutesOfDay (endTime block) * MS_MINUTE
                   + zoneRemainder timeZone (valueOf d) /\
  offset (start iv) = zoneOffset timeZone (valueOf d) /\
  offset (end_ iv) = zoneOffset timeZone (valueOf d) /\
  zone (start iv) = Some timeZone /\ zone (end_ iv) = Some timeZone /\
  (zoneRemainder timeZone (valueOf d) = 0 ->
   hour (start iv) = getUTCHours (startTime block) /\
   minute (start iv) = getUTCMinutes (startTime block) /\
   hour (end_ iv) = getUTCHours (endTime block) /\
   minute (end_ iv) = getUTCMinutes (endTime block) /\
   format_ymd (start iv) = format_ymd d /\
   format_ymd (end_ iv) = format_ymd d) /\
  (zoneOffset timeZone (valueOf (start iv)) = zoneOffset timeZone (valueOf d) ->
   zoneRemainder timeZone (valueOf (start iv)) = 0 ->
   dayjs_tz zoneOffset zoneRemainder (valueOf (start iv)) timeZone = start iv).
Proof.
  intros Hb Hd Hday Hinc iv.
  destruct (walkedDays_midnight _ _ _ Hday) as [Hmid _].
  pose proof (minutesOfDay_range (startTime block)) as Hs.
  pose proof (minutesOfDay_range (endTime block)) as He.
  split; [now apply workingDates_contains|].
  unfold iv. rewrite blockInterval_start, blockInterval_end. cbn [wall offset zone].
  do 6 (split; [reflexivity|]).
  split.
  - intros Hr. rewrite Hr, !Z.add_0_r.
    destruct (midnight_plus_minutes _ _ Hmid Hs) as [Hs1 [Hs2 Hs3]].
    destruct (midnight_plus_minutes _ _ Hmid He) as [He1 [He2 He3]].
    destruct (minutesOfDay_split (startTime block)) as [Hs4 Hs5].
    destruct (minutesOfDay_split (endTime block)) as [He4 He5].
    unfold hour, minute, format_ymd. cbn [wall].
    rewrite Hs1, Hs2, Hs3, He1, He2, He3. repeat split; congruence.
  - intros Ho Hr. unfold dayjs_tz. rewrite Ho, Hr.
    unfold valueOf. cbn [wall offset]. f_equal. lia.
Qed.

(** C6, amended. The two tests are independent.  A rule without a [date]
    gives nothing to the override expansion and a rule with a [date] gives
    its interval to it, whatever its [days]; a rule whose [days] is absent
    or empty gives nothing to the recurring expansion and a rule with [days]
    gives an interval for every walked day whose weekday is in [days],
    whatever its [date]. *)
Theorem rule_contributions (timeZone : string) (before after : list Rule)
        (r : Rule) (dateFrom dateTo : Date) :
  (date r = None ->
   dateOverrides zoneOffset zoneRemainder timeZone (before ++ r :: after)
   = dateOverrides zoneOffset zoneRemainder timeZone (before ++ after)) /\
  (days r = None \/ days r = Some [] ->
   workingDates zoneOffset zoneRemainder timeZone (before ++ r :: after) dateFrom dateTo
   = workingDates zoneOffset zoneRemainder timeZone (before ++ after) dateFrom dateTo) /\
  (forall d, date r = Some d ->
     In (overrideInterval zoneOffset zoneRemainder timeZone r d)
        (values_flat (dateOverrides zoneOffset zoneRemainder timeZone (before ++ r :: after)))) /\
  (forall d, hasDays r = true -> In d (walkedDays dateFrom dateTo) ->
     includes (days r)
              (day (start (blockInterval zoneOffset zoneRemainder timeZone r d))) = true ->
     In (blockInterval zoneOffset zoneRemainder timeZone r d)
        (values_flat (workingDates zoneOffset zoneRemainder timeZone (before ++ r :: after)
                                   dateFrom dateTo))).
Proof.
  assert (Hin : In r (before ++ r :: after))
    by (apply in_app_iff; right; now left).
  split; [|split; [|split]].
  - intros H. unfold dateOverrides. rewrite !filter_app. cbn [filter].
    unfold hasDate at 2. now rewrite H.
  - intros H. rewrite !workingDates_fold. rewrite !filter_app. cbn [filter].
    unfold hasDays at 2. destruct H as [H | H]; rewrite H; auto.
    rewrite !fold_left_app. cbn [fold_left].
    now rewrite walkBlock_no_days.
  - intros d Hd. now apply dateOverrides_contains.
  - intros d Hd Hday Hinc. now apply workingDates_contains.
Qed.


(** C8. Noninterference on stored date components: two availability lists
    whose rules agree pairwise on [date], [days] and on the UTC hour and
    minute of [startTime] and [endTime] give the same result. *)
Theorem stored_dates_ignored (timeZone : string) (av1 av2 : list Rule)
        (dateFrom dateTo : Date) :
  Forall2 sameClock av1 av2 ->
  getAvailability zoneOffset zoneRemainder timeZone av1 dateFrom dateTo
  = getAvailability zoneOffset zoneRemainder timeZone av2 dateFrom dateTo.
Proof.
  intros H. unfold getAvailability, mergeAvailability. f_equal. f_equal.
  - rewrite !workingDates_fold.
    apply (fold_left_Forall2 sameClock).
    + intros a b c (Hsh & Hsm & Heh & Hem & _ & Hdays). unfold walkBlock.
      apply (fold_left_Forall2 eq); [|clear; induction (walkedDays _ _); auto].
      intros a' d d' <-. unfold walkStep, blockInterval, minutesOfDay.
      now rewrite Hsh, Hsm, Heh, Hem, Hdays.
    + apply filter_Forall2; auto.
      intros b c (_ & _ & _ & _ & _ & Hdays). unfold hasDays. now rewrite Hdays.
  - unfold dateOverrides.
    apply (fold_left_Forall2 sameClock).
    + intros a b c (Hsh & Hsm & Heh & Hem & Hdate & _).
      unfold overrideStep, overrideInterval.
      now rewrite Hsh, Hsm, Heh, Hem, Hdate.
    + apply filter_Forall2; auto.
      intros b c (_ & _ & _ & _ & Hdate & _). unfold hasDate. now rewrite Hdate.
Qed.

(** C10, amended. Override intervals keep what is below the minute in the
    zone-converted [date]: the interval of an override rule is in the
    override expansion, its start and end show the rule's hour and minute,
    and their seconds and milliseconds are those the zone's clock shows at
    the instant [date]; they are on the minute exactly when that clock is.
    In a zone whose offset at [date] is a whole number of minutes these are
    the seconds and milliseconds of [date] itself, and start and end are on
    the minute exactly when [date] is. *)
Theorem override_keeps_seconds (timeZone : string) (availability : list Rule)
        (override : Rule) (d : Date) :
  In override availability -> date override = Some d ->
  let iv := overrideInterval zoneOffset zoneRemainder timeZone override d in
  let converted := dayjs_tz zoneOffset zoneRemainder d timeZone in
  In iv (values_flat (dateOverrides zoneOffset zoneRemainder timeZone availability)) /\
  hour (start iv) = getUTCHours (startTime override) /\
  minute (start iv) = getUTCMinutes (startTime override) /\
  hour (end_ iv) = getUTCHours (endTime override) /\
  minute (end_ iv) = getUTCMinutes (endTime override) /\
  second (start iv) = second converted /\
  millisecond (start iv) = millisecond converted /\
  second (end_ iv) = second converted /\
  millisecond (end_ iv) = millisecond converted /\
  (valueOf (start iv) mod MS_MINUTE = 0 <-> wall converted mod MS_MINUTE = 0) /\
  (valueOf (end_ iv) mod MS_MINUTE = 0 <-> wall converted mod MS_MINUTE = 0) /\
  (zoneRemainder timeZone d = 0 ->
   second (start iv) = getUTCSeconds d /\
   millisecond (start iv) = getUTCMilliseconds d /\
   second (end_ iv) = getUTCSeconds d /\
   millisecond (end_ iv) = getUTCMilliseconds d /\
   (valueOf (start iv) mod MS_MINUTE = 0 <-> d mod MS_MINUTE = 0) /\
   (valueOf (end_ iv) mod MS_MINUTE = 0 <-> d mod MS_MINUTE = 0)).
Proof.
  intros Hin Hd iv converted.
  split; [now apply dateOverrides_contains|].
  pose proof (getUTCHours_range (startTime override)) as Hsh.
  pose proof (getUTCMinutes_range (startTime override)) as Hsm.
  pose proof (getUTCHours_range (endTime override)) as Heh.
  pose proof (getUTCMinutes_range (endTime override)) as Hem.
  unfold iv, converted, hour, minute, second, millisecond, valueOf, overrideInterval.
  cbn [start end_].
  rewrite !wall_set_hour_minute by auto.
  unfold getUTCSeconds, getUTCMilliseconds.
  cbn [dayjs_tz wall offset set_minute set_hour].
  generalize (zoneOffset timeZone d) (zoneRemainder timeZone d). intros o r.
  generalize (getUTCHours (startTime override)) (getUTCMinutes (startTime override))
             (getUTCHours (endTime override)) (getUTCMinutes (endTime override))
             Hsh Hsm Heh Hem.
  clear. intros sh sm eh em Hsh Hsm Heh Hem.
  do 10 (split; [clock_arith|]).
  intros ->. repeat split; clock_arith.
Qed.

(** C9. No input is written and the result is new.  Run on any store that
    holds the availability array with its rule objects, and the two dates,
    the function returns; every object of the store it started from is as
    it was (so the array, the rule records and their dates, [dateFrom] and
    [dateTo] are), the array it returns is an object that was not in that
    store, and it holds the intervals of [getAvailability] on the values
    read. *)
Theorem inputs_unchanged_result_fresh (timeZone : string) (h0 : Heap)
        (availability dateFrom dateTo : loc) (rules : list Rule) (f t : Date) :
  inputAt h0 availability rules ->
  nth_error h0 dateFrom = Some (ODate f) ->
  nth_error h0 dateTo = Some (ODate t) ->
  exists result h',
    getAvailabilityM zoneOffset zoneRemainder timeZone availability dateFrom dateTo h0
    = Some (result, h') /\
    (forall l, (l < List.length h0)%nat -> nth_error h' l = nth_error h0 l) /\
    inputAt h' availability rules /\
    nth_error h' dateFrom = Some (ODate f) /\
    nth_error h' dateTo = Some (ODate t) /\
    (List.length h0 <= result)%nat /\
    nth_error h' result
    = Some (OIntervals (getAvailability zoneOffset zoneRemainder timeZone rules f t)).
Proof.
  intros Hin Hf Ht. pose proof Hin as (ls & Ha & Hrules).
  unfold getAvailabilityM.
  (* the first filter *)
  destruct (filterM_run (ruleAt h0) h0 hasDaysM hasDays ls rules
              (hasDaysM_run h0) Hrules) as (kept1 & Hk1 & Hkept1).
  rewrite (bind_run _ _ _ _ _ (array_filter_run _ _ _ _ _ Ha Hk1)).
  set (h1 := h0 ++ [ORules kept1]).
  assert (Hs1 : stable (List.length h0) h0 h1) by (apply stable_alloc; lia).
  (* the first accumulator and reduce *)
  rewrite (bind_run _ _ h1 (h1 ++ [ODays []]) (List.length h1)) by reflexivity.
  set (h2 := h1 ++ [ODays []]).
  assert (Hlen1 : List.length h1 = S (List.length h0))
    by (unfold h1; rewrite length_app; simpl; lia).
  assert (Hs2 : stable (List.length h0) h0 h2).
  { eapply stable_trans; eauto. apply stable_alloc. lia. }
  assert (Hrep2 : repDays (List.length h0) h2 (List.length h1) []).
  { apply (repDays_weaken (List.length h1)); [lia | apply repDays_new]. }
  assert (Hrec : nth_error h2 (List.length h0) = Some (ORules kept1)).
  { unfold h2. rewrite nth_error_alloc_old by lia.
    apply nth_error_alloc_new. }
  destruct (reduceM_spec h0 (List.length h0) (le_n _)
              (walkCallback zoneOffset zoneRemainder timeZone dateFrom dateTo)
              (fun dates block =>
                 dayLoop zoneOffset zoneRemainder (walkFuel f t) timeZone block (utc t)
                         (utc (utcStartOfDay f)) dates)
              (List.length h1)
              (fun h m block r Hr Hs Hrep =>
                 walkCallback_spec zoneOffset zoneRemainder timeZone h0 (List.length h0)
                   (le_n _) (List.length h1) dateFrom dateTo f t h m block r
                   Hf Ht Hr Hs Hrep)
              kept1 (filter hasDays rules) Hkept1 h2 [] Hs2 Hrep2)
    as (h3 & Hred1 & Hrep3 & Hs3).
  rewrite <- (array_reduce_run _ _ _ _ _ Hrec) in Hred1.
  rewrite (bind_run _ _ _ _ _ Hred1).
  fold (workingDates zoneOffset zoneRemainder timeZone rules f t) in Hrep3.
  assert (Hs03 : stable (List.length h0) h0 h3)
    by (apply (stable_trans _ h0 h2 h3 Hs2 Hs3)).
  (* the second filter, accumulator and reduce *)
  destruct Hin as (ls' & Ha' & _). rewrite Ha in Ha'. injection Ha' as <-.
  assert (Hrules3 : forall l r, ruleAt h0 l r -> hasDateM l h3 = Some (hasDate r, h3)).
  { intros l r Hr. apply hasDateM_run. eapply ruleAt_frame; eauto. }
  destruct (filterM_run (ruleAt h0) h3 hasDateM hasDate ls rules
              Hrules3 Hrules) as (kept2 & Hk2 & Hkept2).
  rewrite (bind_run _ _ _ _ _
             (array_filter_run _ _ _ _ _ (frame_nth _ _ _ _ Hs03 Ha) Hk2)).
  set (h4 := h3 ++ [ORules kept2]).
  rewrite (bind_run _ _ h4 (h4 ++ [ODays []]) (List.length h4)) by reflexivity.
  set (h5 := h4 ++ [ODays []]).
  assert (Hlen4 : List.length h4 = S (List.length h3))
    by (unfold h4; rewrite length_app; simpl; lia).
  assert (Hle03 : (List.length h0 <= List.length h3)%nat) by apply Hs03.
  assert (Hs35 : stable (List.length h3) h3 h5).
  { eapply stable_trans; [apply stable_alloc; lia|].
    apply stable_alloc. fold h4. lia. }
  assert (Hs05 : stable (List.length h0) h0 h5).
  { apply (stable_trans _ h0 h3 h5 Hs03).
    apply (stable_weaken (List.length h3)); [lia | exact Hs35]. }
  assert (Hov : nth_error h5 (List.length h3) = Some (ORules kept2)).
  { unfold h5. rewrite nth_error_alloc_old by lia.
    apply nth_error_alloc_new. }
  assert (Hlo4 : (List.length h0 <= List.length h4)%nat) by lia.
  destruct (reduceM_spec h0 (List.length h4) Hlo4
              (overrideCallback zoneOffset zoneRemainder timeZone)
              (overrideStep zoneOffset zoneRemainder timeZone)
              (List.length h4)
              (overrideCallback_spec zoneOffset zoneRemainder timeZone h0 (List.length h4)
                                     Hlo4 (List.length h4))
              kept2 (filter hasDate rules) Hkept2 h5 [] Hs05
              (repDays_new h4))
    as (h6 & Hred2 & Hrep6 & Hs6).
  rewrite <- (array_reduce_run _ _ _ _ _ Hov) in Hred2.
  rewrite (bind_run _ _ _ _ _ Hred2).
  fold (dateOverrides zoneOffset zoneRemainder timeZone rules) in Hrep6.
  (* merge *)
  assert (Hs36 : stable (List.length h3) h3 h6).
  { apply (stable_trans _ h3 h5 h6 Hs35).
    apply (stable_weaken (List.length h4)); [lia | exact Hs6]. }
  assert (Hs06 : stable (List.length h0) h0 h6).
  { apply (stable_trans _ h0 h3 h6 Hs03).
    apply (stable_weaken (List.length h3)); [lia | exact Hs36]. }
  set (h7 := fun wd od => h6 ++ [ODays (@spread loc wd od)]).
  destruct (repDays_entries _ _ h6 _ _ Hrep3 Hs36) as (es1 & Hd1 & Hrel1).
  destruct (repDays_entries _ _ h6 _ _ Hrep6 (stable_refl _ _))
    as (es2 & Hd2 & Hrel2).
  rewrite (bind_run _ _ _ _ _ (readDays_run _ _ _ Hd1)).
  rewrite (bind_run _ _ _ _ _ (readDays_run _ _ _ Hd2)).
  rewrite (bind_run _ _ h6 (h7 es1 es2) (List.length h6)) by reflexivity.
  assert (Hm : nth_error (h7 es1 es2) (List.length h6)
               = Some (ODays (spread es1 es2)))
    by apply nth_error_alloc_new.
  rewrite (bind_run _ _ _ _ _ (readDays_run _ _ _ Hm)).
  (* values and flat *)
  set (h8 := h7 es1 es2 ++ [OArrays (map snd (spread es1 es2))]).
  rewrite (bind_run _ _ (h7 es1 es2) h8 (List.length (h7 es1 es2)))
    by reflexivity.
  assert (Hv : nth_error h8 (List.length (h7 es1 es2))
               = Some (OArrays (map snd (spread es1 es2))))
    by apply nth_error_alloc_new.
  rewrite (bind_run _ _ _ _ _ (readArrays_run _ _ _ Hv)).
  assert (Hs68 : stable (List.length h6) h6 h8).
  { eapply stable_trans; [apply stable_alloc; lia|].
    apply stable_alloc. unfold h7. rewrite length_app. simpl. lia. }
  assert (Hrel : entriesRel
                   (fun a v => nth_error h8 a = Some (OIntervals v))
                   (spread es1 es2)
                   (mergeAvailability zoneOffset zoneRemainder timeZone rules f t)).
  { apply entriesRel_spread.
    - apply (entriesRel_impl _ _ _ _ Hrel1). intros a v _ Hav.
      eapply stable_nth; eauto. eapply nth_error_lt; eauto.
    - apply (entriesRel_impl _ _ _ _ Hrel2). intros a v _ Hav.
      eapply stable_nth; eauto. eapply nth_error_lt; eauto. }
  rewrite (bind_run _ _ _ _ _ (flatM_run _ _ _ Hrel)).
  fold (getAvailability zoneOffset zoneRemainder timeZone rules f t).
  (* the result *)
  eexists. eexists. split; [reflexivity|].
  assert (Hs08 : stable (List.length h0) h0 h8).
  { apply (stable_trans _ h0 h6 h8 Hs06).
    apply (stable_weaken (List.length h6)); [apply Hs06 | exact Hs68]. }
  assert (Hs09 : stable (List.length h0) h0
                        (h8 ++ [OIntervals (getAvailability zoneOffset zoneRemainder timeZone
                                                            rules f t)])).
  { apply (stable_trans _ h0 h8 _ Hs08). apply stable_alloc. apply Hs08. }
  split; [apply Hs09|].
  split; [eapply inputAt_frame; eauto; exists ls; auto|].
  split; [eapply frame_nth; eauto|].
  split; [eapply frame_nth; eauto|].
  split; [apply Hs08|].
  apply nth_error_alloc_new.
Qed.

End Claims.

(** * Concrete runs *)

(** C1, an instance: in Berlin the override of 2024-01-02 replaces the
    recurring interval of that date. *)
Lemma override_precedence_witness :
  onDate "2024-01-02"
         (getAvailability sampleZones noRemainder "Europe/Berlin" [nineToFive; jan2Override]
                          jan1_2024 (jan1_2024 + 3 * MS_DAY))
  = [overrideInterval sampleZones noRemainder "Europe/Berlin" jan2Override
                      (jan1_2024 + MS_DAY)].
Proof.
  apply (override_precedence sampleZones noRemainder "Europe/Berlin"
           [nineToFive; jan2Override] jan1_2024 (jan1_2024 + 3 * MS_DAY)
           "2024-01-02"
           [blockInterval sampleZones noRemainder "Europe/Berlin" nineToFive
                          (utc (jan1_2024 + MS_DAY))]).
  - vm_compute. reflexivity.
  - vm_compute. reflexivity.
Defined.

(** C2, at a failing input.  In a zone west of Greenwich the override stored
    for 2024-01-02 is converted to the evening of 2024-01-01 before its hour
    and minute are set, so it is keyed "2024-01-01"; the recurring walk keys
    its interval of that day "2024-01-02".  The result keeps the recurring
    interval of 2024-01-02 and loses that of 2024-01-01. *)
Theorem override_date_converted :
  let tzName := "America/New_York"%string in
  let d := jan1_2024 + MS_DAY in
  format_ymd (utc d) = "2024-01-02"%string /\
  format_ymd (start (overrideInterval sampleZones noRemainder tzName jan2Override d))
  = "2024-01-01"%string /\
  format_ymd (start (blockInterval sampleZones noRemainder tzName nineToFive (utc d)))
  = "2024-01-02"%string /\
  wall (dayjs_tz sampleZones noRemainder d tzName) = d - 5 * MS_HOUR /\
  wall (tz_keepLocalTime sampleZones noRemainder tzName (utc d)) = d /\
  map (fun iv => (format_ymd (start iv), hour (start iv), hour (end_ iv)))
      (getAvailability sampleZones noRemainder tzName [nineToFive; jan2Override]
                       jan1_2024 (jan1_2024 + 3 * MS_DAY))
  = [("2024-01-01"%string, 10, 12); ("2024-01-02"%string, 9, 17);
     ("2024-01-03"%string, 9, 17)].
Proof. vm_compute. repeat split; reflexivity. Qed.

(** C3 as stated fails: with [dateTo] six hours before [dateFrom] on the same
    UTC day, that day is still walked. *)
Lemma dateTo_before_dateFrom_walks :
  ~ (forall zoneOffset zoneRemainder timeZone availability dateFrom dateTo,
        dateTo <= dateFrom ->
        getAvailability zoneOffset zoneRemainder timeZone availability dateFrom dateTo
        = values_flat (dateOverrides zoneOffset zoneRemainder timeZone availability)).
Proof.
  intros H.
  specialize (H sampleZones noRemainder "UTC"%string [nineToFive]
                (jan1_2024 + hours 12) (jan1_2024 + hours 6)).
  assert (Hle : jan1_2024 + hours 6 <= jan1_2024 + hours 12)
    by (vm_compute; discriminate).
  specialize (H Hle). vm_compute in H. discriminate H.
Qed.

(** C3 amended, an instance: [dateTo] at the midnight that starts
    [dateFrom]'s day. *)
Lemma no_walk_override_only_witness :
  getAvailability sampleZones noRemainder "UTC" [nineToFive; jan2Override]
                  (jan1_2024 + hours 12) jan1_2024
  = values_flat (dateOverrides sampleZones noRemainder "UTC" [nineToFive; jan2Override]).
Proof.
  apply (no_walk_override_only sampleZones noRemainder "UTC" [nineToFive; jan2Override]
           (jan1_2024 + hours 12) jan1_2024).
  vm_compute. discriminate.
Defined.

(** C4 as stated fails, on a day the zone changes its offset and in a zone
    whose offset is not a whole number of minutes.  On 2024-03-10 New York
    moves its clocks at 07:00 UTC: the interval of the rule 09:00-17:00
    shows 09:00 with the offset of five hours the zone had at 00:00 UTC,
    that is the instant 14:00 UTC, when the clocks in New York show 10:00.
    On 1850-01-01, with New York on local mean time, the start shows
    08:59:58. *)
Lemma recurring_start_not_zone_clock :
  ~ (forall zoneOffset zoneRemainder timeZone availability dateFrom dateTo block d,
        In block availability -> hasDays block = true ->
        In d (walkedDays dateFrom dateTo) ->
        includes (days block)
                 (day (start (blockInterval zoneOffset zoneRemainder timeZone block d)))
        = true ->
        let iv := blockInterval zoneOffset zoneRemainder timeZone block d in
        let shown := dayjs_tz zoneOffset zoneRemainder (valueOf (start iv)) timeZone in
        hour shown = getUTCHours (startTime block) /\
        minute shown = getUTCMinutes (startTime block)) /\
  ~ (forall zoneOffset zoneRemainder timeZone availability dateFrom dateTo block d,
        In block availability -> hasDays block = true ->
        In d (walkedDays dateFrom dateTo) ->
        includes (days block)
                 (day (start (blockInterval zoneOffset zoneRemainder timeZone block d)))
        = true ->
        let iv := blockInterval zoneOffset zoneRemainder timeZone block d in
        hour (start iv) = getUTCHours (startTime block) /\
        minute (start iv) = getUTCMinutes (startTime block)).
Proof.
  split; intros H.
  - specialize (H sampleZones noRemainder "America/New_York"%string [nineToFive]
                  mar10_2024 (mar10_2024 + MS_DAY) nineToFive (utc mar10_2024)).
    assert (H1 : In nineToFive [nineToFive]) by (left; reflexivity).
    assert (H2 : In (utc mar10_2024) (walkedDays mar10_2024 (mar10_2024 + MS_DAY)))
      by (vm_compute; left; reflexivity).
    specialize (H H1 eq_refl H2 eq_refl). vm_compute in H.
    destruct H as [H _]. discriminate H.
  - specialize (H oldZones oldRemainder "America/New_York"%string [nineToFive]
                  jan1_1850 (jan1_1850 + MS_DAY) nineToFive (utc jan1_1850)).
    assert (H1 : In nineToFive [nineToFive]) by (left; reflexivity).
    assert (H2 : In (utc jan1_1850) (walkedDays jan1_1850 (jan1_1850 + MS_DAY)))
      by (vm_compute; left; reflexivity).
    specialize (H H1 eq_refl H2 eq_refl). vm_compute in H.
    destruct H as [H _]. discriminate H.
Qed.

(** C4 amended, an instance: 09:00 in New York on 2024-01-01 is 09:00 with
    an offset of five hours, and the zone's clock shows 09:00 then. *)
Lemma recurring_wall_clock_witness :
  let iv := blockInterval sampleZones noRemainder "America/New_York" nineToFive
                          (utc jan1_2024) in
  hour (start iv) = 9 /\ minute (start iv) = 0 /\
  format_ymd (start iv) = "2024-01-01"%string /\
  offset (start iv) = -300 /\
  dayjs_tz sampleZones noRemainder (valueOf (start iv)) "America/New_York" = start iv.
Proof.
  cbv zeta.
  destruct (recurring_wall_clock sampleZones noRemainder "America/New_York" [nineToFive]
              jan1_2024 (jan1_2024 + 3 * MS_DAY)
              nineToFive (utc jan1_2024))
    as (_ & _ & _ & Ho & _ & _ & _ & Hf & Hz);
    [ left; reflexivity
    | reflexivity
    | vm_compute; left; reflexivity
    | vm_compute; reflexivity
    | ].
  destruct (Hf eq_refl) as (Hh & Hm & _ & _ & Hd & _).
  rewrite Hh, Hm, Hd, Ho, (Hz eq_refl eq_refl). repeat split; reflexivity.
Defined.

(** The same rule on 2024-03-10: the start shows 09:00 and carries the
    offset of 00:00 UTC, while the zone's clock shows 10:00 at that
    instant. *)
Example recurring_on_offset_change :
  let iv := blockInterval sampleZones noRemainder "America/New_York" nineToFive
                          (utc mar10_2024) in
  (hour (start iv), minute (start iv), offset (start iv)) = (9, 0, -300) /\
  valueOf (start iv) = mar10_2024 + hours 14 /\
  sampleZones "America/New_York" (valueOf (start iv)) = -240 /\
  hour (dayjs_tz sampleZones noRemainder (valueOf (start iv)) "America/New_York") = 10.
Proof. vm_compute. repeat split; reflexivity. Qed.

(** A rule 00:00-01:00 in New York on 1850-01-01, on local mean time: the
    start shows 23:59:58 of the day before, the end 00:59:58 of the walked
    day. *)
Example recurring_in_old_new_york :
  let iv := blockInterval oldZones oldRemainder "America/New_York"
              (mkRule 0 (hours 1) None (Some everyDay)) (utc jan1_1850) in
  (format_ymd (start iv), hour (start iv), minute (start iv), second (start iv))
  = ("1849-12-31"%string, 23, 59, 58) /\
  (format_ymd (end_ iv), hour (end_ iv), minute (end_ iv), second (end_ iv))
  = ("1850-01-01"%string, 0, 59, 58) /\
  offset (start iv) = -296.
Proof. vm_compute. repeat split; reflexivity. Qed.

(** C5 as stated fails: a rule from 17:00 to 09:00 gives an interval that
    ends before it starts. *)
Lemma interval_may_end_before_start :
  ~ (forall zoneOffset zoneRemainder timeZone availability dateFrom dateTo iv,
        In iv (getAvailability zoneOffset zoneRemainder timeZone availability
                               dateFrom dateTo) ->
        valueOf (start iv) < valueOf (end_ iv)).
Proof.
  intros H.
  set (r := mkRule (hours 17) (hours 9) None (Some everyDay)).
  specialize (H sampleZones noRemainder "UTC"%string [r] jan1_2024 (jan1_2024 + MS_DAY)
                (blockInterval sampleZones noRemainder "UTC" r (utc jan1_2024))).
  assert (Hin : In (blockInterval sampleZones noRemainder "UTC" r (utc jan1_2024))
                   (getAvailability sampleZones noRemainder "UTC" [r] jan1_2024
                                    (jan1_2024 + MS_DAY)))
    by (vm_compute; left; reflexivity).
  specialize (H Hin). vm_compute in H. discriminate H.
Qed.

(** C5 amended, an instance. *)
Lemma intervals_ordered_witness :
  let iv := blockInterval sampleZones noRemainder "America/New_York" nineToFive
                          (utc (jan1_2024 + MS_DAY)) in
  valueOf (start iv) < valueOf (end_ iv).
Proof.
  cbv zeta.
  apply (intervals_ordered sampleZones noRemainder "America/New_York"
           [nineToFive; jan2Override] jan1_2024 (jan1_2024 + 3 * MS_DAY)).
  - intros r [<- | [<- | []]]; vm_compute; reflexivity.
  - vm_compute. right. left. reflexivity.
Defined.

(** C6 as stated fails: a rule that has a [date] and a non-empty [days] also
    goes through the recurring walk. *)
Lemma dated_rule_is_walked :
  ~ (forall zoneOffset zoneRemainder timeZone before r after dateFrom dateTo,
        date r <> None ->
        workingDates zoneOffset zoneRemainder timeZone (before ++ r :: after) dateFrom dateTo
        = workingDates zoneOffset zoneRemainder timeZone (before ++ after) dateFrom dateTo).
Proof.
  intros H.
  set (r := mkRule (hours 10) (hours 12) (Some (jan1_2024 + MS_DAY))
                   (Some everyDay)).
  specialize (H sampleZones noRemainder "UTC"%string [] r [] jan1_2024
                (jan1_2024 + MS_DAY)).
  assert (Hd : date r <> None) by discriminate.
  specialize (H Hd). vm_compute in H. discriminate H.
Qed.

(** C6 amended, an instance: an override with empty [days] and a recurring
    rule with no [date]. *)
Lemma rule_contributions_witness :
  dateOverrides sampleZones noRemainder "UTC" [nineToFive; jan2Override]
  = dateOverrides sampleZones noRemainder "UTC" [jan2Override] /\
  workingDates sampleZones noRemainder "UTC" [nineToFive; jan2Override]
               jan1_2024 (jan1_2024 + 3 * MS_DAY)
  = workingDates sampleZones noRemainder "UTC" [nineToFive]
                 jan1_2024 (jan1_2024 + 3 * MS_DAY) /\
  In (overrideInterval sampleZones noRemainder "UTC" jan2Override (jan1_2024 + MS_DAY))
     (values_flat (dateOverrides sampleZones noRemainder "UTC" [nineToFive; jan2Override])) /\
  In (blockInterval sampleZones noRemainder "UTC" nineToFive (utc jan1_2024))
     (values_flat (workingDates sampleZones noRemainder "UTC" [nineToFive; jan2Override]
                                jan1_2024 (jan1_2024 + 3 * MS_DAY))).
Proof.
  split; [|split; [|split]].
  - apply (proj1 (rule_contributions sampleZones noRemainder "UTC" [] [jan2Override]
                    nineToFive jan1_2024 jan1_2024)).
    reflexivity.
  - apply (proj1 (proj2 (rule_contributions sampleZones noRemainder "UTC" [nineToFive] []
                           jan2Override jan1_2024 (jan1_2024 + 3 * MS_DAY)))).
    right. reflexivity.
  - apply (proj1 (proj2 (proj2 (rule_contributions sampleZones noRemainder "UTC"
                                   [nineToFive] [] jan2Override
                                   jan1_2024 jan1_2024)))).
    reflexivity.
  - apply (proj2 (proj2 (proj2 (rule_contributions sampleZones noRemainder "UTC"
                                   [] [jan2Override] nineToFive jan1_2024
                                   (jan1_2024 + 3 * MS_DAY))))).
    + reflexivity.
    + vm_compute. left. reflexivity.
    + vm_compute. reflexivity.
Defined.



(** Where the walk starts outside the years 0100..9999: a date of the year
    0000 is read as the same day of 1900 (and 1900 has no 29 February), a
    date past the year 9999 or before the year 0000 goes to the first of
    its month. *)
Example walk_start_other_years :
  civil (utcStartOfDay (daysFromCivil 0 2 29 * MS_DAY) / MS_DAY) = (1900, 3, 1) /\
  civil (utcStartOfDay (daysFromCivil 99 12 31 * MS_DAY) / MS_DAY) = (1999, 12, 31) /\
  civil (utcStartOfDay (daysFromCivil 12024 1 2 * MS_DAY) / MS_DAY) = (12024, 1, 1) /\
  civil (utcStartOfDay (daysFromCivil (-1) 6 15 * MS_DAY) / MS_DAY) = (-1, 6, 1) /\
  civil (utcStartOfDay (daysFromCivil 100 1 1 * MS_DAY) / MS_DAY) = (100, 1, 1) /\
  civil (utcStartOfDay (daysFromCivil 9999 12 31 * MS_DAY) / MS_DAY) = (9999, 12, 31).
Proof. vm_compute. repeat split; reflexivity. Qed.

(** The date text of years with more or fewer than four digits. *)
Example ymd_other_years :
  ymd (daysFromCivil 12024 1 2) = "12024-01-02"%string /\
  ymd (daysFromCivil 50 1 1) = "0050-01-01"%string /\
  ymd (daysFromCivil (-5) 3 4) = "00-5-03-04"%string.
Proof. vm_compute. repeat split; reflexivity. Qed.

(** C8, an instance: the same clock times stored on 1970-01-01 and on
    2024-01-01. *)
Lemma stored_dates_ignored_witness :
  getAvailability sampleZones noRemainder "America/New_York"
    [nineToFive; jan2Override] jan1_2024 (jan1_2024 + 3 * MS_DAY)
  = getAvailability sampleZones noRemainder "America/New_York"
      [mkRule (jan1_2024 + hours 9) (jan1_2024 + hours 17) None (Some everyDay);
       mkRule (jan1_2024 + hours 10) (jan1_2024 + hours 12)
              (Some (jan1_2024 + MS_DAY)) (Some [])]
      jan1_2024 (jan1_2024 + 3 * MS_DAY).
Proof.
  apply stored_dates_ignored.
  repeat constructor.
Defined.

(** C10 as stated fails in a zone whose offset is not a whole number of
    minutes.  In Monrovia in 1971, 44 minutes 30 seconds behind UTC, an
    override for an instant with seconds 0 starts at seconds 30, and one for
    an instant with seconds 30 starts on the minute. *)
Lemma override_seconds_from_zone_clock :
  ~ (forall zoneOffset zoneRemainder timeZone override d,
        second (start (overrideInterval zoneOffset zoneRemainder timeZone override d))
        = getUTCSeconds d) /\
  ~ (forall zoneOffset zoneRemainder timeZone override d,
        valueOf (start (overrideInterval zoneOffset zoneRemainder timeZone override d))
          mod MS_MINUTE = 0 ->
        d mod MS_MINUTE = 0).
Proof.
  split; intros H.
  - specialize (H oldZones oldRemainder "Africa/Monrovia"%string
                  (mkRule (hours 10) (hours 12) (Some jan1_1971) (Some []))
                  jan1_1971).
    vm_compute in H. discriminate H.
  - specialize (H oldZones oldRemainder "Africa/Monrovia"%string
                  (mkRule (hours 10) (hours 12) (Some (jan1_1971 + 30000)) (Some []))
                  (jan1_1971 + 30000) eq_refl).
    vm_compute in H. discriminate H.
Qed.

(** C10 amended, an instance: an override whose [date] carries 30.250
    seconds, in a zone with a whole-minute offset. *)
Lemma override_keeps_seconds_witness :
  let r := mkRule (hours 10) (hours 12) (Some (jan1_2024 + 30250)) (Some []) in
  let iv := overrideInterval sampleZones noRemainder "Europe/Berlin" r (jan1_2024 + 30250) in
  second (start iv) = 30 /\ millisecond (start iv) = 250 /\
  second (end_ iv) = 30 /\ millisecond (end_ iv) = 250.
Proof.
  cbv zeta.
  destruct (override_keeps_seconds sampleZones noRemainder "Europe/Berlin"
              [mkRule (hours 10) (hours 12) (Some (jan1_2024 + 30250)) (Some [])]
              (mkRule (hours 10) (hours 12) (Some (jan1_2024 + 30250)) (Some []))
              (jan1_2024 + 30250))
    as (_ & _ & _ & _ & _ & _ & _ & _ & _ & _ & _ & Hd);
    [ left; reflexivity | reflexivity | ].
  destruct (Hd eq_refl) as (Hs & Hms & Hes & Hems & _).
  rewrite Hs, Hms, Hes, Hems. repeat split; reflexivity.
Defined.

(** The same override in Monrovia in 1971: the seconds are those of the
    zone's clock. *)
Example override_in_monrovia :
  let iv := overrideInterval oldZones oldRemainder "Africa/Monrovia"
              (mkRule (hours 10) (hours 12) (Some jan1_1971) (Some [])) jan1_1971 in
  (format_ymd (start iv), hour (start iv), minute (start iv), second (start iv))
  = ("1970-12-31"%string, 10, 0, 30) /\
  offset (start iv) = -45.
Proof. vm_compute. split; reflexivity. Qed.

(** C9, an instance: the run on [sampleStore]. *)
Lemma inputs_unchanged_result_fresh_witness :
  exists result h',
    getAvailabilityM sampleZones noRemainder "America/New_York" 9%nat 10%nat 11%nat
                     sampleStore = Some (result, h') /\
    (forall l, (l < List.length sampleStore)%nat ->
               nth_error h' l = nth_error sampleStore l) /\
    (List.length sampleStore <= result)%nat /\
    nth_error h' result
    = Some (OIntervals
              (getAvailability sampleZones noRemainder "America/New_York"
                 [nineToFive; jan2Override]
                 jan1_2024 (jan1_2024 + 3 * MS_DAY))).
Proof.
  destruct (inputs_unchanged_result_fresh sampleZones noRemainder "America/New_York"
              sampleStore 9%nat 10%nat 11%nat [nineToFive; jan2Override]
              jan1_2024 (jan1_2024 + 3 * MS_DAY))
    as (result & h' & Hrun & Hold & _ & _ & _ & Hnew & Hres).
  - exists [3%nat; 8%nat]. split; [reflexivity|].
    constructor; [|constructor; [|constructor]].
    + exists (mkRuleObj 0%nat 1%nat None (Some 2%nat)).
      repeat split; reflexivity.
    + exists (mkRuleObj 4%nat 5%nat (Some 6%nat) (Some 7%nat)).
      repeat split; reflexivity.
  - reflexivity.
  - reflexivity.
  - exists result, h'. auto.
Defined.

(** Further runs: no rules, the weekday test, two rules on one day. *)

Example empty_availability :
  getAvailability sampleZones noRemainder "Europe/Berlin" [] jan1_2024
                  (jan1_2024 + 21 * MS_DAY) = [].
Proof. reflexivity. Qed.

Example mondays_only :
  map (fun iv => (format_ymd (start iv), day (start iv)))
      (getAvailability sampleZones noRemainder "Asia/Kolkata"
         [mkRule (hours 9) (hours 17) None (Some [1])]
         jan1_2024 (jan1_2024 + 21 * MS_DAY))
  = [("2024-01-01"%string, 1); ("2024-01-08"%string, 1);
     ("2024-01-15"%string, 1)].
Proof. vm_compute. reflexivity. Qed.

Example two_rules_same_day :
  map (fun iv => (format_ymd (start iv), hour (start iv), hour (end_ iv)))
      (getAvailability sampleZones noRemainder "UTC"
         [mkRule (hours 9) (hours 12) None (Some [1]);
          mkRule (hours 13) (hours 17) None (Some [1])]
         jan1_2024 (jan1_2024 + MS_DAY))
  = [("2024-01-01"%string, 9, 12); ("2024-01-01"%string, 13, 17)].
Proof. vm_compute. reflexivity. Qed.

(** * Further properties of [getAvailability] *)

(** ** The number of walked days *)

Lemma length_loopDays (fuel : nat) : forall (w t : Z),
  Z.of_nat fuel <= (t - w + (MS_DAY - 1)) / MS_DAY ->
  List.length (loopDays fuel (utc t) (utc w)) = fuel.
Proof.
  induction fuel as [|fuel IH]; intros w t Hf; simpl; auto.
  rewrite isBefore_utc.
  assert (Hlt : w < t) by (revert Hf; rewrite Nat2Z.inj_succ; clock_arith).
  apply Z.ltb_lt in Hlt. rewrite Hlt. simpl. f_equal.
  rewrite add_day_utc. apply IH.
  revert Hf. rewrite Nat2Z.inj_succ. clock_arith.
Qed.

(** X1. The loop walks as many days as there are midnights from the instant
    the walk starts at ([utcStartOfDay]) that lie before [dateTo], and none
    when [dateTo] is not after that start. *)
Theorem walked_day_count (dateFrom dateTo : Date) :
  Z.of_nat (List.length (walkedDays dateFrom dateTo))
  = Z.max 0 ((dateTo - utcStartOfDay dateFrom + (MS_DAY - 1)) / MS_DAY).
Proof.
  unfold walkedDays.
  pose proof (length_loopDays (walkFuel dateFrom dateTo)
                              (utcStartOfDay dateFrom) dateTo) as Hlen.
  unfold walkFuel in *.
  set (X := (dateTo - utcStartOfDay dateFrom + (MS_DAY - 1)) / MS_DAY) in *.
  destruct (Z_lt_le_dec X 0) as [Hneg | Hpos].
  - replace (Z.to_nat X) with 0%nat by lia. simpl. lia.
  - rewrite Hlen; lia.
Qed.

(** ** No interval is lost or repeated *)

Lemma append_nil (k : string) (x : Interval) : append k x [] = [(k, [x])].
Proof. unfold append, push, ensure. simpl. now rewrite String.eqb_refl. Qed.

Lemma append_cons (k k' : string) (x : Interval) (v' : list Interval)
      (rest : DayMap) :
  append k x ((k', v') :: rest) =
  if String.eqb k k' then (k', v' ++ [x]) :: rest
  else (k', v') :: append k x rest.
Proof.
  unfold append, push. rewrite !(get_ensure k k), String.eqb_refl.
  unfold ensure. cbn [get set]. destruct (String.eqb k k') eqn:E.
  - cbn [set]. now rewrite E.
  - cbn [set]. now rewrite E.
Qed.

Lemma values_flat_append (k : string) (x : Interval) (obj : DayMap) :
  Permutation (values_flat (append k x obj)) (x :: values_flat obj).
Proof.
  induction obj as [|[k' v'] rest IH].
  - rewrite append_nil. apply Permutation_refl.
  - rewrite append_cons. destruct (String.eqb k k').
    + rewrite !values_flat_cons. rewrite <- app_assoc. simpl.
      apply Permutation_sym. apply Permutation_middle.
    + rewrite !values_flat_cons.
      eapply Permutation_trans; [apply Permutation_app_head, IH|].
      apply Permutation_sym. apply Permutation_middle.
Qed.

Section Comprehensions.

Variable zoneOffset : string -> Z -> Z.
Variable zoneRemainder : string -> Z -> Z.
Variable timeZone : string.

Lemma walkBlock_perm (dateFrom dateTo : Date) (block : Rule) : forall acc,
  Permutation
    (values_flat (walkBlock zoneOffset zoneRemainder timeZone dateFrom dateTo acc block))
    (values_flat acc ++
     flat_map
       (fun d =>
          if includes (days block)
                      (day (start (blockInterval zoneOffset zoneRemainder timeZone block d)))
          then [blockInterval zoneOffset zoneRemainder timeZone block d] else [])
       (walkedDays dateFrom dateTo)).
Proof.
  unfold walkBlock.
  induction (walkedDays dateFrom dateTo) as [|d ds IH]; intros acc; simpl.
  - now rewrite app_nil_r.
  - eapply Permutation_trans; [apply IH|].
    rewrite walkStep_append. destruct (includes _ _); simpl; auto.
    eapply Permutation_trans;
      [apply Permutation_app_tail, values_flat_append|].
    simpl. apply Permutation_middle.
Qed.

Lemma fold_walkBlock_perm (dateFrom dateTo : Date) (l : list Rule) :
  forall acc,
  Permutation
    (values_flat (fold_left (walkBlock zoneOffset zoneRemainder timeZone dateFrom dateTo) l acc))
    (values_flat acc ++
     flat_map
       (fun block =>
          flat_map
            (fun d =>
               if includes (days block)
                    (day (start (blockInterval zoneOffset zoneRemainder timeZone block d)))
               then [blockInterval zoneOffset zoneRemainder timeZone block d] else [])
            (walkedDays dateFrom dateTo)) l).
Proof.
  induction l as [|b l IH]; intros acc; simpl.
  - now rewrite app_nil_r.
  - eapply Permutation_trans; [apply IH|].
    rewrite app_assoc. apply Permutation_app_tail. apply walkBlock_perm.
Qed.

Lemma fold_overrideStep_perm (l : list Rule) : forall acc,
  Permutation
    (values_flat (fold_left (overrideStep zoneOffset zoneRemainder timeZone)
                            (filter hasDate l) acc))
    (values_flat acc ++
     flat_map (fun override =>
                 match date override with
                 | Some d => [overrideInterval zoneOffset zoneRemainder timeZone override d]
                 | None => []
                 end) l).
Proof.
  induction l as [|b l IH]; intros acc; simpl.
  - now rewrite app_nil_r.
  - unfold hasDate at 1. destruct (date b) as [d|] eqn:E; simpl; auto.
    eapply Permutation_trans; [apply IH|].
    rewrite overrideStep_append, E.
    eapply Permutation_trans;
      [apply Permutation_app_tail, values_flat_append|].
    simpl. apply Permutation_middle.
Qed.

(** X2. The recurring expansion holds, with multiplicity, exactly one
    interval for every rule with [days] and every walked day whose weekday
    is in the rule's [days]: none is dropped, merged or repeated. *)
Theorem recurring_expansion_complete (availability : list Rule)
        (dateFrom dateTo : Date) :
  Permutation
    (values_flat (workingDates zoneOffset zoneRemainder timeZone availability dateFrom dateTo))
    (recurringIntervals zoneOffset zoneRemainder timeZone availability dateFrom dateTo).
Proof.
  rewrite workingDates_fold. unfold recurringIntervals.
  apply (fold_walkBlock_perm dateFrom dateTo (filter hasDays availability) []).
Qed.

(** X3. The override expansion holds, with multiplicity, exactly one
    interval for every rule with a [date]; in particular it has as many
    intervals as there are such rules. *)
Theorem override_expansion_complete (availability : list Rule) :
  Permutation (values_flat (dateOverrides zoneOffset zoneRemainder timeZone availability))
              (overrideIntervals zoneOffset zoneRemainder timeZone availability) /\
  List.length (values_flat (dateOverrides zoneOffset zoneRemainder timeZone availability))
  = List.length (filter hasDate availability).
Proof.
  assert (Hperm : Permutation
            (values_flat (dateOverrides zoneOffset zoneRemainder timeZone availability))
            (overrideIntervals zoneOffset zoneRemainder timeZone availability))
    by apply (fold_overrideStep_perm availability []).
  split; auto.
  rewrite (Permutation_length Hperm). unfold overrideIntervals. clear Hperm.
  induction availability as [|b l IH]; simpl; auto.
  unfold hasDate at 1. destruct (date b); simpl; auto.
Qed.

End Comprehensions.

(** ** What the result holds, and in which order *)

Lemma In_NoDup_get (k : string) (v : list Interval) (obj : DayMap) :
  NoDup (keys obj) -> In (k, v) obj -> get k obj = Some v.
Proof.
  induction obj as [|[k' v'] rest IH]; intros Hnd Hin; [destruct Hin|].
  cbn [keys map fst] in Hnd. inversion Hnd as [|? ? Hnin Hnd']; subst.
  cbn [get]. destruct Hin as [[= -> ->] | Hin].
  - now rewrite String.eqb_refl.
  - destruct (String.eqb k k') eqn:E; auto.
    apply String.eqb_eq in E. subst k'. exfalso. apply Hnin.
    change (In (fst (k, v)) (map fst rest)). now apply in_map.
Qed.

Lemma In_values_keyed (obj : DayMap) (iv : Interval) :
  keyed obj -> NoDup (keys obj) ->
  (In iv (values_flat obj) <->
   exists v, get (format_ymd (start iv)) obj = Some v /\ In iv v).
Proof.
  intros Hk Hnd. split.
  - intros Hin. unfold values_flat in Hin. apply in_concat in Hin.
    destruct Hin as [v [Hv Hiv]]. apply in_map_iff in Hv.
    destruct Hv as [[k v'] [Heq Hkv]]. simpl in Heq. subst v'.
    exists v. split; auto.
    assert (Hkey : format_ymd (start iv) = k).
    { unfold keyed, allEntries in Hk. rewrite Forall_forall in Hk.
      specialize (Hk _ Hkv). simpl in Hk. rewrite Forall_forall in Hk. auto. }
    rewrite Hkey. now apply In_NoDup_get.
  - intros [v [Hg Hiv]]. apply get_Some_In in Hg.
    unfold values_flat. apply in_concat. exists v. split; auto.
    change v with (snd (format_ymd (start iv), v)). now apply in_map.
Qed.

Lemma flat_map_ext_In {A B : Type} (f g : A -> list B) (l : list A) :
  (forall a, In a l -> f a = g a) -> flat_map f l = flat_map g l.
Proof.
  induction l as [|a l IH]; intros H; simpl; auto.
  rewrite (H a) by (now left). f_equal. apply IH. intros; apply H; now right.
Qed.

Lemma values_flat_by_keys (obj : DayMap) :
  NoDup (keys obj) ->
  values_flat obj
  = flat_map (fun k => match get k obj with Some v => v | None => [] end)
             (keys obj).
Proof.
  induction obj as [|[k v] rest IH]; intros Hnd; auto.
  cbn [keys map fst] in Hnd. inversion Hnd as [|? ? Hnin Hnd']; subst.
  rewrite values_flat_cons. cbn [keys map fst flat_map get].
  rewrite String.eqb_refl. f_equal. rewrite IH by auto.
  apply flat_map_ext_In. intros k' Hk'.
  destruct (String.eqb k' k) eqn:E; auto.
  apply String.eqb_eq in E. subst. contradiction.
Qed.

Lemma absent_In (ks : list string) (k : string) :
  absent ks k = false <-> In k ks.
Proof.
  unfold absent. rewrite negb_false_iff, existsb_exists. split.
  - intros [x [Hx E]]. apply String.eqb_eq in E. now subst.
  - intros H. exists k. split; auto. apply String.eqb_refl.
Qed.

Lemma fold_set_keys (b : DayMap) : forall acc : DayMap,
  NoDup (keys b) ->
  keys (fold_left (fun obj kv => set (fst kv) (snd kv) obj) b acc)
  = keys acc ++ filter (absent (keys acc)) (keys b).
Proof.
  induction b as [|[k v] b IH]; intros acc Hnd.
  - simpl. now rewrite app_nil_r.
  - cbn [keys map fst] in Hnd. inversion Hnd as [|? ? Hnin Hnd']; subst.
    cbn [fold_left fst snd]. rewrite IH by auto. rewrite keys_set.
    cbn [keys map fst filter].
    destruct (get k acc) eqn:E.
    + assert (Hin : In k (keys acc)).
      { destruct (absent (keys acc) k) eqn:A.
        - exfalso. assert (Hn : get k acc = None).
          { apply get_None_keys. intros Hin. apply absent_In in Hin. congruence. }
          congruence.
        - now apply absent_In. }
      apply absent_In in Hin. now rewrite Hin.
    + apply get_None_keys in E.
      assert (Ha : absent (keys acc) k = true).
      { destruct (absent (keys acc) k) eqn:A; auto.
        apply absent_In in A. contradiction. }
      rewrite Ha. rewrite <- app_assoc. simpl. f_equal. f_equal.
      apply filter_ext_in. intros k' Hk'. unfold absent.
      rewrite existsb_app. simpl.
      destruct (String.eqb k' k) eqn:E'.
      * apply String.eqb_eq in E'. subst. contradiction.
      * now rewrite !orb_false_r.
Qed.

Lemma keys_spread (a b : DayMap) :
  NoDup (keys a) -> NoDup (keys b) ->
  keys (spread a b) = keys a ++ filter (absent (keys a)) (keys b).
Proof.
  intros Ha Hb. unfold spread. rewrite fold_left_app.
  rewrite fold_set_keys by auto.
  rewrite (fold_set_fresh a []) by auto. reflexivity.
Qed.

Lemma inhabited_append (k : string) (x : Interval) (obj : DayMap) :
  inhabited obj -> inhabited (append k x obj).
Proof.
  unfold inhabited. induction 1 as [|[k' v'] rest Hx Hrest IH].
  - rewrite append_nil. constructor; auto. simpl. discriminate.
  - rewrite append_cons. destruct (String.eqb k k').
    + constructor; auto. simpl. intros H. now apply app_eq_nil in H as [_ H].
    + constructor; auto.
Qed.

Lemma inhabited_key (obj : DayMap) (k : string) :
  inhabited obj -> keyed obj -> In k (keys obj) ->
  exists iv, In iv (values_flat obj) /\ format_ymd (start iv) = k.
Proof.
  unfold inhabited, keyed, allEntries.
  induction 1 as [|[k' v'] rest Hx Hrest IH]; intros Hk Hin; [destruct Hin|].
  inversion Hk as [|? ? Hk1 Hk2]; subst. simpl in Hx, Hk1.
  rewrite values_flat_cons. destruct Hin as [<- | Hin].
  - destruct v' as [|iv v']; [congruence|]. exists iv. split.
    + now left.
    + now inversion Hk1.
  - destruct (IH Hk2 Hin) as (iv & H1 & H2). exists iv. split; auto.
    apply in_app_iff. now right.
Qed.

Section Result.

Variable zoneOffset : string -> Z -> Z.
Variable zoneRemainder : string -> Z -> Z.
Variable timeZone : string.

Lemma workingDates_inhabited availability dateFrom dateTo :
  inhabited (workingDates zoneOffset zoneRemainder timeZone availability dateFrom dateTo).
Proof.
  apply (workingDates_inv zoneOffset zoneRemainder timeZone inhabited).
  - intros. now apply inhabited_append.
  - constructor.
Qed.

Lemma dateOverrides_inhabited availability :
  inhabited (dateOverrides zoneOffset zoneRemainder timeZone availability).
Proof.
  apply (dateOverrides_inv zoneOffset zoneRemainder timeZone inhabited).
  - intros. now apply inhabited_append.
  - constructor.
Qed.

(** A date is a key of the override expansion exactly when an override
    interval starts on it. *)
Lemma dateOverrides_key availability (k : string) :
  get k (dateOverrides zoneOffset zoneRemainder timeZone availability) = None <->
  forall o, In o (overrideIntervals zoneOffset zoneRemainder timeZone availability) ->
            format_ymd (start o) <> k.
Proof.
  assert (Hperm : Permutation
            (values_flat (dateOverrides zoneOffset zoneRemainder timeZone availability))
            (overrideIntervals zoneOffset zoneRemainder timeZone availability))
    by apply (fold_overrideStep_perm zoneOffset zoneRemainder timeZone availability []).
  rewrite get_None_keys. split.
  - intros Hnin o Ho Heq. apply get_None_keys in Hnin.
    apply (Permutation_in _ (Permutation_sym Hperm)) in Ho.
    apply In_values_keyed in Ho;
      [|apply dateOverrides_keyed | apply dateOverrides_NoDup].
    destruct Ho as [v [Hg _]]. rewrite Heq in Hg. congruence.
  - intros Hall Hin.
    destruct (inhabited_key _ k (dateOverrides_inhabited availability)
                (dateOverrides_keyed zoneOffset zoneRemainder timeZone availability) Hin)
      as (iv & Hiv & Hk).
    apply (Permutation_in _ Hperm) in Hiv. exact (Hall iv Hiv Hk).
Qed.

(** X4. What the result holds: an interval is returned exactly when it is
    the interval of an override rule, or it is an interval of the recurring
    expansion and no override interval starts on its date. *)
Theorem result_membership (availability : list Rule) (dateFrom dateTo : Date)
        (iv : Interval) :
  In iv (getAvailability zoneOffset zoneRemainder timeZone availability dateFrom dateTo) <->
  In iv (overrideIntervals zoneOffset zoneRemainder timeZone availability) \/
  (In iv (recurringIntervals zoneOffset zoneRemainder timeZone availability dateFrom dateTo) /\
   forall o, In o (overrideIntervals zoneOffset zoneRemainder timeZone availability) ->
             format_ymd (start o) <> format_ymd (start iv)).
Proof.
  assert (Hov : Permutation
            (values_flat (dateOverrides zoneOffset zoneRemainder timeZone availability))
            (overrideIntervals zoneOffset zoneRemainder timeZone availability))
    by apply (fold_overrideStep_perm zoneOffset zoneRemainder timeZone availability []).
  assert (Hrec : Permutation
            (values_flat (workingDates zoneOffset zoneRemainder timeZone availability
                                       dateFrom dateTo))
            (recurringIntervals zoneOffset zoneRemainder timeZone availability
                                dateFrom dateTo)).
  { rewrite workingDates_fold. unfold recurringIntervals.
    apply (fold_walkBlock_perm zoneOffset zoneRemainder timeZone dateFrom dateTo
                               (filter hasDays availability) []). }
  pose proof (workingDates_NoDup zoneOffset zoneRemainder timeZone availability dateFrom dateTo)
    as Hnd1.
  pose proof (dateOverrides_NoDup zoneOffset zoneRemainder timeZone availability) as Hnd2.
  pose proof (workingDates_keyed zoneOffset zoneRemainder timeZone availability dateFrom dateTo)
    as Hk1.
  pose proof (dateOverrides_keyed zoneOffset zoneRemainder timeZone availability) as Hk2.
  unfold getAvailability.
  rewrite In_values_keyed
    by (apply mergeAvailability_keyed || apply NoDup_keys_spread).
  unfold mergeAvailability. rewrite get_spread by auto.
  rewrite <- dateOverrides_key. split.
  - intros [v [Hg Hiv]].
    destruct (get (format_ymd (start iv))
                  (dateOverrides zoneOffset zoneRemainder timeZone availability)) eqn:E.
    + injection Hg as ->. left. apply (Permutation_in _ Hov).
      apply In_values_keyed; eauto.
    + right. split; auto. apply (Permutation_in _ Hrec).
      apply In_values_keyed; eauto.
  - intros [Hin | [Hin Hnone]].
    + apply (Permutation_in _ (Permutation_sym Hov)) in Hin.
      apply In_values_keyed in Hin; auto. destruct Hin as [v [Hg Hiv]].
      exists v. now rewrite Hg.
    + apply (Permutation_in _ (Permutation_sym Hrec)) in Hin.
      apply In_values_keyed in Hin; auto. destruct Hin as [v [Hg Hiv]].
      exists v. now rewrite Hnone.
Qed.


End Result.

(** *** The expansions as groupings of the comprehensions *)

Lemma keys_append (k : string) (x : Interval) (obj : DayMap) :
  keys (append k x obj) =
  if existsb (String.eqb k) (keys obj) then keys obj else keys obj ++ [k].
Proof.
  induction obj as [|[k' v'] rest IH].
  - now rewrite append_nil.
  - rewrite append_cons. cbn [keys map fst existsb].
    destruct (String.eqb k k'); cbn [orb keys map fst]; auto.
    fold (keys (append k x rest)). fold (keys rest). rewrite IH.
    now destruct (existsb (String.eqb k) (keys rest)).
Qed.

Lemma keys_groupByDate (l : list Interval) : forall acc,
  keys (groupByDate l acc) = keys acc ++ firstSeen (keys acc) (map dateOf l).
Proof.
  unfold groupByDate.
  induction l as [|x l IH]; intros acc; cbn [fold_left map firstSeen].
  - now rewrite app_nil_r.
  - rewrite IH, keys_append.
    destruct (existsb (String.eqb (dateOf x)) (keys acc)); auto.
    now rewrite <- app_assoc.
Qed.

Lemma get_groupByDate (l : list Interval) : forall acc k,
  get k (groupByDate l acc) =
  match get k acc, onDate k l with
  | Some v, found => Some (v ++ found)
  | None, [] => None
  | None, found => Some found
  end.
Proof.
  unfold groupByDate.
  induction l as [|x l IH]; intros acc k; cbn [fold_left].
  - unfold onDate. cbn [filter]. destruct (get k acc); auto.
    now rewrite app_nil_r.
  - rewrite IH, get_append. unfold onDate, dateOf. cbn [filter].
    destruct (String.eqb (format_ymd (start x)) k) eqn:E.
    + apply String.eqb_eq in E. subst k.
      destruct (get (format_ymd (start x)) acc); cbn [app];
        now rewrite <- ?app_assoc.
    + now destruct (get k acc).
Qed.

Lemma existsb_eqb_In (k : string) (ks : list string) :
  existsb (String.eqb k) ks = true <-> In k ks.
Proof.
  rewrite existsb_exists. split.
  - intros [x [Hx E]]. apply String.eqb_eq in E. now subst.
  - intros H. exists k. split; auto. apply String.eqb_refl.
Qed.

Lemma In_firstSeen (l : list string) : forall seen k,
  In k (firstSeen seen l) <-> In k l /\ ~ In k seen.
Proof.
  induction l as [|k0 l IH]; intros seen k; cbn [firstSeen In].
  - tauto.
  - destruct (existsb (String.eqb k0) seen) eqn:E.
    + apply existsb_eqb_In in E. rewrite IH. split.
      * tauto.
      * intros [[<- | H] Hn]; tauto.
    + assert (Hn0 : ~ In k0 seen)
        by (intros H; apply existsb_eqb_In in H; congruence).
      cbn [In]. rewrite IH, in_app_iff. cbn [In]. split.
      * intros [<- | [H Hn]]; tauto.
      * intros [[<- | H] Hn]; [tauto|].
        destruct (string_dec k0 k); [tauto|]. right. tauto.
Qed.

Lemma NoDup_firstSeen (l : list string) : forall seen,
  NoDup (firstSeen seen l).
Proof.
  induction l as [|k0 l IH]; intros seen; cbn [firstSeen].
  - constructor.
  - destruct (existsb (String.eqb k0) seen); auto.
    constructor; auto. rewrite In_firstSeen, in_app_iff. cbn [In]. tauto.
Qed.

Lemma absent_firstOccurrences (l : list string) (k : string) :
  absent (firstOccurrences l) k = absent l k.
Proof.
  destruct (absent l k) eqn:E.
  - apply not_false_is_true. intros H. apply absent_In in H.
    apply In_firstSeen in H. destruct H as [H _].
    apply (proj2 (absent_In l k)) in H. congruence.
  - apply absent_In. apply absent_In in E. apply In_firstSeen. tauto.
Qed.

Example firstOccurrences_run :
  firstOccurrences ["b"; "a"; "b"; "c"; "a"]%string = ["b"; "a"; "c"]%string.
Proof. reflexivity. Qed.

Section Grouping.

Variable zoneOffset : string -> Z -> Z.
Variable zoneRemainder : string -> Z -> Z.
Variable timeZone : string.

Lemma walkBlock_grouped (dateFrom dateTo : Date) (block : Rule) (acc : DayMap) :
  walkBlock zoneOffset zoneRemainder timeZone dateFrom dateTo acc block
  = groupByDate
      (flat_map
         (fun d =>
            if includes (days block)
                        (day (start (blockInterval zoneOffset zoneRemainder timeZone
                                                   block d)))
            then [blockInterval zoneOffset zoneRemainder timeZone block d] else [])
         (walkedDays dateFrom dateTo))
      acc.
Proof.
  unfold walkBlock, groupByDate. revert acc.
  induction (walkedDays dateFrom dateTo) as [|d l IH]; intros acc;
    cbn [fold_left flat_map]; auto.
  rewrite fold_left_app, IH, walkStep_append.
  destruct (includes _ _); cbn [fold_left]; unfold dateOf; reflexivity.
Qed.

Lemma workingDates_grouped (availability : list Rule) (dateFrom dateTo : Date) :
  workingDates zoneOffset zoneRemainder timeZone availability dateFrom dateTo
  = groupByDate
      (recurringIntervals zoneOffset zoneRemainder timeZone availability dateFrom dateTo)
      [].
Proof.
  rewrite workingDates_fold. unfold recurringIntervals.
  generalize (@nil (string * list Interval)).
  induction (filter hasDays availability) as [|b l IH]; intros acc;
    cbn [fold_left flat_map]; auto.
  rewrite IH, walkBlock_grouped. unfold groupByDate. rewrite fold_left_app.
  reflexivity.
Qed.

Lemma dateOverrides_grouped (availability : list Rule) :
  dateOverrides zoneOffset zoneRemainder timeZone availability
  = groupByDate (overrideIntervals zoneOffset zoneRemainder timeZone availability) [].
Proof.
  unfold dateOverrides, overrideIntervals, groupByDate.
  generalize (@nil (string * list Interval)).
  induction availability as [|r l IH]; intros acc; cbn [filter flat_map]; auto.
  unfold hasDate at 1. rewrite fold_left_app.
  destruct (date r) as [d|] eqn:E; cbn [fold_left].
  - rewrite IH, overrideStep_append, E. unfold dateOf. reflexivity.
  - apply IH.
Qed.

(** X5. The order of the result.  Take the intervals of the recurring rules
    in the order of the walk (rule by rule, day by day) and those of the
    overrides in rule order.  The result lists the dates of the recurring
    intervals, each where the walk first reached it, then the dates only
    overrides have, each where the first override has it; under each date
    stand its override intervals if there are any and its recurring
    intervals otherwise, in the order of the walk. *)
Theorem result_order (availability : list Rule) (dateFrom dateTo : Date) :
  let recurring :=
    recurringIntervals zoneOffset zoneRemainder timeZone availability dateFrom dateTo in
  let overrides := overrideIntervals zoneOffset zoneRemainder timeZone availability in
  getAvailability zoneOffset zoneRemainder timeZone availability dateFrom dateTo
  = flat_map
      (fun k => match onDate k overrides with
                | [] => onDate k recurring
                | found => found
                end)
      (firstOccurrences (map dateOf recurring)
       ++ filter (absent (map dateOf recurring))
                 (firstOccurrences (map dateOf overrides))).
Proof.
  cbv zeta.
  pose proof (workingDates_NoDup zoneOffset zoneRemainder timeZone availability
                                 dateFrom dateTo) as Hnd1.
  pose proof (dateOverrides_NoDup zoneOffset zoneRemainder timeZone availability)
    as Hnd2.
  unfold getAvailability. rewrite values_flat_by_keys by apply NoDup_keys_spread.
  unfold mergeAvailability. rewrite keys_spread by auto.
  rewrite (filter_ext _ _ (absent_firstOccurrences _)) || idtac.
  assert (Hk1 : keys (workingDates zoneOffset zoneRemainder timeZone availability
                                   dateFrom dateTo)
                = firstOccurrences
                    (map dateOf (recurringIntervals zoneOffset zoneRemainder timeZone
                                                    availability dateFrom dateTo)))
    by (rewrite workingDates_grouped; apply keys_groupByDate).
  assert (Hk2 : keys (dateOverrides zoneOffset zoneRemainder timeZone availability)
                = firstOccurrences
                    (map dateOf (overrideIntervals zoneOffset zoneRemainder timeZone
                                                   availability)))
    by (rewrite dateOverrides_grouped; apply keys_groupByDate).
  rewrite Hk1, Hk2.
  rewrite (filter_ext _ _ (absent_firstOccurrences
             (map dateOf (recurringIntervals zoneOffset zoneRemainder timeZone
                                             availability dateFrom dateTo)))).
  apply flat_map_ext_In. intros k _.
  rewrite get_spread by auto.
  rewrite workingDates_grouped, dateOverrides_grouped, !get_groupByDate.
  cbn [get].
  destruct (onDate k (overrideIntervals zoneOffset zoneRemainder timeZone availability));
    auto.
  now destruct (onDate k (recurringIntervals zoneOffset zoneRemainder timeZone
                                             availability dateFrom dateTo)).
Qed.

End Grouping.


(** ** Weekday indices outside 0..6 *)

Lemma day_range (d : Dayjs) : 0 <= day d < 7.
Proof. unfold day. apply Z.mod_pos_bound. lia. Qed.

Lemma includes_out_of_range (l : list Z) (n : Z) :
  (forall m, In m l -> m < 0 \/ 6 < m) -> 0 <= n < 7 ->
  includes (Some l) n = false.
Proof.
  intros Hl Hn. simpl. apply not_true_is_false. intros H.
  apply existsb_exists in H. destruct H as [m [Hm E]].
  apply Z.eqb_eq in E. subst m. specialize (Hl n Hm). lia.
Qed.

Section Days.

Variable zoneOffset : string -> Z -> Z.
Variable zoneRemainder : string -> Z -> Z.
Variable timeZone : string.

(** X7. A rule whose [days] are all outside 0..6 never matches a weekday:
    it adds nothing to the recurring expansion, and leaves the result as it
    is when it has no [date]. *)
Theorem days_out_of_range (before after : list Rule) (r : Rule) (l : list Z)
        (dateFrom dateTo : Date) :
  days r = Some l -> (forall n, In n l -> n < 0 \/ 6 < n) ->
  workingDates zoneOffset zoneRemainder timeZone (before ++ r :: after) dateFrom dateTo
  = workingDates zoneOffset zoneRemainder timeZone (before ++ after) dateFrom dateTo /\
  (date r = None ->
   getAvailability zoneOffset zoneRemainder timeZone (before ++ r :: after) dateFrom dateTo
   = getAvailability zoneOffset zoneRemainder timeZone (before ++ after) dateFrom dateTo).
Proof.
  intros Hd Hl.
  assert (Hw : workingDates zoneOffset zoneRemainder timeZone (before ++ r :: after)
                            dateFrom dateTo
               = workingDates zoneOffset zoneRemainder timeZone (before ++ after)
                              dateFrom dateTo).
  { rewrite !workingDates_fold, !filter_app. cbn [filter].
    unfold hasDays at 2. rewrite Hd. rewrite !fold_left_app. cbn [fold_left].
    f_equal. unfold walkBlock.
    apply (fold_left_keep _ (fun a => a = fold_left
             (walkBlock zoneOffset zoneRemainder timeZone dateFrom dateTo)
             (filter hasDays before) [])); auto.
    intros a c ->. rewrite walkStep_append, Hd.
    rewrite includes_out_of_range; auto using day_range. }
  split; auto. intros Hdate.
  unfold getAvailability, mergeAvailability. rewrite Hw. f_equal. f_equal.
  unfold dateOverrides. rewrite !filter_app. cbn [filter].
  unfold hasDate at 2. now rewrite Hdate.
Qed.

(** X8. In a zone at or east of Greenwich an override stored at a UTC
    midnight lands on its own date: what the result holds on that date is
    override intervals only, the rule's own among them.  The zone's offset
    at the instant is counted with its remainder. *)
Theorem override_east_replaces (availability : list Rule)
        (dateFrom dateTo : Date) (override : Rule) (d : Date) :
  In override availability -> date override = Some d ->
  d mod MS_DAY = 0 ->
  0 <= zoneOffset timeZone d * MS_MINUTE + zoneRemainder timeZone d < MS_DAY ->
  let result := getAvailability zoneOffset zoneRemainder timeZone availability
                                dateFrom dateTo in
  In (overrideInterval zoneOffset zoneRemainder timeZone override d)
     (onDate (ymd (d / MS_DAY)) result) /\
  forall iv, In iv (onDate (ymd (d / MS_DAY)) result) ->
             In iv (overrideIntervals zoneOffset zoneRemainder timeZone availability).
Proof.
  intros Hin Hd Hmid Hoff result.
  pose proof (override_key_east zoneOffset zoneRemainder timeZone override d Hmid Hoff) as Hk.
  pose proof (dateOverrides_contains zoneOffset zoneRemainder timeZone availability
                override d Hin Hd) as Hov.
  apply In_values_keyed in Hov;
    [|apply dateOverrides_keyed | apply dateOverrides_NoDup].
  destruct Hov as [v [Hg Hv]]. rewrite Hk in Hg.
  assert (Hon : onDate (ymd (d / MS_DAY)) result = v).
  { unfold result, getAvailability.
    rewrite onDate_values
      by (apply mergeAvailability_keyed || apply NoDup_keys_spread).
    unfold mergeAvailability.
    rewrite get_spread
      by (apply workingDates_NoDup || apply dateOverrides_NoDup).
    now rewrite Hg. }
  rewrite Hon. split; auto.
  intros iv Hiv.
  apply (Permutation_in _ (fold_overrideStep_perm zoneOffset zoneRemainder timeZone
                                                  availability [])).
  apply get_Some_In in Hg. unfold values_flat. apply in_concat.
  exists v. split; auto.
  change v with (snd (ymd (d / MS_DAY), v)). now apply in_map.
Qed.

End Days.

(** ** A zone with whole-minute offsets does not move the recurring wall clock *)






(** * Properties of [ensureBookingInputsHaveSystemFields] *)

(** ** Objects and names *)

Lemma get_set_eq {V : Type} (k : string) (v : V) (obj : list (string * V)) :
  get k (set k v obj) = Some v.
Proof.
  induction obj as [|[k' v'] rest IH]; simpl.
  - now rewrite String.eqb_refl.
  - destruct (String.eqb k k') eqn:E; simpl; rewrite E; auto.
Qed.

Lemma set_set_eq {V : Type} (k : string) (v : V) (obj : list (string * V)) :
  set k v (set k v obj) = set k v obj.
Proof. apply set_get_id. apply get_set_eq. Qed.

Lemma NoDup_app_intro {A : Type} (a b : list A) :
  NoDup a -> NoDup b -> (forall x, In x a -> ~ In x b) -> NoDup (a ++ b).
Proof.
  induction 1 as [|x a Hx Ha IH]; intros Hb Hdis; simpl; auto.
  constructor.
  - rewrite in_app_iff. intros [H | H]; [contradiction|].
    apply (Hdis x); simpl; auto.
  - apply IH; auto. intros y Hy. apply Hdis. now right.
Qed.

Lemma hasField_names (bookingFields : list Field) (field : Field) :
  hasField bookingFields field = true <->
  In (name field) (map name bookingFields).
Proof.
  unfold hasField. rewrite existsb_exists, in_map_iff. split.
  - intros [f [Hf E]]. apply String.eqb_eq in E. eauto.
  - intros [f [E Hf]]. exists f. split; auto. apply String.eqb_eq. auto.
Qed.

Lemma missingFields_In (system bookingFields : list Field) (field : Field) :
  In field (missingFields system bookingFields) <->
  In field system /\ ~ In (name field) (map name bookingFields).
Proof.
  unfold missingFields. rewrite filter_In, negb_true_iff.
  rewrite <- hasField_names. destruct (hasField bookingFields field); split;
    intros [H1 H2]; split; auto; congruence.
Qed.

Lemma missingFields_names_NoDup (system bookingFields : list Field) :
  NoDup (map name system) ->
  NoDup (map name (missingFields system bookingFields)).
Proof.
  unfold missingFields. induction system as [|f sys IH]; simpl; auto.
  intros H. inversion H as [|? ? Hnin Hnd]; subst.
  destruct (negb (hasField bookingFields f)); simpl; auto.
  constructor; auto. rewrite in_map_iff in *.
  intros [g [Hg Hin]]. apply Hnin. exists g. split; auto.
  now apply filter_In in Hin.
Qed.

Lemma missingFields_nil (system bookingFields : list Field) :
  (forall field, In field system -> In (name field) (map name bookingFields)) ->
  missingFields system bookingFields = [].
Proof.
  unfold missingFields. induction system as [|f sys IH]; simpl; auto.
  intros H. assert (Hf : hasField bookingFields f = true)
    by (apply hasField_names, H; now left).
  rewrite Hf. simpl. apply IH. intros; apply H; now right.
Qed.

(** ** The editability table *)

Lemma editability_own (s : string) :
  In s systemNames ->
  exists v, get s SystemFieldsEditability = Some (VStr v) /\
            member SystemFieldsEditability s = VStr v /\
            truthy (VStr v) = true.
Proof.
  unfold systemNames. simpl.
  intros [<- | [<- | [<- | [<- | [<- | [<- | []]]]]]];
    eexists; repeat split; reflexivity.
Qed.

Lemma editability_absent (s : string) :
  ~ In s systemNames -> get s SystemFieldsEditability = None.
Proof.
  intros H. unfold SystemFieldsEditability. cbn [get].
  repeat match goal with
         | |- context [String.eqb s ?k] =>
             destruct (String.eqb_spec s k);
             [subst; exfalso; apply H; simpl; tauto|]
         end.
  reflexivity.
Qed.

Lemma prototype_not_system (s : string) :
  In s objectPrototypeKeys -> ~ In s systemNames.
Proof.
  unfold objectPrototypeKeys, systemNames. simpl.
  intros H; repeat (destruct H as [<- | H]; [intros Hs;
    repeat (destruct Hs as [Hs | Hs]; [discriminate Hs|]); destruct Hs|]).
  destruct H.
Qed.

Lemma name_resetEditable (field : Field) :
  name (resetEditable field) = name field.
Proof. unfold resetEditable. now destruct (negb _). Qed.

Lemma names_resetEditable (l : list Field) :
  map name (map resetEditable l) = map name l.
Proof.
  rewrite map_map. apply map_ext. apply name_resetEditable.
Qed.

Lemma resetEditable_system (field : Field) (v : JsValue) :
  get (name field) SystemFieldsEditability = Some v ->
  resetEditable field = mkField (name field) (set "editable" v (props field)).
Proof.
  intros Hg. assert (Hin : In (name field) systemNames).
  { destruct (in_dec string_dec (name field) systemNames) as [H | H]; auto.
    apply editability_absent in H. congruence. }
  destruct (editability_own _ Hin) as (w & Hw & Hm & Ht).
  unfold resetEditable. rewrite Hm, Ht. simpl. congruence.
Qed.

Lemma resetEditable_user (field : Field) :
  ~ In (name field) systemNames -> ~ In (name field) objectPrototypeKeys ->
  resetEditable field = field.
Proof.
  intros Hs Hp. unfold resetEditable, member.
  rewrite (editability_absent _ Hs).
  destruct (existsb (String.eqb (name field)) objectPrototypeKeys) eqn:E; auto.
  exfalso. apply Hp. apply existsb_exists in E. destruct E as [k [Hk E]].
  apply String.eqb_eq in E. now subst.
Qed.

Lemma resetEditable_inherited (field : Field) :
  In (name field) objectPrototypeKeys ->
  resetEditable field
  = mkField (name field)
            (set "editable" (VBuiltin (name field)) (props field)).
Proof.
  intros Hp. unfold resetEditable, member.
  rewrite (editability_absent _ (prototype_not_system _ Hp)).
  assert (E : existsb (String.eqb (name field)) objectPrototypeKeys = true).
  { apply existsb_exists. exists (name field). split; auto.
    apply String.eqb_refl. }
  now rewrite E.
Qed.

Lemma resetEditable_idem (field : Field) :
  resetEditable (resetEditable field) = resetEditable field.
Proof.
  unfold resetEditable at 2.
  destruct (negb (truthy (member SystemFieldsEditability (name field)))) eqn:E.
  - reflexivity.
  - unfold resetEditable. cbn [name props]. rewrite E.
    now rewrite set_set_eq.
Qed.

Section BookingFieldsFacts.

Variable slugify : string -> string.
Variable BookingFieldType : string -> JsValue.

Lemma names_with_system_fields (bookingFields : list Field)
      (disableGuests additionalNotesRequired : bool)
      (customInputs : list CustomInput) :
  let custom :=
    match bookingFields with
    | [] => map (migrated slugify BookingFieldType) customInputs
    | _ :: _ => []
    end in
  let withCustom :=
    missingFields systemBeforeFields bookingFields ++ bookingFields ++ custom in
  bookingFieldsToParse slugify BookingFieldType bookingFields
    disableGuests additionalNotesRequired customInputs
  = map resetEditable
      (withCustom ++
       missingFields (systemAfterFields additionalNotesRequired disableGuests)
                     withCustom).
Proof.
  cbv zeta. unfold bookingFieldsToParse.
  destruct bookingFields as [|f bf]; cbv zeta.
  - now rewrite <- app_assoc.
  - now rewrite app_nil_r.
Qed.

Lemma system_field_names (additionalNotesRequired disableGuests : bool) :
  map name systemBeforeFields = ["name"; "email"; "location"]%string /\
  map name (systemAfterFields additionalNotesRequired disableGuests)
  = ["notes"; "guests"; "rescheduleReason"]%string.
Proof. split; reflexivity. Qed.

Lemma system_names_present (bookingFields : list Field)
      (disableGuests additionalNotesRequired : bool)
      (customInputs : list CustomInput) (s : string) :
  In s systemNames ->
  In s (map name (bookingFieldsToParse slugify BookingFieldType
                    bookingFields disableGuests additionalNotesRequired
                    customInputs)).
Proof.
  intros Hs. rewrite names_with_system_fields. cbv zeta.
  rewrite names_resetEditable.
  set (custom := match bookingFields with
                 | [] => map (migrated slugify BookingFieldType) customInputs
                 | _ :: _ => []
                 end).
  set (withCustom := missingFields systemBeforeFields bookingFields
                     ++ bookingFields ++ custom).
  assert (Hbefore : forall field, In field systemBeforeFields ->
                                  In (name field) (map name withCustom)).
  { intros field Hf. unfold withCustom. rewrite !map_app, !in_app_iff.
    destruct (in_dec string_dec (name field) (map name bookingFields)); auto.
    left. apply in_map. apply missingFields_In. auto. }
  assert (Hafter : forall field,
             In field (systemAfterFields additionalNotesRequired disableGuests) ->
             In (name field)
                (map name (withCustom ++
                           missingFields (systemAfterFields
                                            additionalNotesRequired disableGuests)
                                         withCustom))).
  { intros field Hf. rewrite map_app, in_app_iff.
    destruct (in_dec string_dec (name field) (map name withCustom)); auto.
    right. apply in_map. apply missingFields_In. auto. }
  unfold systemNames in Hs. simpl in Hs.
  destruct Hs as [<- | [<- | [<- | Hs]]].
  - rewrite map_app, in_app_iff. left.
    apply (Hbefore (nth 0 systemBeforeFields (mkField "" []))). simpl; auto.
  - rewrite map_app, in_app_iff. left.
    apply (Hbefore (nth 1 systemBeforeFields (mkField "" []))). simpl; auto.
  - rewrite map_app, in_app_iff. left.
    apply (Hbefore (nth 2 systemBeforeFields (mkField "" []))). simpl; auto.
  - destruct Hs as [<- | [<- | [<- | []]]].
    + apply (Hafter (nth 0 (systemAfterFields additionalNotesRequired
                                              disableGuests) (mkField "" []))).
      simpl; auto.
    + apply (Hafter (nth 1 (systemAfterFields additionalNotesRequired
                                              disableGuests) (mkField "" []))).
      simpl; auto.
    + apply (Hafter (nth 2 (systemAfterFields additionalNotesRequired
                                              disableGuests) (mkField "" []))).
      simpl; auto.
Qed.

(** X10. The six system fields are always there: each of [name], [email],
    [location], [notes], [guests] and [rescheduleReason] names a field of
    the array handed to the final parse, and every field of such a name has
    as [editable] the value the table gives for the name. *)
Theorem system_fields_present (bookingFields : list Field)
        (disableGuests additionalNotesRequired : bool)
        (customInputs : list CustomInput) (s : string) :
  In s systemNames ->
  let result :=
    bookingFieldsToParse slugify BookingFieldType bookingFields
      disableGuests additionalNotesRequired customInputs in
  (exists field, In field result /\ name field = s) /\
  (forall field, In field result -> name field = s ->
     get "editable" (props field) = get s SystemFieldsEditability).
Proof.
  intros Hs result. split.
  - pose proof (system_names_present bookingFields disableGuests
                  additionalNotesRequired customInputs s Hs) as Hin.
    apply in_map_iff in Hin. destruct Hin as [field [Hn Hf]]. eauto.
  - intros field Hf Hn. unfold result in Hf.
    rewrite names_with_system_fields in Hf. cbv zeta in Hf.
    apply in_map_iff in Hf. destruct Hf as [g [Hg _]].
    destruct (editability_own _ Hs) as (v & Hv & _).
    rewrite <- Hg, name_resetEditable in Hn. subst s.
    rewrite <- Hg, (resetEditable_system _ _ Hv). cbn [props].
    rewrite Hv. apply get_set_eq.
Qed.

(** X11. Field names stay distinct: from a non-empty list of fields with
    pairwise different names the function makes a list with pairwise
    different names; every system field is added at most once. *)
Theorem names_stay_distinct (bookingFields : list Field)
        (disableGuests additionalNotesRequired : bool)
        (customInputs : list CustomInput) :
  bookingFields <> [] -> NoDup (map name bookingFields) ->
  NoDup (map name (bookingFieldsToParse slugify BookingFieldType
                     bookingFields disableGuests additionalNotesRequired
                     customInputs)).
Proof.
  intros Hne Hnd. rewrite names_with_system_fields. cbv zeta.
  rewrite names_resetEditable.
  destruct bookingFields as [|f bf]; [congruence|].
  rewrite app_nil_r.
  set (fields := f :: bf) in *.
  rewrite map_app. apply NoDup_app_intro.
  - rewrite map_app. apply NoDup_app_intro; auto.
    + apply missingFields_names_NoDup.
      repeat constructor; simpl; intuition discriminate.
    + intros x Hx. apply in_map_iff in Hx. destruct Hx as [g [<- Hg]].
      now apply missingFields_In in Hg.
  - apply missingFields_names_NoDup.
    repeat constructor; simpl; intuition discriminate.
  - intros x Hx Hx'. apply in_map_iff in Hx'. destruct Hx' as [g [<- Hg]].
    apply missingFields_In in Hg. tauto.
Qed.

(** X12. The function is idempotent: given its own result, with any flags
    and any custom inputs, it returns that result unchanged. *)
Theorem with_system_fields_idempotent (bookingFields : list Field)
        (disableGuests additionalNotesRequired : bool)
        (customInputs : list CustomInput)
        (disableGuests' additionalNotesRequired' : bool)
        (customInputs' : list CustomInput) :
  let result :=
    bookingFieldsToParse slugify BookingFieldType bookingFields
      disableGuests additionalNotesRequired customInputs in
  bookingFieldsToParse slugify BookingFieldType result
    disableGuests' additionalNotesRequired' customInputs'
  = result.
Proof.
  cbv zeta.
  set (result := bookingFieldsToParse slugify BookingFieldType
                   bookingFields disableGuests additionalNotesRequired
                   customInputs).
  assert (Hall : forall s, In s systemNames -> In s (map name result))
    by (intros s Hs; now apply system_names_present).
  assert (Hne : result <> []).
  { intros E. specialize (Hall "name"%string). rewrite E in Hall.
    apply Hall. simpl. auto. }
  assert (Hidem : map resetEditable result = result).
  { unfold result. rewrite names_with_system_fields. cbv zeta.
    rewrite map_map. apply map_ext. apply resetEditable_idem. }
  rewrite names_with_system_fields. cbv zeta.
  destruct result as [|r rs] eqn:E; [congruence|]. rewrite <- E in *.
  rewrite app_nil_r.
  rewrite (missingFields_nil systemBeforeFields result).
  - cbn [app]. rewrite missingFields_nil.
    + now rewrite app_nil_r.
    + intros field Hf. apply Hall.
      destruct Hf as [<- | [<- | [<- | []]]]; simpl; auto 10.
  - intros field Hf. apply Hall.
    destruct Hf as [<- | [<- | [<- | []]]]; simpl; auto 10.
Qed.

End BookingFieldsFacts.

Lemma get_set_neq {V : Type} (k k' : string) (v : V) (obj : list (string * V)) :
  k <> k' -> get k' (set k v obj) = get k' obj.
Proof.
  intros Hne. induction obj as [|[k0 v0] rest IH]; simpl.
  - destruct (String.eqb_spec k' k); congruence.
  - destruct (String.eqb_spec k k0); simpl.
    + subst k0. destruct (String.eqb_spec k' k); congruence.
    + now rewrite IH.
Qed.

Lemma resetEditable_other_props (field : Field) (k : string) :
  k <> "editable"%string ->
  get k (props (resetEditable field)) = get k (props field).
Proof.
  intros Hk. unfold resetEditable. destruct (negb _); auto.
  cbn [props]. apply get_set_neq. congruence.
Qed.

Lemma hasField_app (a b : list Field) (field : Field) :
  hasField (a ++ b) field = hasField a field || hasField b field.
Proof. unfold hasField. apply existsb_app. Qed.

Lemma hasField_existsb (l : list Field) (field : Field) :
  hasField l field = existsb (String.eqb (name field)) (map name l).
Proof.
  unfold hasField. induction l as [|f l IH]; simpl; auto.
  rewrite IH. f_equal. apply String.eqb_sym.
Qed.

Section BookingFieldsEdges.

Variable slugify : string -> string.
Variable BookingFieldType : string -> JsValue.

(** X13. Fields that are already there are kept, and nothing but missing
    system fields is added: for a non-empty list the result does not depend
    on the custom inputs; every field of the list stays, in its place among
    the others, with its name and every property but [editable], and a field
    whose name is neither a system name nor a member of [Object.prototype]
    stays as it is; what stands before is exactly the fields of
    [systemBeforeFields] whose name no field of the list has, what stands
    after exactly those of [systemAfterFields], each with its [editable]
    set. *)
Theorem existing_fields_kept (bookingFields : list Field)
        (disableGuests additionalNotesRequired : bool)
        (customInputs : list CustomInput) :
  bookingFields <> [] ->
  let result :=
    bookingFieldsToParse slugify BookingFieldType bookingFields
      disableGuests additionalNotesRequired customInputs in
  result = bookingFieldsToParse slugify BookingFieldType bookingFields
             disableGuests additionalNotesRequired [] /\
  exists before after,
    result = before ++ map resetEditable bookingFields ++ after /\
    (forall f, In f before <->
               exists sys, In sys systemBeforeFields /\
                           ~ In (name sys) (map name bookingFields) /\
                           f = resetEditable sys) /\
    (forall f, In f after <->
               exists sys,
                 In sys (systemAfterFields additionalNotesRequired disableGuests) /\
                 ~ In (name sys) (map name bookingFields) /\
                 f = resetEditable sys) /\
    (forall f, In f bookingFields ->
       name (resetEditable f) = name f /\
       (forall k, k <> "editable"%string ->
                  get k (props (resetEditable f)) = get k (props f)) /\
       (~ In (name f) systemNames -> ~ In (name f) objectPrototypeKeys ->
        resetEditable f = f)).
Proof.
  intros Hne result. unfold result. rewrite !names_with_system_fields. cbv zeta.
  destruct bookingFields as [|f0 bf]; [congruence|].
  set (fields := f0 :: bf) in *. rewrite app_nil_r.
  split; [reflexivity|].
  exists (map resetEditable (missingFields systemBeforeFields fields)).
  exists (map resetEditable
            (missingFields (systemAfterFields additionalNotesRequired
                                              disableGuests)
                           (missingFields systemBeforeFields fields ++ fields))).
  split; [now rewrite !map_app, <- app_assoc|].
  split; [|split].
  - intros f. rewrite in_map_iff. split.
    + intros [g [<- Hg]]. apply missingFields_In in Hg. exists g. tauto.
    + intros [g [Hg [Hn ->]]]. exists g. split; auto.
      apply missingFields_In. tauto.
  - assert (Hafter : forall g,
              In g (systemAfterFields additionalNotesRequired disableGuests) ->
              ~ In (name g)
                   (map name (missingFields systemBeforeFields fields))).
    { intros g Hg Hin. apply in_map_iff in Hin. destruct Hin as [g' [Hn Hg']].
      apply missingFields_In in Hg'. destruct Hg' as [Hg' _].
      simpl in Hg, Hg'.
      destruct Hg as [<- | [<- | [<- | []]]];
        destruct Hg' as [<- | [<- | [<- | []]]]; discriminate Hn. }
    intros f. rewrite in_map_iff. split.
    + intros [g [<- Hg]]. apply missingFields_In in Hg. exists g.
      rewrite map_app, in_app_iff in Hg. tauto.
    + intros [g [Hg [Hn ->]]]. exists g. split; auto.
      apply missingFields_In. rewrite map_app, in_app_iff.
      split; auto. intros [H | H]; [exact (Hafter g Hg H) | auto].
  - intros f _. split; [apply name_resetEditable|]. split.
    + intros k Hk. now apply resetEditable_other_props.
    + apply resetEditable_user.
Qed.

(** X14. A field named like a member of [Object.prototype] ("toString",
    "constructor", ...) finds that member in the table lookup: the array
    handed to the final parse holds it with the inherited built-in as its
    [editable]. *)
Theorem inherited_name_gets_builtin (bookingFields : list Field)
        (disableGuests additionalNotesRequired : bool)
        (customInputs : list CustomInput) (f : Field) :
  In f bookingFields -> In (name f) objectPrototypeKeys ->
  In (mkField (name f) (set "editable" (VBuiltin (name f)) (props f)))
     (bookingFieldsToParse slugify BookingFieldType bookingFields
        disableGuests additionalNotesRequired customInputs).
Proof.
  intros Hf Hp. rewrite <- (resetEditable_inherited f Hp).
  rewrite names_with_system_fields. cbv zeta. apply in_map.
  rewrite !in_app_iff. auto.
Qed.

(** X15. Migration order: from an empty list the result is named, in order,
    [name], [email], [location], then the slugified labels of the custom
    inputs, then those of [notes], [guests], [rescheduleReason] that no
    custom input's slug has taken. *)
Theorem migration_names (disableGuests additionalNotesRequired : bool)
        (customInputs : list CustomInput) :
  let slugs := map (fun input => slugify (label input)) customInputs in
  map name (bookingFieldsToParse slugify BookingFieldType []
              disableGuests additionalNotesRequired customInputs)
  = ["name"; "email"; "location"]%string ++ slugs ++
    filter (absent slugs) ["notes"; "guests"; "rescheduleReason"]%string.
Proof.
  cbv zeta. rewrite names_with_system_fields. cbv zeta.
  rewrite names_resetEditable.
  set (custom := map (migrated slugify BookingFieldType) customInputs).
  assert (Hslugs : map name custom
                   = map (fun input => slugify (label input)) customInputs).
  { unfold custom. rewrite map_map. reflexivity. }
  assert (Hhas : forall n p,
             In n ["notes"; "guests"; "rescheduleReason"]%string ->
             negb (hasField (missingFields systemBeforeFields [] ++ [] ++ custom)
                            (mkField n p))
             = absent (map (fun input => slugify (label input)) customInputs) n).
  { intros n p Hn. unfold absent. f_equal. rewrite <- Hslugs.
    rewrite hasField_app. cbn [app].
    replace (hasField (missingFields systemBeforeFields []) (mkField n p))
      with false.
    - cbn [orb]. apply hasField_existsb.
    - simpl in Hn. destruct Hn as [<- | [<- | [<- | []]]]; reflexivity. }
  rewrite !map_app. cbn [app map]. f_equal.
  unfold missingFields at 1. cbn [systemBeforeFields filter hasField existsb negb].
  cbn [map name app]. do 3 f_equal. rewrite Hslugs. f_equal.
  unfold missingFields, systemAfterFields. cbn [filter].
  rewrite !Hhas by (simpl; auto).
  destruct (absent _ "notes"), (absent _ "guests"),
    (absent _ "rescheduleReason"); reflexivity.
Qed.

(** X16. A custom input whose slug is [notes], [guests] or
    [rescheduleReason] takes the place of that system field: the system
    field is not added, every field of that name comes from a custom input,
    and the migrated field gets the system field's [editable] instead of
    "user". *)
Theorem custom_input_takes_system_name (disableGuests additionalNotesRequired : bool)
        (customInputs : list CustomInput) (input : CustomInput) :
  In input customInputs ->
  In (slugify (label input)) ["notes"; "guests"; "rescheduleReason"]%string ->
  let result :=
    bookingFieldsToParse slugify BookingFieldType []
      disableGuests additionalNotesRequired customInputs in
  In (resetEditable (migrated slugify BookingFieldType input)) result /\
  get "editable" (props (resetEditable (migrated slugify BookingFieldType input)))
  = get (slugify (label input)) SystemFieldsEditability /\
  forall f, In f result -> name f = slugify (label input) ->
            exists input', In input' customInputs /\
                           f = resetEditable (migrated slugify BookingFieldType
                                                       input').
Proof.
  intros Hin Hs result. unfold result.
  rewrite names_with_system_fields. cbv zeta. cbn [app].
  set (custom := map (migrated slugify BookingFieldType) customInputs).
  assert (Hsys : In (slugify (label input)) systemNames)
    by (simpl in Hs |- *; tauto).
  destruct (editability_own _ Hsys) as (v & Hv & _).
  split; [|split].
  - apply in_map. rewrite !in_app_iff. left. right.
    unfold custom. now apply in_map.
  - rewrite (resetEditable_system (migrated slugify BookingFieldType input) _ Hv).
    cbn [props]. rewrite get_set_eq. now rewrite Hv.
  - intros f Hf Hname. apply in_map_iff in Hf. destruct Hf as [g [<- Hg]].
    rewrite name_resetEditable in Hname.
    rewrite !in_app_iff in Hg. destruct Hg as [[Hg | Hg] | Hg].
    + exfalso. apply missingFields_In in Hg. destruct Hg as [Hg _].
      rewrite <- Hname in Hs. simpl in Hg, Hs.
      destruct Hg as [<- | [<- | [<- | []]]]; simpl in Hs;
        intuition discriminate.
    + unfold custom in Hg. apply in_map_iff in Hg.
      destruct Hg as [input' [<- Hi]]. eauto.
    + exfalso. apply missingFields_In in Hg. destruct Hg as [_ Hg].
      apply Hg. rewrite Hname. rewrite map_app, in_app_iff. right.
      change (slugify (label input))
        with (name (migrated slugify BookingFieldType input)).
      apply in_map. unfold custom. now apply in_map.
Qed.

(** X17. A custom input whose slug is [name], [email] or [location] does
    not take that system field's place: the system field is added first all
    the same, so the result holds two different fields of that name, both
    with the system field's [editable]. *)
Theorem custom_input_duplicates_system_name
        (disableGuests additionalNotesRequired : bool)
        (customInputs : list CustomInput) (input : CustomInput) :
  In input customInputs ->
  In (slugify (label input)) ["name"; "email"; "location"]%string ->
  let result :=
    bookingFieldsToParse slugify BookingFieldType []
      disableGuests additionalNotesRequired customInputs in
  exists system,
    In system systemBeforeFields /\ name system = slugify (label input) /\
    In (resetEditable system) result /\
    In (resetEditable (migrated slugify BookingFieldType input)) result /\
    resetEditable system
    <> resetEditable (migrated slugify BookingFieldType input).
Proof.
  intros Hin Hs result. unfold result.
  rewrite names_with_system_fields. cbv zeta. cbn [app].
  assert (Hsys : In (slugify (label input)) systemNames)
    by (simpl in Hs |- *; tauto).
  destruct (editability_own _ Hsys) as (v & Hv & _).
  assert (Hex : exists system, In system systemBeforeFields /\
                               name system = slugify (label input)).
  { change (In (slugify (label input)) (map name systemBeforeFields)) in Hs.
    apply in_map_iff in Hs. destruct Hs as [g [Hg1 Hg2]]. eauto. }
  destruct Hex as (system & Hsin & Hsn). exists system.
  split; auto. split; auto. split; [|split].
  - apply in_map. rewrite !in_app_iff. left. left.
    apply missingFields_In. split; auto.
  - apply in_map. rewrite !in_app_iff. left. right. now apply in_map.
  - rewrite <- Hsn in Hv.
    rewrite (resetEditable_system system _ Hv).
    assert (Hv' : get (name (migrated slugify BookingFieldType input))
                      SystemFieldsEditability = Some (VStr v))
      by (cbn [migrated name]; congruence).
    rewrite (resetEditable_system _ _ Hv').
    intros Heq. injection Heq as _ Hprops.
    destruct Hsin as [<- | [<- | [<- | []]]]; cbn in Hprops; discriminate Hprops.
Qed.

(** X18. The two flags shape only fields the function adds: when the list
    already has a [notes] and a [guests] field, the result is the same for
    every [disableGuests] and [additionalNotesRequired]. *)
Theorem flags_leave_existing_fields (bookingFields : list Field)
        (disableGuests additionalNotesRequired : bool)
        (disableGuests' additionalNotesRequired' : bool)
        (customInputs : list CustomInput) :
  In "notes"%string (map name bookingFields) ->
  In "guests"%string (map name bookingFields) ->
  bookingFieldsToParse slugify BookingFieldType bookingFields
    disableGuests additionalNotesRequired customInputs
  = bookingFieldsToParse slugify BookingFieldType bookingFields
      disableGuests' additionalNotesRequired' customInputs.
Proof.
  intros Hn Hg. rewrite !names_with_system_fields. cbv zeta.
  set (custom := match bookingFields with
                 | [] => map (migrated slugify BookingFieldType) customInputs
                 | _ :: _ => []
                 end).
  set (withCustom := missingFields systemBeforeFields bookingFields
                     ++ bookingFields ++ custom).
  f_equal. f_equal.
  assert (Hhas : forall n p, In n (map name bookingFields) ->
                             hasField withCustom (mkField n p) = true).
  { intros n p H. apply hasField_names. cbn [name]. unfold withCustom.
    rewrite !map_app, !in_app_iff. auto. }
  unfold missingFields, systemAfterFields. cbn [filter].
  rewrite !(Hhas "notes"%string) by auto.
  rewrite !(Hhas "guests"%string) by auto.
  reflexivity.
Qed.

End BookingFieldsEdges.

(** * The range counts in whole UTC days *)

Lemma loopDays_whole_days (fuel : nat) : forall (w t : Z),
  w mod MS_DAY = 0 ->
  loopDays fuel (utc t) (utc w) = loopDays fuel (utc (utcEndOfDay t)) (utc w).
Proof.
  induction fuel as [|fuel IH]; intros w t Hw; simpl; auto.
  rewrite !isBefore_utc.
  assert (E : (w <? t) = (w <? utcEndOfDay t)).
  { unfold utcEndOfDay. destruct (w <? t) eqn:E1; symmetry.
    - apply Z.ltb_lt in E1. apply Z.ltb_lt. revert Hw E1. clock_arith.
    - apply Z.ltb_ge in E1. apply Z.ltb_ge. revert Hw E1. clock_arith. }
  rewrite <- E. destruct (w <? t); auto.
  rewrite !add_day_utc. f_equal. apply IH.
  revert Hw. clock_arith.
Qed.

Lemma walkFuel_whole_days (dateFrom dateTo : Date) :
  walkFuel (utcStartOfDay dateFrom) (utcEndOfDay dateTo)
  = walkFuel dateFrom dateTo.
Proof.
  unfold walkFuel, utcEndOfDay. rewrite utcStartOfDay_idem. f_equal.
  pose proof (utcStartOfDay_aligned dateFrom) as Ha. revert Ha.
  generalize (utcStartOfDay dateFrom). intros w Ha. clock_arith.
Qed.

Lemma walkedDays_whole_days (dateFrom dateTo : Date) :
  walkedDays (utcStartOfDay dateFrom) (utcEndOfDay dateTo)
  = walkedDays dateFrom dateTo.
Proof.
  unfold walkedDays. rewrite walkFuel_whole_days, utcStartOfDay_idem.
  symmetry. apply loopDays_whole_days. apply utcStartOfDay_aligned.
Qed.

(** X19. The range counts in whole UTC days: the time of day of [dateFrom]
    is ignored and [dateTo] counts up to the end of its UTC day, so the
    result is that of the range from the instant the walk starts at (the
    midnight that starts [dateFrom]'s day, for the years 0100..9999) to the
    midnight at or after [dateTo]. *)
Theorem range_in_whole_days (zoneOffset zoneRemainder : string -> Z -> Z)
        (timeZone : string)
        (availability : list Rule) (dateFrom dateTo : Date) :
  getAvailability zoneOffset zoneRemainder timeZone availability dateFrom dateTo
  = getAvailability zoneOffset zoneRemainder timeZone availability
                    (utcStartOfDay dateFrom) (utcEndOfDay dateTo).
Proof.
  unfold getAvailability, mergeAvailability. f_equal. f_equal.
  rewrite !workingDates_fold. unfold walkBlock.
  now rewrite walkedDays_whole_days.
Qed.

(** * Instances of the further properties *)


(** X7, an instance: weekday index 7. *)
Lemma days_out_of_range_witness :
  getAvailability sampleZones noRemainder "UTC"
    [nineToFive; mkRule (hours 8) (hours 9) None (Some [7; -1])]
    jan1_2024 (jan1_2024 + 7 * MS_DAY)
  = getAvailability sampleZones noRemainder "UTC" [nineToFive]
                    jan1_2024 (jan1_2024 + 7 * MS_DAY).
Proof.
  destruct (days_out_of_range sampleZones noRemainder "UTC" [nineToFive] []
              (mkRule (hours 8) (hours 9) None (Some [7; -1])) [7; -1]
              jan1_2024 (jan1_2024 + 7 * MS_DAY)) as [_ H];
    [ reflexivity
    | intros n [<- | [<- | []]]; lia
    | exact (H eq_refl) ].
Defined.

(** X8, an instance: the override of 2024-01-02 in Berlin. *)
Lemma override_east_replaces_witness :
  In (overrideInterval sampleZones noRemainder "Europe/Berlin" jan2Override
                       (jan1_2024 + MS_DAY))
     (onDate "2024-01-02"
             (getAvailability sampleZones noRemainder "Europe/Berlin"
                              [nineToFive; jan2Override]
                              jan1_2024 (jan1_2024 + 3 * MS_DAY))).
Proof.
  destruct (override_east_replaces sampleZones noRemainder "Europe/Berlin"
              [nineToFive; jan2Override] jan1_2024
              (jan1_2024 + 3 * MS_DAY) jan2Override (jan1_2024 + MS_DAY))
    as [H _];
    [ right; left; reflexivity
    | reflexivity
    | reflexivity
    | vm_compute; split; [discriminate | reflexivity]
    | exact H ].
Defined.

(** X10, an instance: [notes] from an empty list. *)
Lemma system_fields_present_witness :
  exists field,
    In field (bookingFieldsToParse plainSlug typeByName [] false true []) /\
    name field = "notes"%string /\
    get "editable" (props field) = Some (VStr "system-but-optional").
Proof.
  destruct (system_fields_present plainSlug typeByName [] false true []
              "notes"%string) as [(field & Hin & Hn) He];
    [simpl; auto|].
  exists field. split; [exact Hin|]. split; [exact Hn|].
  exact (He field Hin Hn).
Defined.

(** X11, an instance. *)
Lemma names_stay_distinct_witness :
  NoDup (map name (bookingFieldsToParse plainSlug typeByName
                     [companyField] false false [notesInput])).
Proof.
  apply names_stay_distinct.
  - discriminate.
  - simpl. constructor; [intros [] | constructor].
Defined.

(** X13, an instance: one user field, and a custom input that is not
    migrated. *)
Lemma existing_fields_kept_witness :
  bookingFieldsToParse plainSlug typeByName [companyField] false false [notesInput]
  = bookingFieldsToParse plainSlug typeByName [companyField] false false [] /\
  exists before after,
    bookingFieldsToParse plainSlug typeByName [companyField]
                                  false false [notesInput]
    = before ++ map resetEditable [companyField] ++ after.
Proof.
  destruct (existing_fields_kept plainSlug typeByName [companyField]
              false false [notesInput]) as (Hsame & before & after & H & _).
  - discriminate.
  - split; [exact Hsame|]. exists before, after. exact H.
Defined.

(** X14, an instance: a field named [toString]. *)
Lemma inherited_name_gets_builtin_witness :
  In (mkField "toString" [("type", VStr "text");
                          ("editable", VBuiltin "toString")]%string)
     (bookingFieldsToParse plainSlug typeByName
        [mkField "toString" [("type", VStr "text")]%string] false false []).
Proof.
  apply (inherited_name_gets_builtin plainSlug typeByName
           [mkField "toString" [("type", VStr "text")]%string] false false []
           (mkField "toString" [("type", VStr "text")]%string)).
  - left. reflexivity.
  - simpl. auto 12.
Defined.

(** X16, an instance: a custom input labelled [notes]. *)
Lemma custom_input_takes_system_name_witness :
  get "editable" (props (resetEditable (migrated plainSlug typeByName notesInput)))
  = Some (VStr "system-but-optional").
Proof.
  destruct (custom_input_takes_system_name plainSlug typeByName false false
              [notesInput] notesInput) as (_ & He & _).
  - left. reflexivity.
  - left. reflexivity.
  - exact He.
Defined.

(** X17, an instance: a custom input labelled [email]. *)
Lemma custom_input_duplicates_system_name_witness :
  exists system,
    In system systemBeforeFields /\ name system = "email"%string /\
    In (resetEditable system)
       (bookingFieldsToParse plainSlug typeByName [] false false
                                      [emailInput]) /\
    In (resetEditable (migrated plainSlug typeByName emailInput))
       (bookingFieldsToParse plainSlug typeByName [] false false
                                      [emailInput]) /\
    resetEditable system
    <> resetEditable (migrated plainSlug typeByName emailInput).
Proof.
  apply (custom_input_duplicates_system_name plainSlug typeByName false false
           [emailInput] emailInput).
  - left. reflexivity.
  - right. left. reflexivity.
Defined.

(** X18, an instance: a list that has [notes] and [guests]. *)
Lemma flags_leave_existing_fields_witness :
  bookingFieldsToParse plainSlug typeByName
    [mkField "notes" []; mkField "guests" []] true true []
  = bookingFieldsToParse plainSlug typeByName
      [mkField "notes" []; mkField "guests" []] false false [].
Proof.
  apply flags_leave_existing_fields.
  - left. reflexivity.
  - right. left. reflexivity.
Defined.

